(** * FLife.SpectralData: band splitting, spectral moments and derived statistics

    A shallow embedding of [FLife/spectralData.py].

    Numbers.  The source computes with IEEE doubles (NumPy arrays of
    [float64]).  Two readings of them are kept side by side.

    In the main embedding a finite double is idealised as a real number
    of [R] and every arithmetic operation is exact; a result that NumPy
    reports as [nan] or [inf] (a division by zero, the square root of a
    negative number) is the value [NotFinite] of [npfloat].  Rounding,
    overflow and absorption are outside that reading: what is proved on
    it holds in exact arithmetic, and a statement that depends on it
    says so.

    The band splitter returns row indices chosen by comparing computed
    distances, and there rounding decides the outcome.  It is therefore
    embedded a second time, in [Module F64], over binary64 numbers with
    the IEEE 754 operations (primitive floats: round to nearest, ties to
    even; [nan] and the infinities are values), so that what the
    splitter returns on doubles can be stated, proved and computed.

    Arrays.  A two-dimensional [ndarray] is kept as the list of its
    columns, so that shape [(n, 2)] is [[f; p]] with [length f = n],
    shape [(0, 0)] is [[]], and [a[:, k]] is a lookup of column [k]. *)

From Stdlib Require Import Floats.
From Stdlib Require Import Reals Lra Lia List ZArith String Bool Arith.
Import ListNotations.
Set Warnings "-register-all".
(** A decimal literal in [float_scope] denotes the nearest double, as it
    does in Python. *)
Set Warnings "-inexact-float".
Open Scope string_scope.
Open Scope list_scope.
Open Scope R_scope.

(** ** Python values, exceptions and the error monad *)

Module Py.

Inductive pyval : Type :=
| PNone
| PBool (b : bool)
| PInt (z : Z)
| PFloat (x : R)
| PStr (s : string)
| PList (l : list pyval)
| PTuple (l : list pyval)
| PArray (a : list R).

(** Exceptions carry their kind and, where the source writes one, the
    message; library messages are abbreviated. *)
Inductive exn : Type :=
| TypeError (msg : string)
| ValueError (msg : string)
| KeyError (key : string)
| IndexError
| ZeroDivisionError
| AttributeError (attr : string)
| OverflowError
| Exception (msg : string).

Inductive result (A : Type) : Type :=
| Ok (a : A)
| Err (e : exn).
Arguments Ok {A} a.
Arguments Err {A} e.

Definition bind {A B : Type} (c : result A) (k : A -> result B) : result B :=
  match c with
  | Ok a => k a
  | Err e => Err e
  end.

Fixpoint mapM {A B : Type} (f : A -> result B) (l : list A) : result (list B) :=
  match l with
  | [] => Ok []
  | a :: l' =>
      bind (f a) (fun b => bind (mapM f l') (fun bs => Ok (b :: bs)))
  end.

(** [isinstance(v, (int, float))]: [bool] is a subclass of [int]. *)
Definition is_int_or_float (v : pyval) : bool :=
  match v with
  | PBool _ | PInt _ | PFloat _ => true
  | _ => false
  end.

(** [isinstance(v, int)]. *)
Definition is_int (v : pyval) : bool :=
  match v with
  | PBool _ | PInt _ => true
  | _ => false
  end.

(** The integer a value of type [int] (or [bool]) stands for. *)
Definition int_value (v : pyval) : Z :=
  match v with
  | PBool true => 1%Z
  | PInt z => z
  | _ => 0%Z
  end.

(** The number an [int] or [float] contributes to float arithmetic. *)
Definition float_value (v : pyval) : R :=
  match v with
  | PBool true => 1
  | PInt z => IZR z
  | PFloat x => x
  | _ => 0
  end.

(** [range(N)] for a Python integer [N]: empty when [N <= 0]. *)
Definition range (N : Z) : list Z :=
  map Z.of_nat (seq 0 (Z.to_nat N)).

(** [a[lo:hi]] for non-negative bounds. *)
Definition slice {A : Type} (lo hi : nat) (l : list A) : list A :=
  skipn lo (firstn hi l).

(** [a[:k]] for a Python integer [k]; a negative [k] counts from the end. *)
Definition slice_to {A : Type} (k : Z) (l : list A) : list A :=
  if (k <? 0)%Z
  then firstn (List.length l - Z.to_nat (- k)) l
  else firstn (Z.to_nat k) l.

(** [x, = xs]: unpacking into exactly one target. *)
Definition unpack1 {A : Type} (xs : list A) : result A :=
  match xs with
  | [x] => Ok x
  | [] => Err (ValueError "not enough values to unpack (expected 1, got 0)")
  | _ => Err (ValueError "too many values to unpack (expected 1)")
  end.

End Py.
Import Py.

Declare Scope py_scope.
Delimit Scope py_scope with py.
Notation "x <- c ;; k" := (bind c (fun x => k))
  (at level 61, c at next level, right associativity) : py_scope.
Open Scope py_scope.

(** ** The NumPy operations the source calls *)

Module Np.

(** A double that may be [nan] or [inf]. *)
Inductive npfloat : Type :=
| Finite (x : R)
| NotFinite.

Definition ndarray2 := list (list R).

(** [a[:, k]] *)
Definition column (k : nat) (a : ndarray2) : result (list R) :=
  match nth_error a k with
  | Some c => Ok c
  | None => Err IndexError
  end.

(** [a[lo:hi, :]] *)
Definition rows (lo hi : nat) (a : ndarray2) : ndarray2 :=
  map (slice lo hi) a.

(** [np.column_stack((f, p))] and [np.vstack((f, p)).transpose()] for
    one-dimensional [f] and [p] of equal length. *)
Definition column_stack (f p : list R) : ndarray2 := [f; p].

Definition sum (a : list R) : R := fold_right Rplus 0 a.

Fixpoint cumsum_from (acc : R) (a : list R) : list R :=
  match a with
  | [] => []
  | x :: a' => (acc + x) :: cumsum_from (acc + x) a'
  end.

Definition cumsum (a : list R) : list R := cumsum_from 0 a.

Definition abs (a : list R) : list R := map Rabs a.

(** [a - c] for a scalar [c] *)
Definition sub_scalar (a : list R) (c : R) : list R := map (fun x => x - c) a.

(** [c * a] for a scalar [c] *)
Definition scale (c : R) (a : list R) : list R := map (fun x => c * x) a.

Fixpoint zip_with (op : R -> R -> R) (a b : list R) : list R :=
  match a, b with
  | x :: a', y :: b' => op x y :: zip_with op a' b'
  | _, _ => []
  end.

Definition mul (a b : list R) : list R := zip_with Rmult a b.
Definition add (a b : list R) : list R := zip_with Rplus a b.

(** [x ** i] on a non-negative base.  For [x = 0] and [i < 0] NumPy
    yields [inf], and for [x < 0] and fractional [i] it yields [nan];
    the value given here is meaningful for [0 <= x] and, at [x = 0],
    for [0 <= i]. *)
Definition power1 (x i : R) : R :=
  if Req_dec_T x 0
  then (if Req_dec_T i 0 then 1 else 0)
  else Rpower x i.

Definition power (a : list R) (i : R) : list R := map (fun x => power1 x i) a.

(** [np.argmin]: the first index of a minimal element. *)
Fixpoint argmin_from (bi : nat) (b : R) (i : nat) (a : list R) : nat :=
  match a with
  | [] => bi
  | x :: a' =>
      if Rlt_dec x b
      then argmin_from i x (S i) a'
      else argmin_from bi b (S i) a'
  end.

Definition argmin (a : list R) : result nat :=
  match a with
  | [] => Err (ValueError "attempt to get argmin of an empty sequence")
  | x :: a' => Ok (argmin_from 0 x 1 a')
  end.

(** [np.diff(x)] is [x[1:] - x[:-1]]. *)
Definition diff (x : list R) : list R :=
  zip_with Rminus (tl x) (removelast x).

(** [np.trapz(y, x)] is [(d * (y[1:] + y[:-1]) / 2.0).sum()] with
    [d = np.diff(x)]. *)
Definition trapz (y x : list R) : R :=
  sum (map (fun v => v / 2) (mul (diff x) (add (tl y) (removelast y)))).

(** [a / b] on doubles of which [b] is a NumPy scalar: no exception,
    [inf] or [nan] when [b] is zero. *)
Definition div (a b : R) : npfloat :=
  if Req_dec_T b 0 then NotFinite else Finite (a / b).

(** [np.sqrt] on a double. *)
Definition sqrt (a : R) : npfloat :=
  if Rlt_dec a 0 then NotFinite else Finite (R_sqrt.sqrt a).

End Np.

(** ** Band splitting

    The two policies and their dispatcher, on exact numbers: sums,
    differences and comparisons are those of [R].  The policies are
    given once more on doubles in [Module F64] below. *)

Section Splitter.

Variable psd : Np.ndarray2.

Definition _userDefinedBands (freq_list : pyval) : result (list nat) :=
  match freq_list with
  | PList l | PTuple l =>
      if forallb is_int_or_float l
      then
        psd_freq <- Np.column 0 psd ;;
        mapM (fun freq =>
                Np.argmin (Np.abs (Np.sub_scalar psd_freq (float_value freq))))
             l
      else Err (TypeError "Parameter `PSD_splitting[1]` elements must be of type int or float.")
  | _ => Err (TypeError "Parameter `PSD_splitting[1]` must be of type list or tuple.")
  end.

Definition _equalAreaBands (N : pyval) : result (list nat) :=
  if is_int N
  then
    psd_val <- Np.column 1 psd ;;
    let q_area := Np.sum psd_val in
    let c_psd := Np.cumsum psd_val in
    mapM (fun n =>
            Np.argmin
              (Np.abs (Np.sub_scalar c_psd
                         (IZR (n + 1) * q_area / IZR (int_value N)))))
         (range (int_value N))
  else Err (TypeError "Parameter `PSD_splitting[1]` must be of type int.").

(** The dictionary [method_dict] and its lookup. *)
Definition method_dict (method : pyval) : result (pyval -> result (list nat)) :=
  match method with
  | PStr s =>
      if String.eqb s "equalAreaBands" then Ok _equalAreaBands
      else if String.eqb s "userDefinedBands" then Ok _userDefinedBands
      else Err (KeyError s)
  | PNone | PBool _ | PInt _ | PFloat _ | PTuple _ => Err (KeyError "")
  | PList _ | PArray _ => Err (TypeError "unhashable type")
  end.

(** The handler's [f'Unknown splitting method: {method:s}']: the format
    code [s] is accepted for a [str] only. *)
Definition unknown_splitting_method (method : pyval) : exn :=
  match method with
  | PStr s => ValueError ("Unknown splitting method: " ++ s)%string
  | PBool _ | PInt _ | PFloat _ => ValueError "Unknown format code 's'"
  | _ => TypeError "unsupported format string"
  end.

Definition _get_band_stop_frequency (PSD_splitting : pyval) : result (list nat) :=
  match PSD_splitting with
  | PTuple (method :: arg :: _) =>
      match (m <- method_dict method ;; m arg) with
      | Ok freq_indx => Ok freq_indx
      | Err _ => Err (unknown_splitting_method method)
      end
  | PTuple _ => Err IndexError
  | _ => Err (TypeError "Parameter `PSD_splitting` must be of type tuple.")
  end.

End Splitter.

(** ** Band splitting on doubles

    [_userDefinedBands] and [_equalAreaBands] once more, over binary64
    numbers.  [+], [-], [*], [/] and [abs] are the IEEE 754 operations,
    comparisons are those of IEEE 754, and [nan] is a value. *)

Module F64.

Definition ndarray2 := list (list float).

(** Python values whose floats are doubles. *)
Inductive pyval : Type :=
| PNone
| PBool (b : bool)
| PInt (z : Z)
| PFloat (x : float)
| PStr (s : string)
| PList (l : list pyval)
| PTuple (l : list pyval)
| PArray (a : list float).

Definition is_int_or_float (v : pyval) : bool :=
  match v with
  | PBool _ | PInt _ | PFloat _ => true
  | _ => false
  end.

Definition is_int (v : pyval) : bool :=
  match v with
  | PBool _ | PInt _ => true
  | _ => false
  end.

Definition int_value (v : pyval) : Z :=
  match v with
  | PBool true => 1%Z
  | PInt z => z
  | _ => 0%Z
  end.

(** The double a Python integer becomes when it meets a [float64]: the
    nearest double, ties to even (exact up to [2^53]).  An integer that
    rounds beyond the largest double is refused. *)
Definition of_int (z : Z) : result float :=
  match binary_normalize prec emax z 0 false with
  | S754_infinity _ => Err OverflowError
  | x => Ok (SF2Prim x)
  end.

(** The double an [int] or [float] contributes to float arithmetic. *)
Definition float_value (v : pyval) : result float :=
  match v with
  | PBool b => of_int (if b then 1 else 0)
  | PInt z => of_int z
  | PFloat x => Ok x
  | _ => Err (TypeError "unsupported operand type(s)")
  end.

(** [a[:, k]] *)
Definition column (k : nat) (a : ndarray2) : result (list float) :=
  match nth_error a k with
  | Some c => Ok c
  | None => Err IndexError
  end.

Definition abs (a : list float) : list float := map PrimFloat.abs a.

(** [a - c] for a scalar [c] *)
Definition sub_scalar (a : list float) (c : float) : list float :=
  map (fun x => (x - c)%float) a.

(** [np.cumsum]: the first entry is the first element, and each later
    entry is the previous entry plus the next element, rounded. *)
Fixpoint accumulate (acc : float) (a : list float) : list float :=
  match a with
  | [] => []
  | x :: a' => (acc + x)%float :: accumulate (acc + x)%float a'
  end.

Definition cumsum (a : list float) : list float :=
  match a with
  | [] => []
  | x :: a' => x :: accumulate x a'
  end.

(** [np.argmin] on doubles.  NumPy scans with the minimum [mp] so far:
    it returns 0 when [a[0]] is nan; at each later [a[i]] it moves on
    when [a[i] >= mp], and otherwise takes [a[i]] as the new minimum,
    stopping there when [a[i]] is nan. *)
Fixpoint argmin_from (bi : nat) (mp : float) (i : nat) (a : list float) : nat :=
  match a with
  | [] => bi
  | x :: a' =>
      if (mp <=? x)%float
      then argmin_from bi mp (S i) a'
      else if is_nan x then i else argmin_from i x (S i) a'
  end.

Definition argmin (a : list float) : result nat :=
  match a with
  | [] => Err (ValueError "attempt to get argmin of an empty sequence")
  | x :: a' => if is_nan x then Ok 0%nat else Ok (argmin_from 0 x 1 a')
  end.

Section Splitter.

(** [np.sum] adds in an order of its own (pairwise, in blocks); it is a
    parameter here, and what is proved holds for every order. *)
Variable np_sum : list float -> float.

Variable psd : ndarray2.

Definition _userDefinedBands (freq_list : pyval) : result (list nat) :=
  match freq_list with
  | PList l | PTuple l =>
      if forallb is_int_or_float l
      then
        psd_freq <- column 0 psd ;;
        mapM (fun freq =>
                target <- float_value freq ;;
                argmin (abs (sub_scalar psd_freq target)))
             l
      else Err (TypeError "Parameter `PSD_splitting[1]` elements must be of type int or float.")
  | _ => Err (TypeError "Parameter `PSD_splitting[1]` must be of type list or tuple.")
  end.

Definition _equalAreaBands (N : pyval) : result (list nat) :=
  if is_int N
  then
    psd_val <- column 1 psd ;;
    let q_area := np_sum psd_val in
    let c_psd := cumsum psd_val in
    mapM (fun n =>
            n1 <- of_int (n + 1) ;;
            N' <- of_int (int_value N) ;;
            argmin (abs (sub_scalar c_psd (n1 * q_area / N')%float)))
         (range (int_value N))
  else Err (TypeError "Parameter `PSD_splitting[1]` must be of type int.").

End Splitter.

(** The sum taken from left to right, starting from 0: what [np.sum]
    returns on an array of fewer than eight elements. *)
Definition sum_in_order (a : list float) : float :=
  fold_left PrimFloat.add a 0%float.

(** [trim * df] with [df = fs / nperseg], of which [_calculate_psd]
    takes the floor. *)
Definition trim_product (trim : Z) (fs : float) (nperseg : Z) : result float :=
  if (nperseg =? 0)%Z then Err ZeroDivisionError
  else
    n <- of_int nperseg ;;
    let df := (fs / n)%float in
    t <- of_int trim ;;
    Ok (t * df)%float.

End F64.

(** ** Moment engine and derived statistics

    The methods below read no attribute of the object but [self.psd],
    which is their first argument. *)

(** The moment is a real number: the reading is exact, and it is
    meaningful where the power [(2*pi*f)**i] is a finite number, that
    is on frequencies that are positive, or zero with an order that is
    not negative (elsewhere NumPy yields [inf] or [nan]). *)
Definition _get_spectral_moment (psd : Np.ndarray2) (i : pyval) : result R :=
  if is_int_or_float i
  then
    f <- Np.column 0 psd ;;
    p <- Np.column 1 psd ;;
    Ok (Np.trapz (Np.mul (Np.power (Np.scale (2 * PI) f) (float_value i)) p) f)
  else Err (TypeError "Parameter `i` must be of type int or float").

(** The slice of [self.psd] that the loop of [get_spectral_moments]
    integrates for the band at position [index]. *)
Definition band_rows (psd : Np.ndarray2) (band_stop_indexes : list nat)
    (index : nat) : Np.ndarray2 :=
  if (index =? 0)%nat
  then Np.rows 0 (nth index band_stop_indexes 0%nat + 1) psd
  else Np.rows (nth (index - 1) band_stop_indexes 0%nat)
               (nth index band_stop_indexes 0%nat + 1) psd.

(** The result is the array of shape [(M, N)], kept as its list of rows. *)
Definition get_spectral_moments (psd : Np.ndarray2) (PSD_splitting : pyval)
    (moments : list pyval) : result (list (list R)) :=
  band_stop_indexes <- _get_band_stop_frequency psd PSD_splitting ;;
  mapM (fun index =>
          mapM (fun i =>
                  _get_spectral_moment (band_rows psd band_stop_indexes index) i)
               moments)
       (seq 0 (List.length band_stop_indexes)).

(** [2 * i] for a Python number. *)
Definition py_double (i : pyval) : pyval :=
  match i with
  | PFloat x => PFloat (2 * x)
  | v => PInt (2 * int_value v)
  end.

Definition alpha_of_moments (band_moments : list R) : Np.npfloat :=
  match Np.sqrt (nth 0 band_moments 0 * nth 2 band_moments 0) with
  | Np.Finite s => Np.div (nth 1 band_moments 0) s
  | Np.NotFinite => Np.NotFinite
  end.

Definition get_bandwidth_estimator (psd : Np.ndarray2) (PSD_splitting : pyval)
    (i : pyval) : result (list Np.npfloat) :=
  if is_int_or_float i
  then
    moments <- get_spectral_moments psd PSD_splitting [PInt 0; i; py_double i] ;;
    Ok (map alpha_of_moments moments)
  else Err (TypeError "Parameter `i` must be of type int or float").

Definition get_vanmarcke_parameter (psd : Np.ndarray2) (PSD_splitting : pyval)
    : result (list Np.npfloat) :=
  alpha <- get_bandwidth_estimator psd PSD_splitting (PInt 1) ;;
  Ok (map (fun alpha_1 =>
             match alpha_1 with
             | Np.Finite a => Np.sqrt (1 - a * a)
             | Np.NotFinite => Np.NotFinite
             end) alpha).

(** [1/(2*np.pi) * np.sqrt(band_moments[1] / band_moments[0])] *)
Definition root_ratio (band_moments : list R) : Np.npfloat :=
  match Np.div (nth 1 band_moments 0) (nth 0 band_moments 0) with
  | Np.Finite q =>
      match Np.sqrt q with
      | Np.Finite s => Np.Finite (1 / (2 * PI) * s)
      | Np.NotFinite => Np.NotFinite
      end
  | Np.NotFinite => Np.NotFinite
  end.

Definition get_nup (psd : Np.ndarray2) (PSD_splitting : pyval)
    : result (list Np.npfloat) :=
  moments <- get_spectral_moments psd PSD_splitting [PInt 0; PInt 2] ;;
  Ok (map root_ratio moments).

Definition get_mp (psd : Np.ndarray2) (PSD_splitting : pyval)
    : result (list Np.npfloat) :=
  moments <- get_spectral_moments psd PSD_splitting [PInt 2; PInt 4] ;;
  Ok (map root_ratio moments).

(** ** The container *)

(** An attribute that [__init__] may leave unset is an [option]. *)
Record SpectralData : Type := mkSpectralData {
  data : option (list R);
  dt : option Np.npfloat;
  t : option Np.npfloat;
  trim_length : option (option Z);
  psd : Np.ndarray2;
  PSD_splitting : pyval;
  moments : list R;
  nu : Np.npfloat;
  m_p : Np.npfloat;
  alpha075 : Np.npfloat;
  alpha1 : Np.npfloat;
  alpha2 : Np.npfloat
}.

(** Reading an attribute of the object. *)
Definition getattr {A : Type} (name : string) (field : option A) : result A :=
  match field with
  | Some v => Ok v
  | None => Err (AttributeError name)
  end.

(** What [_calculate_coefficients] assigns. *)
Record Coefficients : Type := mkCoefficients {
  c_moments : list R;
  c_nu : Np.npfloat;
  c_m_p : Np.npfloat;
  c_alpha075 : Np.npfloat;
  c_alpha1 : Np.npfloat;
  c_alpha2 : Np.npfloat
}.

Definition _calculate_coefficients (psd : Np.ndarray2) (PSD_splitting : pyval)
    : result Coefficients :=
  m <- get_spectral_moments psd PSD_splitting
         [PInt 0; PInt 1; PInt 2; PInt 3; PInt 4] ;;
  nu <- (r <- get_nup psd PSD_splitting ;; unpack1 r) ;;
  m_p <- (r <- get_mp psd PSD_splitting ;; unpack1 r) ;;
  alpha075 <- (r <- get_bandwidth_estimator psd PSD_splitting (PFloat (3 / 4)) ;;
               unpack1 r) ;;
  alpha1 <- (r <- get_bandwidth_estimator psd PSD_splitting (PInt 1) ;; unpack1 r) ;;
  alpha2 <- (r <- get_bandwidth_estimator psd PSD_splitting (PInt 2) ;; unpack1 r) ;;
  Ok (mkCoefficients (List.concat m) nu m_p alpha075 alpha1 alpha2).

(** [np.column_stack((f, p))] / [np.vstack((f, p)).transpose()], which
    refuse columns of different lengths. *)
Definition stack_columns (f p : list R) : result Np.ndarray2 :=
  if (List.length f =? List.length p)%nat
  then Ok (Np.column_stack f p)
  else Err (ValueError "all the input array dimensions must match exactly").

Section Container.

(** Collaborators outside the repository: [scipy.signal.welch] (with its
    window and overlap arguments), [pyExSi.random_gaussian] with the
    type of its generator, the PSD entered through the GUI, and the
    content of a file of samples.  [_readf] stands for what its
    documentation promises, the one-dimensional array of the numbers in
    the file; its body builds the array from a [map] object, which a
    Python 3 interpreter wraps whole into an array without dimensions,
    so that there the branch of the file path departs from this
    reading. *)
Variable welch : list R -> R -> Z -> result (list R * list R).
Variable Generator : Type.
Variable random_gaussian : Z -> list R -> Np.npfloat -> Generator -> result (list R).
Variable PSDgen_get_PSD : Np.ndarray2.
Variable _readf : string -> result (list R).

(** The product [trim * df] is exact here and its floor is taken; on
    doubles the product is rounded first ([F64.trim_product]). *)
Definition _calculate_psd (data : list R) (fs : R) (nperseg : Z)
    (trim : option Z) : result Np.ndarray2 :=
  fp <- welch data fs nperseg ;;
  psd <- stack_columns (fst fp) (snd fp) ;;
  match trim with
  | None => Ok psd
  | Some trim =>
      if (nperseg =? 0)%Z then Err ZeroDivisionError
      else
        let df := fs / IZR nperseg in
        let trim_idx := Int_part (IZR trim * df) in
        Ok (slice_to trim_idx (map (slice_to trim_idx) psd))
  end.

(** The three attributes [_set_time_history] assigns: [data], [dt], [t].
    The length of [f] is positive, so that a division by zero ([f[-1]]
    is 0, or [N] is 0) makes [t] and [dt] infinite, never [nan]; the
    sampling frequency [1/dt] is then [0.0]. *)
Definition _set_time_history (psd f : list R) (rg : Generator)
    : result (list R * Np.npfloat * Np.npfloat) :=
  match rev f with
  | [] => Err IndexError
  | f_last :: _ =>
      let t := Np.div (INR (List.length f)) f_last in
      let N := ((Z.of_nat (List.length f) - 1) * 2)%Z in
      let dt := match t with
                | Np.Finite tv => Np.div tv (IZR N)
                | Np.NotFinite => Np.NotFinite
                end in
      let fs := match dt with
                | Np.Finite d => Np.div 1 d
                | Np.NotFinite => Np.Finite 0
                end in
      data <- random_gaussian N psd fs rg ;;
      Ok (data, dt, t)
  end.

Record kwargs : Type := mkKwargs {
  kw_dt : option pyval;
  kw_rg : option Generator
}.

(** [input == None or input == 'GUI']; on an array the comparison is
    elementwise and its truth value is refused unless the array has at
    most one element. *)
Definition is_default_input (input : pyval) : result bool :=
  match input with
  | PNone => Ok true
  | PStr s => Ok (String.eqb s "GUI")
  | PArray a =>
      if (List.length a <=? 1)%nat then Ok false
      else Err (ValueError "The truth value of an array with more than one element is ambiguous")
  | _ => Ok false
  end.

(** The attributes set before the coefficients are computed. *)
Definition with_coefficients (data : option (list R)) (dt t : option Np.npfloat)
    (trim_length : option (option Z)) (psd : Np.ndarray2) : result SpectralData :=
  let splitting := PTuple [PStr "equalAreaBands"; PInt 1] in
  c <- _calculate_coefficients psd splitting ;;
  Ok (mkSpectralData data dt t trim_length psd splitting
        (c_moments c) (c_nu c) (c_m_p c) (c_alpha075 c) (c_alpha1 c) (c_alpha2 c)).

(** The time-history branches: [self.data], [self.dt], [self.t],
    [self.trim_length], then [self.psd]. *)
Definition from_time_history (samples : list R) (dt_arg : pyval) (nperseg : Z)
    (psd_trim_length : option Z) : result SpectralData :=
  let dt := float_value dt_arg in
  let t := dt * INR (List.length samples) in
  if Req_dec_T dt 0 then Err ZeroDivisionError
  else
    psd <- _calculate_psd samples (1 / dt) nperseg psd_trim_length ;;
    with_coefficients (Some samples) (Some (Np.Finite dt)) (Some (Np.Finite t))
      (Some psd_trim_length) psd.

(** The branches that hold a PSD: the time history is generated only
    when the keyword [rg] is present. *)
Definition from_psd (stored : Np.ndarray2) (psd f : list R) (kw : kwargs)
    : result SpectralData :=
  match kw_rg kw with
  | Some rg =>
      h <- _set_time_history psd f rg ;;
      let '(data, dt, t) := h in
      with_coefficients (Some data) (Some dt) (Some t) None stored
  | None => with_coefficients None None None None stored
  end.

Definition __init__ (input : pyval) (nperseg : Z) (psd_trim_length : option Z)
    (kw : kwargs) : result SpectralData :=
  let input := match kw_dt kw with
               | Some d => PTuple [input; d]
               | None => input
               end in
  default <- is_default_input input ;;
  if default
  then
    psd <- Np.column 1 PSDgen_get_PSD ;;
    f <- Np.column 0 PSDgen_get_PSD ;;
    from_psd PSDgen_get_PSD psd f kw
  else
    match input with
    | PTuple [PArray a; b] =>
        if is_int_or_float b
        then from_time_history a b nperseg psd_trim_length
        else
          match b with
          | PArray f =>
              stored <- stack_columns f a ;;
              from_psd stored a f kw
          | _ => Err (Exception "Unrecognized Input Error")
          end
    | PTuple [PStr path; b] =>
        if is_int_or_float b
        then
          samples <- _readf path ;;
          from_time_history samples b nperseg psd_trim_length
        else Err (Exception "Unrecognized Input Error")
    | PTuple [_; _] => Err (Exception "Unrecognized Input Error")
    | _ => Err (Exception "Unrecognized Input Error. `input` should be tuple with 2 elements.")
    end.

End Container.

(** * Vocabulary of the statements *)

(** [r] is the first index of a minimal entry of [a]. *)
Definition first_argmin (a : list R) (r : nat) : Prop :=
  (r < List.length a)%nat /\
  (forall j, (j < List.length a)%nat -> nth r a 0 <= nth j a 0) /\
  (forall j, (j < r)%nat -> nth r a 0 < nth j a 0).

(** The index [np.abs(a - c).argmin()] selects: nearest to [c], first on ties. *)
Definition nearest_first (a : list R) (c : R) (k : nat) : Prop :=
  (k < List.length a)%nat /\
  (forall j, (j < List.length a)%nat ->
             Rabs (nth k a 0 - c) <= Rabs (nth j a 0 - c)) /\
  (forall j, (j < k)%nat -> Rabs (nth k a 0 - c) < Rabs (nth j a 0 - c)).

(** The sum of the entries at positions [0..j]: the cumulative sum in
    the words of the specification. *)
Definition prefix_sum (p : list R) (j : nat) : R := Np.sum (firstn (S j) p).

(** What [_equalAreaBands] returns at position [n]: the index nearest to
    the fraction [(n+1)/N] of the total, first on ties. *)
Definition area_boundary (p : list R) (N : Z) (n : nat) (k : nat) : Prop :=
  nearest_first (Np.cumsum p) (IZR (Z.of_nat n + 1) * Np.sum p / IZR N) k.

(** Case analysis on the sign under every absolute value. *)
Ltac split_Rabs :=
  unfold Rabs;
  repeat match goal with
         | |- context [Rcase_abs ?x] => destruct (Rcase_abs x)
         end.

(** Decides the comparisons of [argmin_from] on explicit numbers. *)
Ltac decide_Rlt :=
  match goal with
  | |- context [Rlt_dec ?x ?y] =>
      let H := fresh "H" in
      destruct (Rlt_dec x y) as [H|H];
      [ try (exfalso; revert H; split_Rabs; intros; lra)
      | try (exfalso; apply H; split_Rabs; lra) ];
      clear H
  end.

Ltac run_argmin := simpl; unfold Np.argmin_from; repeat decide_Rlt.

(** Ascending order, repeats allowed: of an array and of a sequence of
    indices; and strictly ascending order of indices. *)
Definition nondecreasing (a : list R) : Prop :=
  forall i j, (i <= j < List.length a)%nat -> nth i a 0 <= nth j a 0.

Definition indices_nondecreasing (idx : list nat) : Prop :=
  forall i j, (i <= j < List.length idx)%nat ->
              (nth i idx 0 <= nth j idx 0)%nat.

Definition indices_strictly_increasing (idx : list nat) : Prop :=
  forall i j, (i < j < List.length idx)%nat ->
              (nth i idx 0 < nth j idx 0)%nat.

(** The value [_get_spectral_moment] returns on the columns [f], [p]. *)
Definition moment (f p : list R) (i : R) : R :=
  Np.trapz (Np.mul (Np.power (Np.scale (2 * PI) f) i) p) f.

(** The trapezoidal rule in the words of the specification: over the
    samples [(f_k, S_k)], the sum of [(f_{k+1} - f_k) * (g_k + g_{k+1}) / 2]
    for the integrand [g]. *)
Fixpoint trapezoid_integral (g : R -> R -> R) (samples : list (R * R)) : R :=
  match samples with
  | (f0, s0) :: rest =>
      match rest with
      | (f1, s1) :: _ =>
          (f1 - f0) * (g f0 s0 + g f1 s1) / 2 + trapezoid_integral g rest
      | [] => 0
      end
  | [] => 0
  end.

(** The integrand [(2*pi*f)^i * S(f)]. *)
Definition moment_integrand (i : R) (f s : R) : R :=
  Np.power1 (2 * PI * f) i * s.

(** The rows [lo..hi] of a column, both ends included. *)
Definition inclusive_rows (lo hi : nat) (col : list R) : list R :=
  map (fun j => nth j col 0) (seq lo (hi + 1 - lo)).

(** First and last row of band [k] in the words of the specification. *)
Definition band_lo (bs : list nat) (k : nat) : nat :=
  match k with
  | O => 0%nat
  | S k' => nth k' bs 0%nat
  end.

Definition band_hi (bs : list nat) (k : nat) : nat := nth k bs 0%nat.

(** Adjacent entries ascend. *)
Fixpoint ascending (l : list R) : Prop :=
  match l with
  | x :: l' =>
      match l' with
      | y :: _ => x <= y /\ ascending l'
      | [] => True
      end
  | [] => True
  end.

Arguments kw_dt {Generator} k.
Arguments kw_rg {Generator} k.

(** The policy [__init__] stores in [self.PSD_splitting]. *)
Definition single_band : pyval := PTuple [PStr "equalAreaBands"; PInt 1].

(** The input after the deprecated keyword [dt] has been folded in. *)
Definition effective_input {Generator : Type} (input : pyval)
    (kw : kwargs Generator) : pyval :=
  match kw_dt kw with
  | Some d => PTuple [input; d]
  | None => input
  end.

(** A time history: samples (or the path of a file of samples) paired
    with a sampling interval. *)
Definition is_time_history (input : pyval) : bool :=
  match input with
  | PTuple [PArray _; b] => is_int_or_float b
  | PTuple [PStr _; b] => is_int_or_float b
  | _ => false
  end.

(** Inversion of a successful [bind]. *)
Tactic Notation "bind_inv" hyp(H) "as" ident(x) ident(E) :=
  match type of H with
  | bind ?c _ = Ok _ =>
      destruct c as [x|?] eqn:E; cbn [bind] in H; [|discriminate H]
  end.

(** Collaborators for closed examples: none of them is reached from a
    PSD given as arrays. *)
Definition no_welch (_ : list R) (_ : R) (_ : Z) : result (list R * list R) :=
  Err (Exception "welch").
Definition no_random_gaussian (_ : Z) (_ : list R) (_ : Np.npfloat) (_ : unit)
    : result (list R) := Err (Exception "random_gaussian").
Definition no_file (_ : string) : result (list R) := Err (Exception "open").

(** A Welch estimate of five bins at 0, 2, 4, 6, 8 Hz: sampling
    frequency 16 with segments of 8 samples. *)
Definition welch_five_bins (p0 p1 p2 p3 p4 : R) (_ : list R) (_ : R) (_ : Z)
    : result (list R * list R) :=
  Ok ([0; 2; 4; 6; 8], [p0; p1; p2; p3; p4]).

(** A Welch estimate of three bins at 0, 1, 2 Hz: sampling frequency 4
    with segments of 4 samples. *)
Definition welch_three_bins (p0 p1 p2 : R) (_ : list R) (_ : R) (_ : Z)
    : result (list R * list R) :=
  Ok ([0; 1; 2], [p0; p1; p2]).

(** Strictly ascending order of an array. *)
Definition strictly_increasing (a : list R) : Prop :=
  forall i j, (i < j < List.length a)%nat -> nth i a 0 < nth j a 0.

(** The sum over the bands of the entries in column [n] of a moment
    matrix. *)
Definition column_total (M : list (list R)) (n : nat) : R :=
  Np.sum (map (fun row => nth n row 0) M).

(** The message of the type check on a moment order or estimator index. *)
Definition order_type_error : exn :=
  TypeError "Parameter `i` must be of type int or float".

(** [isinstance(v, np.ndarray)] and [isinstance(v, str)]. *)
Definition is_array (v : pyval) : bool :=
  match v with
  | PArray _ => true
  | _ => false
  end.

Definition is_str (v : pyval) : bool :=
  match v with
  | PStr _ => true
  | _ => false
  end.

(** The inputs that reach the last [else] of [__init__]: neither
    [None] nor ['GUI'], not an array, and not a tuple of two elements. *)
Definition not_a_pair (input : pyval) : Prop :=
  match input with
  | PNone | PArray _ => False
  | PStr s => s <> "GUI"
  | PTuple l => List.length l <> 2%nat
  | _ => True
  end.

(** The pairs that none of the three input kinds accepts. *)
Definition unrecognized_pair (x b : pyval) : bool :=
  negb ((is_array x && (is_int_or_float b || is_array b))
        || (is_str x && is_int_or_float b)).

(** A generator for closed examples: [N] samples equal to zero. *)
Definition zero_signal (N : Z) (_ : list R) (_ : Np.npfloat) (_ : unit)
    : result (list R) := Ok (repeat 0 (Z.to_nat N)).

(** Doubles: the order and the equality of IEEE 754, the values that
    are numbers (not nan), and the finite ones. *)
Definition le64 (x y : float) : Prop := (x <=? y)%float = true.
Definition lt64 (x y : float) : Prop := (x <? y)%float = true.
Definition eq64 (x y : float) : Prop := (x =? y)%float = true.
Definition is_number (x : float) : Prop := is_nan x = false.
Definition finite64 (x : float) : Prop := is_finite x = true.

(** [abs(x - c)] as the splitters compute it on doubles. *)
Definition distance64 (x c : float) : float := PrimFloat.abs (x - c)%float.

(** What [np.argmin] selects among the doubles [a]: when all of them are
    numbers, the first index of a minimal one; otherwise the first index
    of a nan. *)
Definition computed_argmin (a : list float) (k : nat) : Prop :=
  (k < List.length a)%nat /\
  ((forall j, (j < List.length a)%nat -> is_number (nth j a 0%float)) ->
   (forall j, (j < List.length a)%nat -> le64 (nth k a 0%float) (nth j a 0%float)) /\
   (forall j, (j < k)%nat -> lt64 (nth k a 0%float) (nth j a 0%float))) /\
  (forall j, (j < List.length a)%nat -> ~ is_number (nth j a 0%float) ->
     (k <= j)%nat /\ ~ is_number (nth k a 0%float)).

(** What [np.abs(a - c).argmin()] selects on doubles: when every computed
    distance is a number, the first row at minimal computed distance;
    otherwise the first row whose distance is nan. *)
Definition computed_nearest (a : list float) (c : float) (k : nat) : Prop :=
  (k < List.length a)%nat /\
  ((forall j, (j < List.length a)%nat -> is_number (distance64 (nth j a 0%float) c)) ->
   (forall j, (j < List.length a)%nat ->
      le64 (distance64 (nth k a 0%float) c) (distance64 (nth j a 0%float) c)) /\
   (forall j, (j < k)%nat ->
      lt64 (distance64 (nth k a 0%float) c) (distance64 (nth j a 0%float) c))) /\
  (forall j, (j < List.length a)%nat ->
     ~ is_number (distance64 (nth j a 0%float) c) ->
     (k <= j)%nat /\ ~ is_number (distance64 (nth k a 0%float) c)).

(** The cumulative sum of doubles in the words of the specification,
    as a computation: the sum of the entries at positions [0..j], added
    in that order and rounded at each step. *)
Fixpoint running_sum (p : list float) (j : nat) : float :=
  match j with
  | O => nth 0 p 0%float
  | S j' => (running_sum p j' + nth j p 0)%float
  end.

(** Classes of the specification of a double. *)
Definition sf_nonzero (x : spec_float) : Prop :=
  match x with
  | S754_finite _ _ _ | S754_infinity _ => True
  | _ => False
  end.

Definition sf_finite (x : spec_float) : Prop :=
  match x with
  | S754_zero _ | S754_finite _ _ _ => True
  | _ => False
  end.

Definition sf_zero (x : spec_float) : Prop :=
  match x with
  | S754_zero _ => True
  | _ => False
  end.

(** Case analysis on the comparisons of exponents and mantissas. *)
Ltac sf_compare :=
  repeat match goal with
         | |- context [Pos.compare_cont Eq ?a ?b] =>
             change (Pos.compare_cont Eq a b) with (Pos.compare a b)
         | H : context [Pos.compare_cont Eq ?a ?b] |- _ =>
             change (Pos.compare_cont Eq a b) with (Pos.compare a b) in H
         end;
  repeat match goal with
         | H : context [Z.compare ?a ?b] |- _ =>
             destruct (Z.compare_spec a b); simpl in H
         | H : context [Pos.compare ?a ?b] |- _ =>
             destruct (Pos.compare_spec a b); simpl in H
         | |- context [Z.compare ?a ?b] =>
             destruct (Z.compare_spec a b); simpl
         | |- context [Pos.compare ?a ?b] =>
             destruct (Pos.compare_spec a b); simpl
         end;
  try congruence; try lia.

(** The parameters of binary64: 53 digits, exponents up to 1024. *)
Ltac binary64 :=
  unfold fexp, SpecFloat.emin, FloatOps.prec, FloatOps.emax in *.

(** * Properties *)

(** ** The error monad *)

Lemma mapM_Forall2 {A B : Type} (f : A -> result B) (P : A -> B -> Prop)
    (l : list A) :
  (forall a, In a l -> exists b, f a = Ok b /\ P a b) ->
  exists bs, mapM f l = Ok bs /\ Forall2 P l bs.
Proof.
  induction l as [|a l IH]; intros H.
  - exists []. split; [reflexivity | constructor].
  - destruct (H a (or_introl eq_refl)) as [b [Hb Pb]].
    destruct IH as [bs [Hbs Pbs]].
    { intros x Hx. apply H. right. exact Hx. }
    exists (b :: bs). simpl. rewrite Hb. simpl. rewrite Hbs. simpl.
    split; [reflexivity | constructor; assumption].
Qed.

Lemma Forall2_nth_pair {A B : Type} (P : A -> B -> Prop) (l : list A)
    (bs : list B) (da : A) (db : B) :
  Forall2 P l bs ->
  forall n, (n < List.length l)%nat -> P (nth n l da) (nth n bs db).
Proof.
  induction 1 as [|a b l bs Hab _ IH]; intros n Hn; simpl in Hn.
  - lia.
  - destruct n as [|n]; simpl; [exact Hab | apply IH; lia].
Qed.

Lemma mapM_length {A B : Type} (f : A -> result B) (l : list A) (bs : list B) :
  mapM f l = Ok bs -> List.length bs = List.length l.
Proof.
  revert bs. induction l as [|a l IH]; intros bs H; simpl in H.
  - injection H as <-. reflexivity.
  - destruct (f a) as [b|e]; simpl in H; [|discriminate].
    destruct (mapM f l) as [bs'|e]; simpl in H; [|discriminate].
    injection H as <-. simpl. f_equal. apply IH. reflexivity.
Qed.

(** ** [np.argmin] returns the first index of a minimal element *)

Lemma argmin_from_first (a pre : list R) (bi : nat) (b : R) :
  (bi < List.length pre)%nat ->
  nth bi pre 0 = b ->
  (forall j, (j < List.length pre)%nat -> b <= nth j pre 0) ->
  (forall j, (j < bi)%nat -> b < nth j pre 0) ->
  first_argmin (pre ++ a) (Np.argmin_from bi b (List.length pre) a).
Proof.
  revert pre bi b.
  induction a as [|x a IH]; intros pre bi b Hbi Hb Hmin Hfirst.
  - simpl. rewrite app_nil_r. unfold first_argmin. rewrite Hb. auto.
  - simpl.
    replace (pre ++ x :: a) with ((pre ++ [x]) ++ a)
      by (rewrite <- app_assoc; reflexivity).
    replace (S (List.length pre)) with (List.length (pre ++ [x]))
      by (rewrite length_app; simpl; lia).
    assert (Hx : nth (List.length pre) (pre ++ [x]) 0 = x).
    { rewrite app_nth2 by lia. rewrite Nat.sub_diag. reflexivity. }
    assert (Hold : forall j, (j < List.length pre)%nat ->
                   nth j (pre ++ [x]) 0 = nth j pre 0).
    { intros j Hj. apply app_nth1. exact Hj. }
    destruct (Rlt_dec x b) as [Hlt|Hge].
    + apply IH.
      * rewrite length_app. simpl. lia.
      * exact Hx.
      * intros j Hj. rewrite length_app in Hj. simpl in Hj.
        destruct (Nat.eq_dec j (List.length pre)) as [->|Hne].
        -- rewrite Hx. lra.
        -- rewrite Hold by lia. specialize (Hmin j ltac:(lia)). lra.
      * intros j Hj. rewrite Hold by lia. specialize (Hmin j ltac:(lia)). lra.
    + apply IH.
      * rewrite length_app. simpl. lia.
      * rewrite Hold by lia. exact Hb.
      * intros j Hj. rewrite length_app in Hj. simpl in Hj.
        destruct (Nat.eq_dec j (List.length pre)) as [->|Hne].
        -- rewrite Hx. lra.
        -- rewrite Hold by lia. apply Hmin. lia.
      * intros j Hj. rewrite Hold by lia. apply Hfirst. exact Hj.
Qed.

Lemma argmin_first (a : list R) :
  a <> [] -> exists r, Np.argmin a = Ok r /\ first_argmin a r.
Proof.
  destruct a as [|x a]; [congruence|]. intros _.
  exists (Np.argmin_from 0 x 1 a). split; [reflexivity|].
  apply (argmin_from_first a [x] 0%nat x).
  - simpl. lia.
  - reflexivity.
  - intros j Hj. simpl in Hj. replace j with 0%nat by lia. simpl. lra.
  - intros j Hj. lia.
Qed.

Lemma first_argmin_unique (a : list R) (r r' : nat) :
  first_argmin a r -> first_argmin a r' -> r = r'.
Proof.
  intros [Hr [Hmin Hfst]] [Hr' [Hmin' Hfst']].
  destruct (Nat.lt_trichotomy r r') as [Hlt|[Heq|Hgt]]; [|exact Heq|].
  - specialize (Hfst' r Hlt). specialize (Hmin r' Hr'). lra.
  - specialize (Hfst r' Hgt). specialize (Hmin' r Hr). lra.
Qed.

(** [np.abs(a - c)] entry by entry *)
Lemma nth_abs_sub (a : list R) (c : R) (j : nat) :
  (j < List.length a)%nat ->
  nth j (Np.abs (Np.sub_scalar a c)) 0 = Rabs (nth j a 0 - c).
Proof.
  intros Hj. unfold Np.abs, Np.sub_scalar. rewrite map_map.
  rewrite (nth_indep _ 0 (Rabs (0 - c))) by (rewrite length_map; exact Hj).
  apply (map_nth (fun x => Rabs (x - c))).
Qed.

Lemma length_abs_sub (a : list R) (c : R) :
  List.length (Np.abs (Np.sub_scalar a c)) = List.length a.
Proof. unfold Np.abs, Np.sub_scalar. rewrite !length_map. reflexivity. Qed.

Lemma argmin_nearest (a : list R) (c : R) :
  a <> [] ->
  exists k, Np.argmin (Np.abs (Np.sub_scalar a c)) = Ok k /\ nearest_first a c k.
Proof.
  intros Ha.
  destruct (argmin_first (Np.abs (Np.sub_scalar a c))) as [k [Hk [Hlt [Hmin Hfst]]]].
  - destruct a; [congruence | discriminate].
  - rewrite length_abs_sub in Hlt, Hmin.
    exists k. split; [exact Hk|]. split; [exact Hlt|]. split.
    + intros j Hj. rewrite <- !nth_abs_sub by assumption. apply Hmin. exact Hj.
    + intros j Hj. rewrite <- !nth_abs_sub by lia. apply Hfst. exact Hj.
Qed.

Lemma nearest_first_unique (a : list R) (c : R) (k k' : nat) :
  nearest_first a c k -> nearest_first a c k' -> k = k'.
Proof.
  intros [Hr [Hmin Hfst]] [Hr' [Hmin' Hfst']].
  destruct (Nat.lt_trichotomy k k') as [Hlt|[Heq|Hgt]]; [|exact Heq|].
  - specialize (Hfst' k Hlt). specialize (Hmin k' Hr'). lra.
  - specialize (Hfst k' Hgt). specialize (Hmin' k Hr). lra.
Qed.

(** ** Cumulative sums *)

Lemma nth_cumsum_from (a : list R) (acc : R) (j : nat) :
  (j < List.length a)%nat ->
  nth j (Np.cumsum_from acc a) 0 = acc + prefix_sum a j.
Proof.
  revert acc j. induction a as [|x a IH]; intros acc j Hj; simpl in Hj; [lia|].
  destruct j as [|j].
  - unfold prefix_sum. simpl. lra.
  - simpl. rewrite IH by lia. unfold prefix_sum. simpl. lra.
Qed.

Lemma nth_cumsum (a : list R) (j : nat) :
  (j < List.length a)%nat -> nth j (Np.cumsum a) 0 = prefix_sum a j.
Proof.
  intros Hj. unfold Np.cumsum. rewrite nth_cumsum_from by exact Hj. lra.
Qed.

Lemma length_cumsum_from (a : list R) (acc : R) :
  List.length (Np.cumsum_from acc a) = List.length a.
Proof.
  revert acc. induction a as [|x a IH]; intros acc; simpl; [reflexivity|].
  rewrite IH. reflexivity.
Qed.

Lemma length_cumsum (a : list R) : List.length (Np.cumsum a) = List.length a.
Proof. apply length_cumsum_from. Qed.

Lemma prefix_sum_last (p : list R) :
  p <> [] -> prefix_sum p (List.length p - 1) = Np.sum p.
Proof.
  intros Hp. unfold prefix_sum.
  destruct p as [|x p]; [congruence|].
  replace (S (List.length (x :: p) - 1)) with (List.length (x :: p))
    by (simpl; lia).
  rewrite firstn_all. reflexivity.
Qed.

Lemma prefix_sum_step (p : list R) (j : nat) :
  (S j < List.length p)%nat ->
  prefix_sum p (S j) = prefix_sum p j + nth (S j) p 0.
Proof.
  unfold prefix_sum. revert j.
  induction p as [|x p IH]; intros j Hj; simpl in Hj; [lia|].
  destruct j as [|j].
  - destruct p as [|y p]; simpl in *; [lia | lra].
  - change (firstn (S (S (S j))) (x :: p)) with (x :: firstn (S (S j)) p).
    change (firstn (S (S j)) (x :: p)) with (x :: firstn (S j) p).
    change (nth (S (S j)) (x :: p) 0) with (nth (S j) p 0).
    change (Np.sum (x :: firstn (S (S j)) p))
      with (x + Np.sum (firstn (S (S j)) p)).
    change (Np.sum (x :: firstn (S j) p)) with (x + Np.sum (firstn (S j) p)).
    rewrite IH by lia. lra.
Qed.

(** ** The equal-area splitter *)

Lemma range_length (N : Z) : List.length (range N) = Z.to_nat N.
Proof. unfold range. rewrite length_map, length_seq. reflexivity. Qed.

Lemma range_nth (N : Z) (n : nat) :
  (n < Z.to_nat N)%nat -> nth n (range N) 0%Z = Z.of_nat n.
Proof.
  intros Hn. unfold range.
  change 0%Z with (Z.of_nat 0). rewrite map_nth.
  rewrite seq_nth by exact Hn. reflexivity.
Qed.

Lemma equalAreaBands_run (f p : list R) (N : Z) :
  p <> [] ->
  exists idx,
    _equalAreaBands [f; p] (PInt N) = Ok idx /\
    List.length idx = Z.to_nat N /\
    forall n, (n < Z.to_nat N)%nat -> area_boundary p N n (nth n idx 0%nat).
Proof.
  intros Hp. unfold _equalAreaBands. simpl.
  destruct (mapM_Forall2
              (fun n => Np.argmin (Np.abs (Np.sub_scalar (Np.cumsum p)
                           (IZR (n + 1) * Np.sum p / IZR N))))
              (fun n k => nearest_first (Np.cumsum p)
                            (IZR (n + 1) * Np.sum p / IZR N) k)
              (range N)) as [idx [Hrun Hall]].
  - intros n _. apply argmin_nearest.
    destruct p; [congruence | discriminate].
  - exists idx. split; [exact Hrun|]. split.
    + rewrite (mapM_length _ _ _ Hrun). apply range_length.
    + intros n Hn. unfold area_boundary.
      rewrite <- (range_nth N n Hn).
      apply (Forall2_nth_pair _ _ _ 0%Z 0%nat Hall).
      rewrite range_length. exact Hn.
Qed.

(** X18.  In exact arithmetic.  For a stored PSD with at least one row
    and a positive integer [N], the equal-area splitter returns [N]
    indices computed from the magnitude column alone (any frequency
    column gives the same result); the index at position [n-1], for [n]
    in [1..N], is a row whose exact cumulative sum of magnitudes is
    nearest in absolute difference to the exact fraction [n/N] of the
    total sum, and every earlier row is strictly farther: ties go to the
    first minimal index. *)
Theorem equalAreaBands_nearest_area_fraction (f p : list R) (N : Z) :
  p <> [] -> (0 < N)%Z ->
  exists idx,
    _equalAreaBands [f; p] (PInt N) = Ok idx /\
    (forall f', _equalAreaBands [f'; p] (PInt N) = Ok idx) /\
    List.length idx = Z.to_nat N /\
    forall n, (1 <= n <= Z.to_nat N)%nat ->
      let target := INR n / IZR N * Np.sum p in
      let k := nth (n - 1) idx 0%nat in
      (k < List.length p)%nat /\
      (forall j, (j < List.length p)%nat ->
         Rabs (prefix_sum p k - target) <= Rabs (prefix_sum p j - target)) /\
      (forall j, (j < k)%nat ->
         Rabs (prefix_sum p k - target) < Rabs (prefix_sum p j - target)).
Proof.
  intros Hp HN.
  destruct (equalAreaBands_run f p N Hp) as [idx [Hrun [Hlen Hall]]].
  exists idx. split; [exact Hrun|]. split; [intros f'; exact Hrun|].
  split; [exact Hlen|].
  intros n Hn target k.
  destruct (Hall (n - 1)%nat ltac:(lia)) as [Hk [Hmin Hfst]].
  fold k in Hk, Hmin, Hfst.
  rewrite length_cumsum in Hk, Hmin.
  assert (Ht : IZR (Z.of_nat (n - 1) + 1) * Np.sum p / IZR N = target).
  { unfold target. rewrite INR_IZR_INZ.
    replace (Z.of_nat (n - 1) + 1)%Z with (Z.of_nat n) by lia.
    field. apply not_0_IZR. lia. }
  rewrite Ht in Hmin, Hfst.
  split; [exact Hk|]. split.
  - intros j Hj. rewrite <- !nth_cumsum by assumption. apply Hmin. exact Hj.
  - intros j Hj. rewrite <- !nth_cumsum by lia. apply Hfst. exact Hj.
Qed.

(** A run of X18's theorem on the flat PSD over [0, 1, 2, 3, 4]. *)
Lemma equalAreaBands_nearest_area_fraction_witness :
  [1; 1; 1; 1; 1] <> [] /\ (0 < 2)%Z /\
  exists idx,
    _equalAreaBands [[0; 1; 2; 3; 4]; [1; 1; 1; 1; 1]] (PInt 2) = Ok idx /\
    List.length idx = 2%nat.
Proof.
  split; [discriminate|]. split; [lia|].
  destruct (equalAreaBands_nearest_area_fraction
              [0; 1; 2; 3; 4] [1; 1; 1; 1; 1] 2 ltac:(discriminate) ltac:(lia))
    as [idx [Hrun [_ [Hlen _]]]].
  exists idx. split; [exact Hrun | exact Hlen].
Defined.

(** ** The user-defined splitter *)

Lemma userDefinedBands_run (f p : list R) (targets : list pyval) (freq_list : pyval) :
  f <> [] ->
  freq_list = PList targets \/ freq_list = PTuple targets ->
  forallb is_int_or_float targets = true ->
  exists idx,
    _userDefinedBands [f; p] freq_list = Ok idx /\
    List.length idx = List.length targets /\
    forall n, (n < List.length targets)%nat ->
      nearest_first f (float_value (nth n targets PNone)) (nth n idx 0%nat).
Proof.
  intros Hf Hshape Hnum.
  destruct (mapM_Forall2
              (fun freq => Np.argmin (Np.abs (Np.sub_scalar f (float_value freq))))
              (fun freq k => nearest_first f (float_value freq) k)
              targets) as [idx [Hrun Hall]].
  - intros a _. apply argmin_nearest. exact Hf.
  - exists idx. split.
    + destruct Hshape as [-> | ->]; unfold _userDefinedBands;
        rewrite Hnum; simpl; exact Hrun.
    + split; [apply (mapM_length _ _ _ Hrun)|].
      intros n Hn. apply (Forall2_nth_pair _ _ _ PNone 0%nat Hall). exact Hn.
Qed.

(** X19.  In exact arithmetic.  For a stored PSD with at least one row
    and a list (or tuple) of numeric targets, the user-defined splitter
    returns one index per target, in the order supplied; each is a row
    whose frequency is nearest to its target in exact absolute
    difference (the first such row).  When a target equals the frequency
    of row [j] and the frequencies are pairwise distinct, the index
    returned for it is [j]. *)
Theorem userDefinedBands_nearest_frequency (f p : list R) (targets : list pyval)
    (freq_list : pyval) :
  f <> [] ->
  freq_list = PList targets \/ freq_list = PTuple targets ->
  forallb is_int_or_float targets = true ->
  exists idx,
    _userDefinedBands [f; p] freq_list = Ok idx /\
    List.length idx = List.length targets /\
    forall n, (n < List.length targets)%nat ->
      let target := float_value (nth n targets PNone) in
      let k := nth n idx 0%nat in
      (k < List.length f)%nat /\
      (forall j, (j < List.length f)%nat ->
         Rabs (nth k f 0 - target) <= Rabs (nth j f 0 - target)) /\
      (forall j, (j < k)%nat ->
         Rabs (nth k f 0 - target) < Rabs (nth j f 0 - target)) /\
      (forall j, (j < List.length f)%nat -> NoDup f ->
         nth j f 0 = target -> k = j).
Proof.
  intros Hf Hshape Hnum.
  destruct (userDefinedBands_run f p targets freq_list Hf Hshape Hnum)
    as [idx [Hrun [Hlen Hall]]].
  exists idx. split; [exact Hrun|]. split; [exact Hlen|].
  intros n Hn target k.
  destruct (Hall n Hn) as [Hk [Hmin Hfst]]. fold target k in Hk, Hmin, Hfst.
  repeat split; try assumption.
  intros j Hj Hnd Hjt.
  specialize (Hmin j Hj). rewrite Hjt in Hmin.
  replace (target - target) with 0 in Hmin by lra. rewrite Rabs_R0 in Hmin.
  assert (Hz : nth k f 0 - target = 0).
  { destruct (Req_dec (nth k f 0 - target) 0) as [E|E]; [exact E|].
    apply Rabs_pos_lt in E. lra. }
  apply (proj1 (NoDup_nth f 0) Hnd k j Hk Hj). lra.
Qed.

(** The scenario of the specification: on the frequencies [0..4] the
    target [2] selects row 2. *)
Example userDefinedBands_flat :
  _userDefinedBands [[0; 1; 2; 3; 4]; [1; 1; 1; 1; 1]] (PList [PInt 2])
  = Ok [2%nat].
Proof. unfold _userDefinedBands. run_argmin. reflexivity. Qed.

Example equalAreaBands_flat :
  _equalAreaBands [[0; 1; 2; 3; 4]; [1; 1; 1; 1; 1]] (PInt 2) = Ok [1; 4]%nat.
Proof. unfold _equalAreaBands. run_argmin. reflexivity. Qed.

(** A run of X19's theorem on targets that are sample frequencies. *)
Lemma userDefinedBands_nearest_frequency_witness :
  exists idx,
    _userDefinedBands [[0; 1; 2; 3; 4]; [1; 1; 1; 1; 1]] (PList [PInt 2; PFloat 4])
    = Ok idx /\ nth 0 idx 0%nat = 2%nat /\ nth 1 idx 0%nat = 4%nat.
Proof.
  destruct (userDefinedBands_nearest_frequency
              [0; 1; 2; 3; 4] [1; 1; 1; 1; 1] [PInt 2; PFloat 4]
              (PList [PInt 2; PFloat 4])
              ltac:(discriminate) (or_introl eq_refl) eq_refl)
    as [idx [Hrun [Hlen Hall]]].
  assert (Hnd : NoDup [0; 1; 2; 3; 4]).
  { repeat constructor; simpl; intros H;
      repeat (destruct H as [H|H]; [lra|]); exact H. }
  exists idx. split; [exact Hrun|]. split.
  - destruct (Hall 0%nat ltac:(simpl; lia)) as [_ [_ [_ Hex]]].
    apply (Hex 2%nat ltac:(simpl; lia) Hnd). reflexivity.
  - destruct (Hall 1%nat ltac:(simpl; lia)) as [_ [_ [_ Hex]]].
    apply (Hex 4%nat ltac:(simpl; lia) Hnd). reflexivity.
Defined.

(** ** The order of doubles

    On the doubles that are numbers the comparison of IEEE 754 is a
    total preorder; it is read off the specification of a double (sign,
    mantissa, exponent). *)

Lemma SFcompare_refl (x : spec_float) :
  x <> S754_nan -> SFcompare x x = Some Eq.
Proof.
  destruct x as [s|s| |s m e]; intros H; try congruence; destruct s; simpl;
    try reflexivity; rewrite Z.compare_refl;
    change (Pos.compare_cont Eq m m) with (Pos.compare m m);
    rewrite Pos.compare_refl; reflexivity.
Qed.

Lemma SFleb_trans (x y z : spec_float) :
  SFleb x y = true -> SFleb y z = true -> SFleb x z = true.
Proof.
  unfold SFleb.
  destruct x as [sx|sx| |sx mx ex]; destruct y as [sy|sy| |sy my ey];
    destruct z as [sz|sz| |sz mz ez]; simpl; try discriminate;
    try destruct sx; try destruct sy; try destruct sz; simpl;
    try discriminate; try reflexivity; intros H1 H2; sf_compare.
Qed.

Lemma SFltb_leb_trans (x y z : spec_float) :
  SFltb x y = true -> SFleb y z = true -> SFltb x z = true.
Proof.
  unfold SFleb, SFltb.
  destruct x as [sx|sx| |sx mx ex]; destruct y as [sy|sy| |sy my ey];
    destruct z as [sz|sz| |sz mz ez]; simpl; try discriminate;
    try destruct sx; try destruct sy; try destruct sz; simpl;
    try discriminate; try reflexivity; intros H1 H2; sf_compare.
Qed.

Lemma SFleb_total (x y : spec_float) :
  x <> S754_nan -> y <> S754_nan -> SFleb x y = false -> SFltb y x = true.
Proof.
  unfold SFleb, SFltb.
  destruct x as [sx|sx| |sx mx ex]; destruct y as [sy|sy| |sy my ey];
    simpl; try congruence;
    try destruct sx; try destruct sy; simpl;
    try discriminate; try reflexivity; intros _ _ H1; sf_compare.
Qed.

Lemma SFltb_leb (x y : spec_float) : SFltb x y = true -> SFleb x y = true.
Proof.
  unfold SFleb, SFltb. destruct (SFcompare x y) as [[| |]|]; congruence.
Qed.

(** The same on the doubles themselves. *)

Lemma is_number_spec (x : float) : is_number x <-> Prim2SF x <> S754_nan.
Proof.
  unfold is_number, is_nan. rewrite FloatAxioms.eqb_spec. split.
  - intros H E. rewrite E in H. discriminate H.
  - intros H. unfold SFeqb. rewrite SFcompare_refl by exact H. reflexivity.
Qed.

Lemma le64_trans (x y z : float) : le64 x y -> le64 y z -> le64 x z.
Proof. unfold le64. rewrite !FloatAxioms.leb_spec. apply SFleb_trans. Qed.

Lemma lt64_le64_trans (x y z : float) : lt64 x y -> le64 y z -> lt64 x z.
Proof.
  unfold le64, lt64. rewrite !FloatAxioms.leb_spec, !FloatAxioms.ltb_spec.
  apply SFltb_leb_trans.
Qed.

Lemma lt64_le64 (x y : float) : lt64 x y -> le64 x y.
Proof.
  unfold le64, lt64. rewrite FloatAxioms.leb_spec, FloatAxioms.ltb_spec.
  apply SFltb_leb.
Qed.

Lemma le64_refl (x : float) : is_number x -> le64 x x.
Proof.
  intros H. apply is_number_spec in H. unfold le64. rewrite FloatAxioms.leb_spec.
  unfold SFleb. rewrite SFcompare_refl by exact H. reflexivity.
Qed.

Lemma not_le64_lt64 (x y : float) :
  is_number x -> is_number y -> (x <=? y)%float = false -> lt64 y x.
Proof.
  intros Hx Hy. apply is_number_spec in Hx, Hy. unfold lt64.
  rewrite FloatAxioms.leb_spec, FloatAxioms.ltb_spec.
  apply SFleb_total; assumption.
Qed.

(** ** [np.argmin] on doubles

    The scan returns the first index of a minimal entry when all
    entries are numbers, and the first index of a nan otherwise. *)

Lemma argmin_from_computed (a pre : list float) (bi : nat) (mp : float) :
  (bi < List.length pre)%nat ->
  nth bi pre 0%float = mp ->
  (forall j, (j < List.length pre)%nat -> is_number (nth j pre 0%float)) ->
  (forall j, (j < List.length pre)%nat -> le64 mp (nth j pre 0%float)) ->
  (forall j, (j < bi)%nat -> lt64 mp (nth j pre 0%float)) ->
  computed_argmin (pre ++ a) (F64.argmin_from bi mp (List.length pre) a).
Proof.
  revert pre bi mp.
  induction a as [|x a IH]; intros pre bi mp Hbi Hmp Hnum Hmin Hfirst.
  - simpl. rewrite app_nil_r. unfold computed_argmin. rewrite Hmp.
    split; [exact Hbi|]. split; [auto|].
    intros j Hj Hnan. exfalso. apply Hnan, Hnum, Hj.
  - simpl.
    assert (Hx : nth (List.length pre) (pre ++ x :: a) 0%float = x).
    { rewrite app_nth2 by lia. rewrite Nat.sub_diag. reflexivity. }
    assert (Hold : forall j, (j < List.length pre)%nat ->
                   nth j (pre ++ x :: a) 0%float = nth j pre 0%float).
    { intros j Hj. apply app_nth1. exact Hj. }
    assert (Hmpn : is_number mp).
    { rewrite <- Hmp. apply Hnum. exact Hbi. }
    destruct (mp <=? x)%float eqn:Hle.
    + replace (pre ++ x :: a) with ((pre ++ [x]) ++ a)
        by (rewrite <- app_assoc; reflexivity).
      replace (S (List.length pre)) with (List.length (pre ++ [x]))
        by (rewrite length_app; simpl; lia).
      assert (Hx' : nth (List.length pre) (pre ++ [x]) 0%float = x).
      { rewrite app_nth2 by lia. rewrite Nat.sub_diag. reflexivity. }
      assert (Hold' : forall j, (j < List.length pre)%nat ->
                      nth j (pre ++ [x]) 0%float = nth j pre 0%float).
      { intros j Hj. apply app_nth1. exact Hj. }
      assert (Hxn : is_number x).
      { apply is_number_spec. intros E. rewrite FloatAxioms.leb_spec, E in Hle.
        destruct (Prim2SF mp); discriminate Hle. }
      apply IH.
      * rewrite length_app. simpl. lia.
      * rewrite Hold' by lia. exact Hmp.
      * intros j Hj. rewrite length_app in Hj. simpl in Hj.
        destruct (Nat.eq_dec j (List.length pre)) as [->|Hne].
        -- rewrite Hx'. exact Hxn.
        -- rewrite Hold' by lia. apply Hnum. lia.
      * intros j Hj. rewrite length_app in Hj. simpl in Hj.
        destruct (Nat.eq_dec j (List.length pre)) as [->|Hne].
        -- rewrite Hx'. exact Hle.
        -- rewrite Hold' by lia. apply Hmin. lia.
      * intros j Hj. rewrite Hold' by lia. apply Hfirst. exact Hj.
    + destruct (is_nan x) eqn:Hnan.
      * (* the scan stops at the first nan *)
        split; [rewrite length_app; simpl; lia|]. split.
        -- intros Hall. exfalso.
           specialize (Hall (List.length pre) ltac:(rewrite length_app; simpl; lia)).
           rewrite Hx in Hall. unfold is_number in Hall. congruence.
        -- intros j Hj Hjn. split.
           ++ destruct (le_lt_dec (List.length pre) j) as [Hge|Hlt]; [exact Hge|].
              exfalso. apply Hjn. rewrite Hold by exact Hlt. apply Hnum. exact Hlt.
           ++ rewrite Hx. unfold is_number. congruence.
      * replace (pre ++ x :: a) with ((pre ++ [x]) ++ a)
          by (rewrite <- app_assoc; reflexivity).
        replace (S (List.length pre)) with (List.length (pre ++ [x]))
          by (rewrite length_app; simpl; lia).
        assert (Hx' : nth (List.length pre) (pre ++ [x]) 0%float = x).
        { rewrite app_nth2 by lia. rewrite Nat.sub_diag. reflexivity. }
        assert (Hold' : forall j, (j < List.length pre)%nat ->
                        nth j (pre ++ [x]) 0%float = nth j pre 0%float).
        { intros j Hj. apply app_nth1. exact Hj. }
        assert (Hlt : lt64 x mp) by (apply not_le64_lt64; assumption).
        apply IH.
        -- rewrite length_app. simpl. lia.
        -- exact Hx'.
        -- intros j Hj. rewrite length_app in Hj. simpl in Hj.
           destruct (Nat.eq_dec j (List.length pre)) as [->|Hne].
           ++ rewrite Hx'. exact Hnan.
           ++ rewrite Hold' by lia. apply Hnum. lia.
        -- intros j Hj. rewrite length_app in Hj. simpl in Hj.
           destruct (Nat.eq_dec j (List.length pre)) as [->|Hne].
           ++ rewrite Hx'. apply le64_refl. exact Hnan.
           ++ rewrite Hold' by lia. apply lt64_le64.
              apply (lt64_le64_trans x mp); [exact Hlt | apply Hmin; lia].
        -- intros j Hj. rewrite Hold' by lia.
           apply (lt64_le64_trans x mp); [exact Hlt | apply Hmin; lia].
Qed.

Lemma argmin_computed (a : list float) :
  a <> [] -> exists k, F64.argmin a = Ok k /\ computed_argmin a k.
Proof.
  destruct a as [|x a]; [congruence|]. intros _.
  unfold F64.argmin. destruct (is_nan x) eqn:Hnan.
  - exists 0%nat. split; [reflexivity|].
    split; [simpl; lia|]. split.
    + intros Hall. specialize (Hall 0%nat ltac:(simpl; lia)). simpl in Hall.
      unfold is_number in Hall. congruence.
    + intros j _ _. split; [lia|]. simpl. unfold is_number. congruence.
  - exists (F64.argmin_from 0 x 1 a). split; [reflexivity|].
    apply (argmin_from_computed a [x] 0%nat x).
    + simpl. lia.
    + reflexivity.
    + intros j Hj. simpl in Hj. replace j with 0%nat by lia. exact Hnan.
    + intros j Hj. simpl in Hj. replace j with 0%nat by lia. simpl.
      apply le64_refl. exact Hnan.
    + intros j Hj. lia.
Qed.

(** ** Rounding to a double

    Rounding an integer mantissa [m] at an exponent [e] of the format
    (IEEE 754, to nearest, ties to even) never yields zero, and yields a
    finite double when [m * 2^e] is below [2^1023]. *)

Lemma digits2_pos_bounds (m : positive) :
  (2 ^ (Z.pos (digits2_pos m) - 1) <= Z.pos m < 2 ^ Z.pos (digits2_pos m))%Z.
Proof.
  induction m as [m IH|m IH|]; simpl digits2_pos.
  - rewrite Pos2Z.inj_succ.
    replace (Z.succ (Z.pos (digits2_pos m)) - 1)%Z
      with (Z.succ (Z.pos (digits2_pos m) - 1)) by lia.
    rewrite !Z.pow_succ_r by lia. lia.
  - rewrite Pos2Z.inj_succ.
    replace (Z.succ (Z.pos (digits2_pos m)) - 1)%Z
      with (Z.succ (Z.pos (digits2_pos m) - 1)) by lia.
    rewrite !Z.pow_succ_r by lia. lia.
  - simpl. lia.
Qed.

Lemma iter_xO (m d : positive) :
  Z.pos (Pos.iter xO m d) = (Z.pos m * 2 ^ Z.pos d)%Z.
Proof.
  revert m. induction d as [|d IH] using Pos.peano_ind; intros m.
  - simpl. lia.
  - rewrite Pos.iter_succ, Pos2Z.inj_succ, Z.pow_succ_r by lia.
    rewrite Pos2Z.inj_xO, IH. lia.
Qed.

Lemma shl_align_fst (m : positive) (e e' : Z) :
  (e' <= e)%Z ->
  Z.pos (fst (shl_align m e e')) = (Z.pos m * 2 ^ (e - e'))%Z.
Proof.
  intros H. unfold shl_align.
  destruct (e' - e)%Z as [|d|d] eqn:E; simpl fst.
  - replace (e - e')%Z with 0%Z by lia. simpl. lia.
  - lia.
  - rewrite iter_xO. f_equal. f_equal. lia.
Qed.

Lemma shr_1_m (r : shr_record) :
  (0 <= shr_m r)%Z -> shr_m (shr_1 r) = (shr_m r / 2)%Z.
Proof.
  destruct r as [m r s]. cbn [shr_m]. intros H.
  destruct m as [|[p|p|]|p]; cbn [shr_1 shr_m]; try lia; try reflexivity.
  - apply (Z.div_unique _ _ _ 1); lia.
  - apply (Z.div_unique _ _ _ 0); lia.
Qed.

Lemma iter_shr_1_m (p : positive) (r : shr_record) :
  (0 <= shr_m r)%Z ->
  shr_m (SpecFloat.iter_pos shr_1 p r) = (shr_m r / 2 ^ Z.pos p)%Z.
Proof.
  revert r. induction p as [p IH|p IH|]; intros r Hr; simpl SpecFloat.iter_pos.
  - assert (H1 : (0 <= shr_m (shr_1 r))%Z).
    { rewrite shr_1_m by exact Hr. apply Z.div_pos; lia. }
    assert (H2 : (0 <= shr_m (SpecFloat.iter_pos shr_1 p (shr_1 r)))%Z).
    { rewrite IH by exact H1. apply Z.div_pos; [exact H1|]. apply Z.pow_pos_nonneg; lia. }
    rewrite IH by exact H2. rewrite IH by exact H1. rewrite shr_1_m by exact Hr.
    rewrite !Z.div_div
      by first [apply Z.pow_pos_nonneg; lia | apply Z.pow_nonzero; lia | lia].
    assert (E : (2 ^ Z.pos p~1 = 2 * (2 ^ Z.pos p * 2 ^ Z.pos p))%Z).
    { rewrite Pos2Z.inj_xI.
      replace (2 * Z.pos p + 1)%Z with (1 + (Z.pos p + Z.pos p))%Z by lia.
      rewrite !Z.pow_add_r by lia. reflexivity. }
    rewrite E. reflexivity.
  - assert (H2 : (0 <= shr_m (SpecFloat.iter_pos shr_1 p r))%Z).
    { rewrite IH by exact Hr. apply Z.div_pos; [exact Hr|]. apply Z.pow_pos_nonneg; lia. }
    rewrite IH by exact H2. rewrite IH by exact Hr.
    rewrite !Z.div_div
      by first [apply Z.pow_pos_nonneg; lia | apply Z.pow_nonzero; lia | lia].
    assert (E : (2 ^ Z.pos p~0 = 2 ^ Z.pos p * 2 ^ Z.pos p)%Z).
    { replace (Z.pos p~0) with (Z.pos p + Z.pos p)%Z by lia.
      apply Z.pow_add_r; lia. }
    rewrite E. reflexivity.
  - rewrite shr_1_m by exact Hr. reflexivity.
Qed.

Lemma shr_record_of_loc_m (m : Z) (l : location) :
  shr_m (shr_record_of_loc m l) = m.
Proof. destruct l as [|[| |]]; reflexivity. Qed.

Lemma digits2_pos_upper (m : positive) (k : Z) :
  (0 <= k)%Z -> (Z.pos m < 2 ^ k)%Z -> (Z.pos (digits2_pos m) <= k)%Z.
Proof.
  intros Hk Hm. pose proof (digits2_pos_bounds m) as [Hlo _].
  destruct (Z_le_gt_dec (Z.pos (digits2_pos m)) k) as [H|H]; [exact H|exfalso].
  assert (2 ^ k <= 2 ^ (Z.pos (digits2_pos m) - 1))%Z
    by (apply Z.pow_le_mono_r; lia).
  lia.
Qed.

Lemma digits2_pos_iter_xO (m d : positive) :
  Z.pos (digits2_pos (Pos.iter xO m d)) = (Z.pos (digits2_pos m) + Z.pos d)%Z.
Proof.
  induction d as [|d IH] using Pos.peano_ind.
  - simpl. lia.
  - rewrite Pos.iter_succ. simpl digits2_pos. lia.
Qed.

(** Rounding a positive mantissa at an exponent of the format leaves a
    positive mantissa, at the exponent the format prescribes, and adds
    nothing to the magnitude. *)
Lemma shr_fexp_positive (m : positive) (e : Z) (l : location) :
  (emin <= e)%Z ->
  exists m', shr_m (fst (shr_fexp prec emax (Z.pos m) e l)) = Z.pos m' /\
             (emin <= snd (shr_fexp prec emax (Z.pos m) e l))%Z /\
             snd (shr_fexp prec emax (Z.pos m) e l)
             = Z.max e (fexp prec emax (Z.pos (digits2_pos m) + e)) /\
             (Z.pos (digits2_pos m') + snd (shr_fexp prec emax (Z.pos m) e l)
              <= Z.pos (digits2_pos m) + e)%Z.
Proof.
  intros He. unfold shr_fexp, shr.
  pose proof (digits2_pos_bounds m) as [Hlo Hhi].
  set (d := Z.pos (digits2_pos m)) in *.
  change (Zdigits2 (Z.pos m)) with d.
  assert (Hd : (1 <= d)%Z) by (unfold d; lia).
  assert (Hn : (fexp prec emax (d + e) - e < d)%Z).
  { binary64. lia. }
  destruct (fexp prec emax (d + e) - e)%Z as [|n|n] eqn:En; simpl fst; simpl snd.
  - exists m. split; [apply shr_record_of_loc_m|]. fold d. repeat split; lia.
  - rewrite iter_shr_1_m by (rewrite shr_record_of_loc_m; lia).
    rewrite shr_record_of_loc_m.
    assert (Hp : (0 < 2 ^ Z.pos n)%Z) by (apply Z.pow_pos_nonneg; lia).
    assert (Hq : (1 <= Z.pos m / 2 ^ Z.pos n)%Z).
    { apply Z.div_le_lower_bound; [exact Hp|].
      rewrite Z.mul_1_r. apply Z.le_trans with (2 ^ (d - 1))%Z; [|exact Hlo].
      apply Z.pow_le_mono_r; lia. }
    assert (Hu : (Z.pos m / 2 ^ Z.pos n < 2 ^ (d - Z.pos n))%Z).
    { apply Z.div_lt_upper_bound; [exact Hp|].
      rewrite <- Z.pow_add_r by lia.
      replace (Z.pos n + (d - Z.pos n))%Z with d by lia. exact Hhi. }
    destruct (Z.pos m / 2 ^ Z.pos n)%Z as [|q|q] eqn:Eq; try lia.
    exists q. split; [reflexivity|].
    pose proof (digits2_pos_upper q (d - Z.pos n) ltac:(lia) Hu).
    repeat split; lia.
  - exists m. split; [apply shr_record_of_loc_m|]. fold d. repeat split; lia.
Qed.

Lemma binary_round_aux_nonzero (s : bool) (m : positive) (e : Z) (l : location) :
  (emin <= e)%Z ->
  sf_nonzero (binary_round_aux prec emax s (Z.pos m) e l).
Proof.
  intros He. unfold binary_round_aux.
  destruct (shr_fexp_positive m e l He) as [m1 [Hm1 [He1 _]]].
  destruct (shr_fexp prec emax (Z.pos m) e l) as [mrs1 e1]. simpl in Hm1, He1.
  rewrite Hm1.
  assert (Hr : exists m2, round_nearest_even (Z.pos m1) (loc_of_shr_record mrs1)
                          = Z.pos m2).
  { unfold round_nearest_even.
    destruct (loc_of_shr_record mrs1) as [|[| |]];
      try destruct (Z.even (Z.pos m1)); eexists; reflexivity. }
  destruct Hr as [m2 ->].
  destruct (shr_fexp_positive m2 e1 loc_Exact He1) as [m3 [Hm3 [He3 _]]].
  destruct (shr_fexp prec emax (Z.pos m2) e1 loc_Exact) as [mrs2 e2].
  simpl in Hm3, He3. rewrite Hm3.
  destruct (e2 <=? emax - prec)%Z; exact I.
Qed.

Lemma binary_round_nonzero (s : bool) (m : positive) (e : Z) :
  (emin <= e)%Z -> sf_nonzero (binary_round prec emax s m e).
Proof.
  intros He. unfold binary_round.
  destruct (shl_align m e (fexp prec emax (Z.pos (digits2_pos m) + e)))
    as [mz ez] eqn:E.
  apply binary_round_aux_nonzero.
  unfold shl_align in E.
  destruct (fexp prec emax (Z.pos (digits2_pos m) + e) - e)%Z eqn:E';
    injection E as <- <-; try exact He.
  binary64. lia.
Qed.

Lemma binary_normalize_nonzero (M e : Z) (sz : bool) :
  M <> 0%Z -> (emin <= e)%Z ->
  sf_nonzero (binary_normalize prec emax M e sz).
Proof.
  intros HM He. destruct M as [|m|m]; [congruence| |];
    simpl; apply binary_round_nonzero; exact He.
Qed.

(** No overflow: a mantissa of [d] digits at the exponent [e] rounds to
    a finite double when [d + e] is below the largest exponent. *)
Lemma binary_round_aux_finite (s : bool) (m : positive) (e : Z) (l : location) :
  (emin <= e <= emax - prec)%Z -> (Z.pos (digits2_pos m) + e < emax)%Z ->
  sf_finite (binary_round_aux prec emax s (Z.pos m) e l).
Proof.
  intros He Hd. unfold binary_round_aux.
  destruct (shr_fexp_positive m e l ltac:(lia)) as [m1 [Hm1 [He1 [Ee1 Hd1]]]].
  destruct (shr_fexp prec emax (Z.pos m) e l) as [mrs1 e1].
  cbn [fst snd] in Hm1, He1, Ee1, Hd1. rewrite Hm1.
  assert (Hr : exists m2, round_nearest_even (Z.pos m1) (loc_of_shr_record mrs1)
                          = Z.pos m2 /\ (Z.pos m2 <= Z.pos m1 + 1)%Z).
  { unfold round_nearest_even.
    destruct (loc_of_shr_record mrs1) as [|[| |]];
      try destruct (Z.even (Z.pos m1));
      first [exists m1; split; [reflexivity | lia]
            | exists (m1 + 1)%positive; split; [reflexivity | lia]]. }
  destruct Hr as [m2 [-> Hm2]].
  destruct (shr_fexp_positive m2 e1 loc_Exact He1) as [m3 [Hm3 [He3 [Ee3 _]]]].
  destruct (shr_fexp prec emax (Z.pos m2) e1 loc_Exact) as [mrs2 e2].
  cbn [fst snd] in Hm3, He3, Ee3. rewrite Hm3.
  assert (Hd2 : (Z.pos (digits2_pos m2) <= Z.pos (digits2_pos m1) + 1)%Z).
  { apply digits2_pos_upper; [lia|].
    pose proof (digits2_pos_bounds m1) as [_ Hhi].
    rewrite Z.pow_add_r by lia. change (2 ^ 1)%Z with 2%Z. lia. }
  assert (Hle : (e2 <= emax - prec)%Z).
  { binary64. lia. }
  apply Z.leb_le in Hle. rewrite Hle. exact I.
Qed.

Lemma binary_round_finite (s : bool) (m : positive) (e : Z) :
  (emin <= e <= emax - prec)%Z -> (Z.pos (digits2_pos m) + e < emax)%Z ->
  sf_finite (binary_round prec emax s m e).
Proof.
  intros He Hd. unfold binary_round, shl_align.
  destruct (fexp prec emax (Z.pos (digits2_pos m) + e) - e)%Z as [|k|k] eqn:E';
    try (apply binary_round_aux_finite; assumption).
  apply binary_round_aux_finite.
  - binary64. lia.
  - rewrite digits2_pos_iter_xO. lia.
Qed.

(** ** Integers as doubles *)

(** An integer below [2^1023] in magnitude converts to a double. *)
Lemma of_int_in_range (z : Z) :
  (Z.abs z < 2 ^ 1023)%Z -> exists x, F64.of_int z = Ok x.
Proof.
  intros Hz. unfold F64.of_int.
  assert (H : sf_finite (binary_normalize prec emax z 0 false)).
  { destruct z as [|m|m]; [exact I| |];
      simpl binary_normalize; apply binary_round_finite;
      try (binary64; lia);
      pose proof (digits2_pos_upper m 1023 ltac:(lia) Hz);
      unfold emax; lia. }
  destruct (binary_normalize prec emax z 0 false); try contradiction;
    eexists; reflexivity.
Qed.

(** ** Subtraction of finite doubles: zero exactly when they are equal *)

(** A valid finite double: its exponent is in the format, and below the
    largest exponent the mantissa has all its digits. *)
Lemma bounded_canonical (m : positive) (e : Z) :
  SpecFloat.bounded prec emax m e = true ->
  (emin <= e)%Z /\ (Z.pos (digits2_pos m) <= prec)%Z /\
  ((emin < e)%Z -> Z.pos (digits2_pos m) = prec).
Proof.
  unfold SpecFloat.bounded, canonical_mantissa. intros H.
  apply andb_prop in H. destruct H as [H _].
  apply Z.eqb_eq in H. binary64. lia.
Qed.

(** Two valid doubles of the same sign and different exponents differ in
    magnitude. *)
Lemma aligned_mantissas_differ (mx my : positive) (ex ey : Z) :
  SpecFloat.bounded prec emax mx ex = true ->
  SpecFloat.bounded prec emax my ey = true ->
  (ex < ey)%Z ->
  (Z.pos mx < Z.pos my * 2 ^ (ey - ex))%Z.
Proof.
  intros Hx Hy Hlt.
  destruct (bounded_canonical mx ex Hx) as [Hex [Hdx _]].
  destruct (bounded_canonical my ey Hy) as [_ [_ Hdy]].
  specialize (Hdy ltac:(lia)).
  pose proof (digits2_pos_bounds mx) as [_ Hmx].
  pose proof (digits2_pos_bounds my) as [Hmy _].
  rewrite Hdy in Hmy.
  assert (H1 : (Z.pos mx < 2 ^ prec)%Z).
  { apply Z.lt_le_trans with (2 ^ Z.pos (digits2_pos mx))%Z; [exact Hmx|].
    apply Z.pow_le_mono_r; lia. }
  assert (H2 : (2 ^ 1 <= 2 ^ (ey - ex))%Z) by (apply Z.pow_le_mono_r; lia).
  assert (H3 : (2 ^ prec = 2 ^ (prec - 1) * 2 ^ 1)%Z) by reflexivity.
  assert (H4 : (0 < 2 ^ (prec - 1))%Z) by reflexivity.
  nia.
Qed.

Lemma SFeqb_finite (sx sy : bool) (mx my : positive) (ex ey : Z) :
  SFeqb (S754_finite sx mx ex) (S754_finite sy my ey) = true <->
  sx = sy /\ mx = my /\ ex = ey.
Proof.
  unfold SFeqb. simpl. split.
  - destruct sx, sy; try discriminate;
      destruct (Z.compare_spec ex ey); try discriminate;
      change (Pos.compare_cont Eq mx my) with (Pos.compare mx my);
      destruct (Pos.compare_spec mx my); try discriminate; auto.
  - intros [-> [-> ->]]. rewrite Z.compare_refl.
    change (Pos.compare_cont Eq my my) with (Pos.compare my my).
    rewrite Pos.compare_refl. destruct sy; reflexivity.
Qed.

(** The difference of two finite doubles is a zero when they are equal
    and is not zero otherwise: the aligned mantissas differ, and
    rounding a non-zero integer at an exponent of the format never
    gives zero. *)
Lemma SFsub_finite (x y : spec_float) :
  valid_binary x = true -> valid_binary y = true ->
  sf_finite x -> sf_finite y ->
  (SFeqb x y = true -> sf_zero (SF64sub x y)) /\
  (SFeqb x y = false -> sf_nonzero (SF64sub x y)).
Proof.
  intros Vx Vy Fx Fy.
  destruct x as [sx|sx| |sx mx ex]; try contradiction;
    destruct y as [sy|sy| |sy my ey]; try contradiction.
  - split; [|discriminate]. intros _. destruct sx, sy; exact I.
  - split; [destruct sy; discriminate|]. intros _. exact I.
  - split; [destruct sx; discriminate|]. intros _. exact I.
  - simpl in Vx, Vy.
    destruct (bounded_canonical mx ex Vx) as [Hex _].
    destruct (bounded_canonical my ey Vy) as [Hey _].
    unfold SF64sub, SFsub.
    set (ez := Z.min ex ey).
    set (M := (cond_Zopp sx (Z.pos (fst (shl_align mx ex ez)))
               - cond_Zopp sy (Z.pos (fst (shl_align my ey ez))))%Z).
    assert (Hax : Z.pos (fst (shl_align mx ex ez)) = (Z.pos mx * 2 ^ (ex - ez))%Z)
      by (apply shl_align_fst; unfold ez; lia).
    assert (Hay : Z.pos (fst (shl_align my ey ez)) = (Z.pos my * 2 ^ (ey - ez))%Z)
      by (apply shl_align_fst; unfold ez; lia).
    split.
    + intros E. apply SFeqb_finite in E. destruct E as [-> [-> ->]].
      replace M with 0%Z by (unfold M; lia). exact I.
    + intros E. apply binary_normalize_nonzero; [|unfold ez; lia].
      unfold M. rewrite Hax, Hay.
      assert (Px : (0 < 2 ^ (ex - ez))%Z) by (apply Z.pow_pos_nonneg; unfold ez; lia).
      assert (Py : (0 < 2 ^ (ey - ez))%Z) by (apply Z.pow_pos_nonneg; unfold ez; lia).
      destruct (Bool.bool_dec sx sy) as [Hs|Hs].
      * subst sy.
        assert (Hne : (Z.pos mx * 2 ^ (ex - ez) <> Z.pos my * 2 ^ (ey - ez))%Z).
        { destruct (Z.lt_trichotomy ex ey) as [Hlt|[Heq|Hgt]].
          - pose proof (aligned_mantissas_differ mx my ex ey Vx Vy Hlt).
            replace (ex - ez)%Z with 0%Z by (unfold ez; lia).
            replace (ey - ez)%Z with (ey - ex)%Z by (unfold ez; lia).
            simpl (2 ^ 0)%Z. lia.
          - subst ey. intros Hm.
            assert (mx = my) by nia. subst my.
            rewrite (proj2 (SFeqb_finite sx sx mx mx ex ex)) in E by auto.
            discriminate E.
          - pose proof (aligned_mantissas_differ my mx ey ex Vy Vx Hgt).
            replace (ey - ez)%Z with 0%Z by (unfold ez; lia).
            replace (ex - ez)%Z with (ex - ey)%Z by (unfold ez; lia).
            simpl (2 ^ 0)%Z. lia. }
        destruct sx; unfold cond_Zopp; lia.
      * destruct sx, sy; try congruence; unfold cond_Zopp; nia.
Qed.

(** ** The distances the splitters compare *)

Lemma finite64_spec (x : float) : finite64 x -> sf_finite (Prim2SF x).
Proof.
  unfold finite64, is_finite, is_infinity, is_nan. intros H.
  apply negb_true_iff, orb_false_iff in H. destruct H as [Hnan Hinf].
  apply negb_false_iff in Hnan.
  rewrite FloatAxioms.eqb_spec in Hnan, Hinf. rewrite abs_spec in Hinf.
  change (Prim2SF infinity) with (S754_infinity false) in Hinf.
  destruct (Prim2SF x) as [s|s| |s m e]; try exact I; discriminate.
Qed.

(** Between finite doubles the computed distance is a number: zero when
    they are equal, positive otherwise. *)
Lemma distance64_finite (x c : float) :
  finite64 x -> finite64 c ->
  is_number (distance64 x c) /\
  (eq64 x c -> Prim2SF (distance64 x c) = S754_zero false) /\
  (~ eq64 x c -> lt64 0 (distance64 x c)).
Proof.
  intros Hx Hc. apply finite64_spec in Hx, Hc.
  destruct (SFsub_finite (Prim2SF x) (Prim2SF c)
              (Prim2SF_valid x) (Prim2SF_valid c) Hx Hc) as [Hz Hnz].
  unfold distance64, eq64, lt64. rewrite is_number_spec.
  rewrite FloatAxioms.ltb_spec, FloatAxioms.eqb_spec, abs_spec, sub_spec.
  change (Prim2SF 0) with (S754_zero false).
  destruct (SFeqb (Prim2SF x) (Prim2SF c)).
  - specialize (Hz eq_refl).
    destruct (SF64sub (Prim2SF x) (Prim2SF c)); try contradiction.
    repeat split; [discriminate | congruence].
  - specialize (Hnz eq_refl).
    destruct (SF64sub (Prim2SF x) (Prim2SF c)); try contradiction;
      (split; [discriminate|]); (split; [discriminate|]); reflexivity.
Qed.

Lemma le64_zero (d : float) :
  lt64 0 d -> forall z, Prim2SF z = S754_zero false -> ~ le64 d z.
Proof.
  unfold lt64, le64. intros Hd z Hz.
  rewrite FloatAxioms.ltb_spec in Hd. rewrite FloatAxioms.leb_spec, Hz.
  change (Prim2SF 0) with (S754_zero false) in Hd.
  destruct (Prim2SF d) as [s|s| |s m e]; try discriminate;
    destruct s; simpl in *; discriminate.
Qed.

Lemma lt64_zero_zero (x y : float) :
  Prim2SF x = S754_zero false -> Prim2SF y = S754_zero false -> ~ lt64 x y.
Proof.
  unfold lt64. rewrite FloatAxioms.ltb_spec. intros -> ->. discriminate.
Qed.

(** ** The splitters on doubles *)

Lemma nth_distance64 (a : list float) (c : float) (j : nat) :
  (j < List.length a)%nat ->
  nth j (F64.abs (F64.sub_scalar a c)) 0%float = distance64 (nth j a 0%float) c.
Proof.
  intros Hj. unfold F64.abs, F64.sub_scalar. rewrite map_map.
  rewrite (nth_indep _ 0%float (distance64 0 c)) by (rewrite length_map; exact Hj).
  apply (map_nth (fun x => distance64 x c)).
Qed.

Lemma length_distance64 (a : list float) (c : float) :
  List.length (F64.abs (F64.sub_scalar a c)) = List.length a.
Proof. unfold F64.abs, F64.sub_scalar. rewrite !length_map. reflexivity. Qed.

Lemma argmin_computed_nearest (a : list float) (c : float) :
  a <> [] ->
  exists k, F64.argmin (F64.abs (F64.sub_scalar a c)) = Ok k /\
            computed_nearest a c k.
Proof.
  intros Ha.
  destruct (argmin_computed (F64.abs (F64.sub_scalar a c)))
    as [k [Hk [Hlt [Hmin Hnan]]]].
  - destruct a; [congruence | discriminate].
  - rewrite length_distance64 in Hlt, Hmin, Hnan.
    exists k. split; [exact Hk|]. split; [exact Hlt|]. split.
    + intros Hall. destruct Hmin as [Hmin Hfst].
      { intros j Hj. rewrite nth_distance64 by exact Hj. apply Hall. exact Hj. }
      split.
      * intros j Hj. rewrite <- !nth_distance64 by assumption. apply Hmin. exact Hj.
      * intros j Hj. rewrite <- !nth_distance64 by lia. apply Hfst. exact Hj.
    + intros j Hj Hjn. rewrite <- !nth_distance64 by assumption.
      apply Hnan; [exact Hj|]. rewrite nth_distance64 by exact Hj. exact Hjn.
Qed.

(** A target that is the frequency of a row selects the first such row,
    when the frequencies and the target are finite. *)
Lemma computed_nearest_exact (a : list float) (c : float) (k j : nat) :
  computed_nearest a c k ->
  finite64 c -> (forall i, (i < List.length a)%nat -> finite64 (nth i a 0%float)) ->
  (j < List.length a)%nat -> eq64 (nth j a 0%float) c ->
  (forall i, (i < j)%nat -> ~ eq64 (nth i a 0%float) c) ->
  k = j.
Proof.
  intros [Hk [Hmin _]] Hc Ha Hj Hjc Hfirst.
  assert (Hd : forall i, (i < List.length a)%nat ->
                 is_number (distance64 (nth i a 0%float) c)).
  { intros i Hi. apply distance64_finite; [apply Ha; exact Hi | exact Hc]. }
  destruct (Hmin Hd) as [Hle Hlt].
  destruct (distance64_finite (nth j a 0%float) c (Ha j Hj) Hc) as [_ [Hz _]].
  specialize (Hz Hjc).
  destruct (Nat.lt_trichotomy k j) as [Hkj|[Heq|Hjk]]; [exfalso|exact Heq|exfalso].
  - destruct (distance64_finite (nth k a 0%float) c (Ha k Hk) Hc) as [_ [_ Hpos]].
    specialize (Hpos (Hfirst k Hkj)).
    apply (le64_zero _ Hpos _ Hz). apply Hle. exact Hj.
  - specialize (Hlt j Hjk).
    assert (Hkz : Prim2SF (distance64 (nth k a 0%float) c) = S754_zero false).
    { destruct (distance64_finite (nth k a 0%float) c (Ha k Hk) Hc) as [_ [Hzk Hpos]].
      destruct ((nth k a 0 =? c)%float) eqn:E; [apply Hzk; exact E|].
      exfalso. apply (le64_zero (distance64 (nth k a 0%float) c)) with
        (z := distance64 (nth j a 0%float) c).
      - apply Hpos. unfold eq64. congruence.
      - exact Hz.
      - apply Hle. exact Hj. }
    exact (lt64_zero_zero _ _ Hkz Hz Hlt).
Qed.

Lemma nth_accumulate (a : list float) (acc : float) (j : nat) :
  (j < List.length a)%nat ->
  nth j (F64.accumulate acc a) 0%float = running_sum (acc :: a) (S j).
Proof.
  revert acc j. induction a as [|x a IH]; intros acc j Hj; simpl in Hj; [lia|].
  destruct j as [|j].
  - reflexivity.
  - simpl nth at 1. rewrite IH by lia.
    clear IH Hj. induction j as [|j IHj].
    + reflexivity.
    + change (running_sum (acc :: x :: a) (S (S (S j))))
        with (running_sum (acc :: x :: a) (S (S j)) + nth (S j) a 0)%float.
      change (running_sum ((acc + x)%float :: a) (S (S j)))
        with (running_sum ((acc + x)%float :: a) (S j) + nth (S j) a 0)%float.
      rewrite IHj. reflexivity.
Qed.

Lemma nth_cumsum64 (p : list float) (j : nat) :
  (j < List.length p)%nat -> nth j (F64.cumsum p) 0%float = running_sum p j.
Proof.
  intros Hj. destruct p as [|x p]; [simpl in Hj; lia|].
  destruct j as [|j]; [reflexivity|].
  simpl in Hj. simpl nth at 1. apply nth_accumulate. lia.
Qed.

Lemma length_accumulate (a : list float) (acc : float) :
  List.length (F64.accumulate acc a) = List.length a.
Proof.
  revert acc. induction a as [|x a IH]; intros acc; simpl; [reflexivity|].
  rewrite IH. reflexivity.
Qed.

Lemma length_cumsum64 (p : list float) : List.length (F64.cumsum p) = List.length p.
Proof. destruct p; simpl; [reflexivity|]. rewrite length_accumulate. reflexivity. Qed.

Lemma range_In (N n : Z) : In n (range N) -> (0 <= n < N)%Z.
Proof.
  unfold range. rewrite in_map_iff. intros [k [<- Hk]].
  apply in_seq in Hk. lia.
Qed.

Lemma equalAreaBands_run64 (np_sum : list float -> float) (f p : list float) (N : Z) :
  p <> [] -> (0 < N < 2 ^ 1023)%Z ->
  exists idx N',
    F64.of_int N = Ok N' /\
    F64._equalAreaBands np_sum [f; p] (F64.PInt N) = Ok idx /\
    List.length idx = Z.to_nat N /\
    forall n, (n < Z.to_nat N)%nat ->
      exists n1,
        F64.of_int (Z.of_nat n + 1) = Ok n1 /\
        computed_nearest (F64.cumsum p) (n1 * np_sum p / N')%float
          (nth n idx 0%nat).
Proof.
  intros Hp HN.
  destruct (of_int_in_range N ltac:(lia)) as [N' HN'].
  unfold F64._equalAreaBands. cbn [F64.is_int F64.int_value F64.column nth_error bind].
  rewrite HN'.
  destruct (mapM_Forall2
              (fun n => n1 <- F64.of_int (n + 1) ;;
                        N'0 <- Ok N' ;;
                        F64.argmin (F64.abs (F64.sub_scalar (F64.cumsum p)
                                      (n1 * np_sum p / N'0)%float)))
              (fun n k => exists n1,
                            F64.of_int (n + 1) = Ok n1 /\
                            computed_nearest (F64.cumsum p)
                              (n1 * np_sum p / N')%float k)
              (range N)) as [idx [Hrun Hall]].
  - intros n Hn. apply range_In in Hn.
    destruct (of_int_in_range (n + 1) ltac:(lia)) as [n1 Hn1].
    destruct (argmin_computed_nearest (F64.cumsum p) (n1 * np_sum p / N')%float)
      as [k [Hk Hnear]].
    { destruct p; [congruence | discriminate]. }
    exists k. rewrite Hn1. cbn [bind]. split; [exact Hk|].
    exists n1. split; [reflexivity | exact Hnear].
  - exists idx, N'. split; [reflexivity|]. split; [exact Hrun|]. split.
    + rewrite (mapM_length _ _ _ Hrun). apply range_length.
    + intros n Hn. rewrite <- (range_nth N n Hn).
      apply (Forall2_nth_pair _ _ _ 0%Z 0%nat Hall).
      rewrite range_length. exact Hn.
Qed.

(** A numeric target converts to a double, an integer below [2^1023] in
    magnitude at least. *)
Lemma float_value_in_range (v : F64.pyval) :
  F64.is_int_or_float v = true ->
  (forall z, v = F64.PInt z -> (Z.abs z < 2 ^ 1023)%Z) ->
  exists x, F64.float_value v = Ok x.
Proof.
  intros Hv Hz. destruct v as [|b|z|x| | | |]; try discriminate.
  - destruct b; eexists; reflexivity.
  - apply of_int_in_range. apply Hz. reflexivity.
  - exists x. reflexivity.
Qed.

Lemma userDefinedBands_run64 (f p : list float) (targets : list F64.pyval)
    (freq_list : F64.pyval) :
  f <> [] ->
  freq_list = F64.PList targets \/ freq_list = F64.PTuple targets ->
  forallb F64.is_int_or_float targets = true ->
  (forall z, In (F64.PInt z) targets -> (Z.abs z < 2 ^ 1023)%Z) ->
  exists idx,
    F64._userDefinedBands [f; p] freq_list = Ok idx /\
    List.length idx = List.length targets /\
    forall n, (n < List.length targets)%nat ->
      exists target,
        F64.float_value (nth n targets F64.PNone) = Ok target /\
        computed_nearest f target (nth n idx 0%nat).
Proof.
  intros Hf Hshape Hnum Hrange.
  destruct (mapM_Forall2
              (fun freq => target <- F64.float_value freq ;;
                           F64.argmin (F64.abs (F64.sub_scalar f target)))
              (fun freq k => exists target,
                               F64.float_value freq = Ok target /\
                               computed_nearest f target k)
              targets) as [idx [Hrun Hall]].
  - intros v Hv.
    destruct (float_value_in_range v) as [target Ht].
    { rewrite forallb_forall in Hnum. apply Hnum. exact Hv. }
    { intros z ->. apply Hrange. exact Hv. }
    destruct (argmin_computed_nearest f target Hf) as [k [Hk Hnear]].
    exists k. rewrite Ht. cbn [bind]. split; [exact Hk|].
    exists target. split; [reflexivity | exact Hnear].
  - exists idx. split.
    + destruct Hshape as [-> | ->]; unfold F64._userDefinedBands;
        rewrite Hnum; simpl; exact Hrun.
    + split; [apply (mapM_length _ _ _ Hrun)|].
      intros n Hn. apply (Forall2_nth_pair _ _ _ F64.PNone 0%nat Hall). exact Hn.
Qed.

(** C1.  For a stored PSD with at least one row and a positive integer
    [N] (one that converts to a double: below [2^1023]), the equal-area
    splitter on doubles returns [N] indices computed from the magnitude
    column alone (any frequency column gives the same result).  The
    index at position [n-1], for [n] in [1..N], is the row whose
    cumulative sum of magnitudes is closest to [n/N] of the total sum,
    the cumulative sums, the total, the target [n * total / N] and the
    absolute differences being the doubles the code computes: no row is
    at a smaller distance, and every earlier row is at a strictly
    larger one, so that ties go to the first minimal index.  This holds
    whenever the computed distances are numbers; should one be nan, the
    first such row is returned. *)
Theorem equalAreaBands_selects_nearest_sum (np_sum : list float -> float)
    (f p : list float) (N : Z) :
  p <> [] -> (0 < N < 2 ^ 1023)%Z ->
  exists idx N',
    F64.of_int N = Ok N' /\
    F64._equalAreaBands np_sum [f; p] (F64.PInt N) = Ok idx /\
    (forall f', F64._equalAreaBands np_sum [f'; p] (F64.PInt N) = Ok idx) /\
    List.length idx = Z.to_nat N /\
    forall n, (1 <= n <= Z.to_nat N)%nat ->
      exists n',
        F64.of_int (Z.of_nat n) = Ok n' /\
        let target := (n' * np_sum p / N')%float in
        let distance j := PrimFloat.abs (running_sum p j - target)%float in
        let k := nth (n - 1) idx 0%nat in
        (k < List.length p)%nat /\
        ((forall j, (j < List.length p)%nat -> is_nan (distance j) = false) ->
         (forall j, (j < List.length p)%nat ->
            (distance k <=? distance j)%float = true) /\
         (forall j, (j < k)%nat -> (distance k <? distance j)%float = true)) /\
        (forall j, (j < List.length p)%nat -> is_nan (distance j) = true ->
           (k <= j)%nat /\ is_nan (distance k) = true).
Proof.
  intros Hp HN.
  destruct (equalAreaBands_run64 np_sum f p N Hp HN)
    as [idx [N' [HN' [Hrun [Hlen Hall]]]]].
  exists idx, N'. split; [exact HN'|]. split; [exact Hrun|].
  split; [intros f'; exact Hrun|]. split; [exact Hlen|].
  intros n Hn.
  destruct (Hall (n - 1)%nat ltac:(lia)) as [n' [Hn' [Hk [Hmin Hnan]]]].
  replace (Z.of_nat (n - 1) + 1)%Z with (Z.of_nat n) in Hn' by lia.
  exists n'. split; [exact Hn'|]. intros target distance k.
  fold k target in Hk, Hmin, Hnan.
  rewrite length_cumsum64 in Hk, Hmin, Hnan.
  assert (Hd : forall j, (j < List.length p)%nat ->
                 distance64 (nth j (F64.cumsum p) 0%float) target = distance j).
  { intros j Hj. unfold distance64, distance. rewrite nth_cumsum64 by exact Hj.
    reflexivity. }
  split; [exact Hk|]. split.
  - intros Hall'. destruct Hmin as [Hle Hlt].
    { intros j Hj. rewrite Hd by exact Hj. apply Hall'. exact Hj. }
    split.
    + intros j Hj. rewrite <- !Hd by assumption. apply Hle. exact Hj.
    + intros j Hj. rewrite <- !Hd by lia. apply Hlt. exact Hj.
  - intros j Hj Hjn.
    destruct (Hnan j Hj) as [Hkj Hkn].
    { rewrite Hd by exact Hj. unfold is_number. congruence. }
    split; [exact Hkj|]. rewrite Hd in Hkn by exact Hk.
    unfold is_number in Hkn. apply not_false_is_true. exact Hkn.
Qed.

(** A run of C1's theorem on the magnitudes [0.1, 0.1, 0.1] with
    [N = 2]: the boundaries are rows 1 and 2, all computed distances are
    numbers, and for [n = 1] row 1 is strictly closer than row 0. *)
Lemma equalAreaBands_selects_nearest_sum_witness :
  exists idx,
    F64._equalAreaBands F64.sum_in_order [[0; 1; 2]; [0.1; 0.1; 0.1]]%float
      (F64.PInt 2) = Ok idx /\
    idx = [1; 2]%nat /\
    (PrimFloat.abs (0.2 - 0.15000000000000002)
     <? PrimFloat.abs (0.1 - 0.15000000000000002))%float = true.
Proof.
  destruct (equalAreaBands_selects_nearest_sum F64.sum_in_order
              [0; 1; 2]%float [0.1; 0.1; 0.1]%float 2
              ltac:(discriminate) ltac:(split; reflexivity))
    as [idx [N' [HN' [Hrun [_ [_ Hall]]]]]].
  assert (E : F64._equalAreaBands F64.sum_in_order
                [[0; 1; 2]; [0.1; 0.1; 0.1]]%float (F64.PInt 2) = Ok [1; 2]%nat)
    by (vm_compute; reflexivity).
  exists idx. split; [exact Hrun|].
  rewrite E in Hrun. injection Hrun as <-. split; [reflexivity|].
  vm_compute in HN'. injection HN' as <-.
  destruct (Hall 1%nat ltac:(simpl; lia)) as [n' [Hn' [_ [Hmin _]]]].
  vm_compute in Hn'. injection Hn' as <-.
  destruct Hmin as [_ Hfirst].
  - intros j Hj. do 3 (destruct j as [|j]; [vm_compute; reflexivity|]).
    simpl in Hj. lia.
  - specialize (Hfirst 0%nat ltac:(simpl; lia)).
    vm_compute in Hfirst. vm_compute. exact Hfirst.
Defined.

(** C9.  For a stored PSD with at least one row and a list (or tuple)
    of numeric targets (integers that convert to a double: below
    [2^1023] in magnitude), the user-defined splitter on doubles returns
    one index per target, in the order supplied.  Each is the row whose
    frequency is closest to its target, the absolute differences being
    the doubles the code computes: no row is at a smaller distance and
    every earlier row is at a strictly larger one.  This holds whenever
    the computed distances are numbers; should one be nan, the first such
    row is returned.  When the frequencies and the target are finite and
    the target equals the frequency of row [j], and of no earlier row,
    the index returned for it is [j]. *)
Theorem userDefinedBands_selects_nearest_frequency (f p : list float)
    (targets : list F64.pyval) (freq_list : F64.pyval) :
  f <> [] ->
  freq_list = F64.PList targets \/ freq_list = F64.PTuple targets ->
  forallb F64.is_int_or_float targets = true ->
  (forall z, In (F64.PInt z) targets -> (Z.abs z < 2 ^ 1023)%Z) ->
  exists idx,
    F64._userDefinedBands [f; p] freq_list = Ok idx /\
    List.length idx = List.length targets /\
    forall n, (n < List.length targets)%nat ->
      exists target,
        F64.float_value (nth n targets F64.PNone) = Ok target /\
        let distance j := PrimFloat.abs (nth j f 0 - target)%float in
        let k := nth n idx 0%nat in
        (k < List.length f)%nat /\
        ((forall j, (j < List.length f)%nat -> is_nan (distance j) = false) ->
         (forall j, (j < List.length f)%nat ->
            (distance k <=? distance j)%float = true) /\
         (forall j, (j < k)%nat -> (distance k <? distance j)%float = true)) /\
        (forall j, (j < List.length f)%nat -> is_nan (distance j) = true ->
           (k <= j)%nat /\ is_nan (distance k) = true) /\
        (is_finite target = true ->
         (forall j, (j < List.length f)%nat -> is_finite (nth j f 0%float) = true) ->
         forall j, (j < List.length f)%nat ->
           (nth j f 0 =? target)%float = true ->
           (forall i, (i < j)%nat -> (nth i f 0 =? target)%float = false) ->
           k = j).
Proof.
  intros Hf Hshape Hnum Hrange.
  destruct (userDefinedBands_run64 f p targets freq_list Hf Hshape Hnum Hrange)
    as [idx [Hrun [Hlen Hall]]].
  exists idx. split; [exact Hrun|]. split; [exact Hlen|].
  intros n Hn.
  destruct (Hall n Hn) as [target [Ht Hnear]].
  exists target. split; [exact Ht|]. intros distance k.
  fold k in Hnear. pose proof Hnear as [Hk [Hmin Hnan]].
  split; [exact Hk|]. split; [exact Hmin|]. split.
  - intros j Hj Hjn. unfold distance in *. destruct (Hnan j Hj) as [Hkj Hkn].
    { unfold is_number, distance64. congruence. }
    split; [exact Hkj|]. unfold is_number, distance64 in Hkn.
    apply not_false_is_true. exact Hkn.
  - intros Hfin Hffin j Hj Hjt Hfirst.
    apply (computed_nearest_exact f target k j); try assumption.
    intros i Hi. unfold eq64. rewrite (Hfirst i Hi). discriminate.
Qed.

(** A run of C9's theorem on targets that are sample frequencies. *)
Lemma userDefinedBands_selects_nearest_frequency_witness :
  exists idx,
    F64._userDefinedBands [[0; 1; 2; 3; 4]; [1; 1; 1; 1; 1]]%float
      (F64.PList [F64.PInt 2; F64.PFloat 4]) = Ok idx /\
    nth 0 idx 0%nat = 2%nat /\ nth 1 idx 0%nat = 4%nat.
Proof.
  destruct (userDefinedBands_selects_nearest_frequency
              [0; 1; 2; 3; 4]%float [1; 1; 1; 1; 1]%float
              [F64.PInt 2; F64.PFloat 4] (F64.PList [F64.PInt 2; F64.PFloat 4])
              ltac:(discriminate) (or_introl eq_refl) eq_refl)
    as [idx [Hrun [Hlen Hall]]].
  { intros z [E|[E|[]]]; [|discriminate E].
    injection E as <-. reflexivity. }
  assert (Hfin : forall j, (j < 5)%nat ->
                   is_finite (nth j [0; 1; 2; 3; 4]%float 0%float) = true).
  { intros j Hj. do 5 (destruct j as [|j]; [reflexivity|]). lia. }
  exists idx. split; [exact Hrun|]. split.
  - destruct (Hall 0%nat ltac:(simpl; lia)) as [target [Ht [_ [_ [_ Hex]]]]].
    vm_compute in Ht. injection Ht as <-.
    apply (Hex eq_refl Hfin 2%nat ltac:(simpl; lia) eq_refl).
    intros i Hi. do 2 (destruct i as [|i]; [reflexivity|]). lia.
  - destruct (Hall 1%nat ltac:(simpl; lia)) as [target [Ht [_ [_ [_ Hex]]]]].
    vm_compute in Ht. injection Ht as <-.
    apply (Hex eq_refl Hfin 4%nat ltac:(simpl; lia) eq_refl).
    intros i Hi. do 4 (destruct i as [|i]; [reflexivity|]). lia.
Defined.

(** Rounding at work.  The magnitudes [0.1, 0.1, 0.1] accumulate to
    [0.1, 0.2, 0.30000000000000004]; half of the total is
    [0.15000000000000002], at distance [0.05000000000000002] from the
    first sum and [0.04999999999999999] from the second: row 1 is
    selected, where the exact sums tie and row 0 would be.  After
    [1e16] the magnitude [1] is absorbed, the two cumulative sums are
    equal and row 0 carries the whole sum.  Against the target [2^54]
    the frequencies [0..4] are at the computed distances
    [2^54, 2^54, 2^54 - 2, 2^54 - 4, 2^54 - 4]: row 3 is selected, not
    row 4; against [2^56] all five distances are equal.  An integer
    target beyond the doubles is refused. *)
Example splitters_round :
  F64._equalAreaBands F64.sum_in_order [[0; 1; 2]; [0.1; 0.1; 0.1]]%float
    (F64.PInt 2) = Ok [1; 2]%nat /\
  F64._equalAreaBands F64.sum_in_order [[0; 1]; [1e16; 1]]%float
    (F64.PInt 1) = Ok [0%nat] /\
  F64._userDefinedBands [[0; 1; 2; 3; 4]; [1; 1; 1; 1; 1]]%float
    (F64.PList [F64.PInt (2 ^ 54); F64.PInt (2 ^ 56)]) = Ok [3; 0]%nat /\
  F64._userDefinedBands [[0; 1; 2; 3; 4]; [1; 1; 1; 1; 1]]%float
    (F64.PList [F64.PInt (2 ^ 1024)]) = Err OverflowError.
Proof. repeat split; vm_compute; reflexivity. Qed.

(** On doubles too, each policy returns one valid row index per
    target. *)
Lemma computed_nearest_valid (a : list float) (c : float) (k : nat) :
  computed_nearest a c k -> (k < List.length a)%nat.
Proof. intros [H _]. exact H. Qed.

Lemma splitter_indices_valid64 (np_sum : list float -> float) (f p : list float) :
  (forall N, p <> [] -> (0 < N < 2 ^ 1023)%Z ->
     exists idx,
       F64._equalAreaBands np_sum [f; p] (F64.PInt N) = Ok idx /\
       List.length idx = Z.to_nat N /\
       Forall (fun k => (k < List.length p)%nat) idx) /\
  (forall targets freq_list, f <> [] ->
     freq_list = F64.PList targets \/ freq_list = F64.PTuple targets ->
     forallb F64.is_int_or_float targets = true ->
     (forall z, In (F64.PInt z) targets -> (Z.abs z < 2 ^ 1023)%Z) ->
     exists idx,
       F64._userDefinedBands [f; p] freq_list = Ok idx /\
       List.length idx = List.length targets /\
       Forall (fun k => (k < List.length f)%nat) idx).
Proof.
  split.
  - intros N Hp HN.
    destruct (equalAreaBands_run64 np_sum f p N Hp HN)
      as [idx [N' [_ [Hrun [Hlen Hall]]]]].
    exists idx. split; [exact Hrun|]. split; [exact Hlen|].
    apply Forall_forall. intros k Hk.
    destruct (In_nth idx k 0%nat Hk) as [n [Hn <-]].
    destruct (Hall n ltac:(lia)) as [n1 [_ Hnear]].
    pose proof (computed_nearest_valid _ _ _ Hnear) as Hlt.
    rewrite length_cumsum64 in Hlt. exact Hlt.
  - intros targets freq_list Hf Hshape Hnum Hrange.
    destruct (userDefinedBands_run64 f p targets freq_list Hf Hshape Hnum Hrange)
      as [idx [Hrun [Hlen Hall]]].
    exists idx. split; [exact Hrun|]. split; [exact Hlen|].
    apply Forall_forall. intros k Hk.
    destruct (In_nth idx k 0%nat Hk) as [n [Hn <-]].
    destruct (Hall n ltac:(lia)) as [target [_ Hnear]].
    apply (computed_nearest_valid _ _ _ Hnear).
Qed.

(** ** Order of the boundary indices *)

Lemma nth_last {A : Type} (l : list A) (d : A) :
  nth (List.length l - 1) l d = last l d.
Proof.
  induction l as [|x l IH]; [reflexivity|].
  destruct l as [|y l]; [reflexivity|].
  change (last (x :: y :: l) d) with (last (y :: l) d). rewrite <- IH.
  simpl. rewrite Nat.sub_0_r. reflexivity.
Qed.

(** On an ascending array a larger target never selects an earlier row. *)
Lemma nearest_first_monotone (a : list R) (c1 c2 : R) (k1 k2 : nat) :
  nondecreasing a -> c1 <= c2 ->
  nearest_first a c1 k1 -> nearest_first a c2 k2 -> (k1 <= k2)%nat.
Proof.
  intros Hasc Hc [Hk1 [_ Hfst1]] [Hk2 [Hmin2 _]].
  destruct (le_lt_dec k1 k2) as [Hle|Hgt]; [exact Hle|exfalso].
  specialize (Hfst1 k2 Hgt). specialize (Hmin2 k1 Hk1).
  specialize (Hasc k2 k1 ltac:(lia)).
  revert Hfst1 Hmin2. split_Rabs; intros; lra.
Qed.

Lemma cumsum_nondecreasing (p : list R) :
  Forall (fun x => 0 <= x) p -> nondecreasing (Np.cumsum p).
Proof.
  intros Hp i j [Hij Hj]. rewrite length_cumsum in Hj.
  rewrite !nth_cumsum by lia.
  induction Hij as [|j Hij IH].
  - lra.
  - rewrite prefix_sum_step by lia.
    assert (0 <= nth (S j) p 0).
    { rewrite Forall_forall in Hp. apply Hp. apply nth_In. lia. }
    specialize (IH ltac:(lia)). lra.
Qed.

Lemma sum_nonneg (p : list R) : Forall (fun x => 0 <= x) p -> 0 <= Np.sum p.
Proof.
  induction 1 as [|x p Hx _ IH]; simpl; lra.
Qed.

(** When the last magnitude is positive, only the last row carries the
    whole sum. *)
Lemma nearest_total_is_last (p : list R) :
  p <> [] -> Forall (fun x => 0 <= x) p -> 0 < last p 0 ->
  nearest_first (Np.cumsum p) (Np.sum p) (List.length p - 1).
Proof.
  intros Hne Hp Hlast.
  assert (Hlen : (0 < List.length p)%nat).
  { destruct p; [congruence | simpl; lia]. }
  assert (Htot : nth (List.length p - 1) (Np.cumsum p) 0 = Np.sum p).
  { rewrite nth_cumsum by lia. apply prefix_sum_last. exact Hne. }
  split; [rewrite length_cumsum; lia|]. rewrite Htot.
  replace (Np.sum p - Np.sum p) with 0 by lra. rewrite Rabs_R0.
  split.
  - intros j _. apply Rabs_pos.
  - intros j Hj. apply Rabs_pos_lt.
    assert (Hstep : Np.sum p = prefix_sum p (List.length p - 2) + last p 0).
    { rewrite <- (prefix_sum_last p Hne).
      replace (List.length p - 1)%nat with (S (List.length p - 2)) by lia.
      rewrite prefix_sum_step by lia.
      replace (S (List.length p - 2)) with (List.length p - 1)%nat by lia.
      rewrite <- nth_last. reflexivity. }
    pose proof (cumsum_nondecreasing p Hp j (List.length p - 2)%nat) as Hmono.
    rewrite length_cumsum in Hmono. specialize (Hmono ltac:(lia)).
    rewrite (nth_cumsum p (List.length p - 2)) in Hmono by lia. lra.
Qed.

Lemma area_targets_ascending (q : R) (N : Z) (i j : nat) :
  0 <= q -> (0 < N)%Z -> (i <= j)%nat ->
  IZR (Z.of_nat i + 1) * q / IZR N <= IZR (Z.of_nat j + 1) * q / IZR N.
Proof.
  intros Hq HN Hij.
  assert (0 < IZR N) by (apply IZR_lt; exact HN).
  assert (IZR (Z.of_nat i + 1) <= IZR (Z.of_nat j + 1)) by (apply IZR_le; lia).
  unfold Rdiv. apply Rmult_le_compat_r.
  - left. apply Rinv_0_lt_compat. assumption.
  - apply Rmult_le_compat_r; assumption.
Qed.

Lemma get_band_stop_equalArea (psd : Np.ndarray2) (arg : pyval) :
  _get_band_stop_frequency psd (PTuple [PStr "equalAreaBands"; arg])
  = match _equalAreaBands psd arg with
    | Ok freq_indx => Ok freq_indx
    | Err _ => Err (ValueError "Unknown splitting method: equalAreaBands")
    end.
Proof. reflexivity. Qed.

Lemma get_band_stop_userDefined (psd : Np.ndarray2) (arg : pyval) :
  _get_band_stop_frequency psd (PTuple [PStr "userDefinedBands"; arg])
  = match _userDefinedBands psd arg with
    | Ok freq_indx => Ok freq_indx
    | Err _ => Err (ValueError "Unknown splitting method: userDefinedBands")
    end.
Proof. reflexivity. Qed.

(** C2, as the code has it.  With at least one row, [EqualAreaBands(N)]
    for [N >= 1] returns exactly [N] valid row indices, and
    [UserDefinedBands] one valid row index per target of a list or of a
    tuple: on doubles as in exact arithmetic.  In exact arithmetic,
    moreover: for non-negative magnitudes the equal-area indices are in
    non-decreasing order (an index may repeat), and the last one is the
    last row whenever the last magnitude is positive; the user-defined
    indices are in non-decreasing order when the frequencies and the
    targets ascend, and the last one is the row nearest to the last
    target. *)
Theorem band_boundaries_nondecreasing (f p : list R) :
  (forall N, p <> [] -> Forall (fun x => 0 <= x) p -> (0 < N)%Z ->
     exists idx,
       _get_band_stop_frequency [f; p] (PTuple [PStr "equalAreaBands"; PInt N])
       = Ok idx /\
       List.length idx = Z.to_nat N /\
       Forall (fun k => (k < List.length p)%nat) idx /\
       indices_nondecreasing idx /\
       (0 < last p 0 -> last idx 0%nat = (List.length p - 1)%nat)) /\
  (forall targets freq_list, f <> [] -> nondecreasing f ->
     freq_list = PList targets \/ freq_list = PTuple targets ->
     forallb is_int_or_float targets = true ->
     nondecreasing (map float_value targets) ->
     exists idx,
       _get_band_stop_frequency [f; p] (PTuple [PStr "userDefinedBands"; freq_list])
       = Ok idx /\
       List.length idx = List.length targets /\
       Forall (fun k => (k < List.length f)%nat) idx /\
       indices_nondecreasing idx /\
       (targets <> [] ->
        nearest_first f (float_value (last targets PNone)) (last idx 0%nat))) /\
  (forall (np_sum : list float -> float) (f64 p64 : list float),
     (forall N, p64 <> [] -> (0 < N < 2 ^ 1023)%Z ->
        exists idx,
          F64._equalAreaBands np_sum [f64; p64] (F64.PInt N) = Ok idx /\
          List.length idx = Z.to_nat N /\
          Forall (fun k => (k < List.length p64)%nat) idx) /\
     (forall targets freq_list, f64 <> [] ->
        freq_list = F64.PList targets \/ freq_list = F64.PTuple targets ->
        forallb F64.is_int_or_float targets = true ->
        (forall z, In (F64.PInt z) targets -> (Z.abs z < 2 ^ 1023)%Z) ->
        exists idx,
          F64._userDefinedBands [f64; p64] freq_list = Ok idx /\
          List.length idx = List.length targets /\
          Forall (fun k => (k < List.length f64)%nat) idx)).
Proof.
  split; [|split; [|exact splitter_indices_valid64]].
  - intros N Hne Hp HN.
    destruct (equalAreaBands_run f p N Hne) as [idx [Hrun [Hlen Hall]]].
    exists idx. split.
    { rewrite get_band_stop_equalArea, Hrun. reflexivity. }
    split; [exact Hlen|]. split; [|split].
    + apply Forall_forall. intros k Hk.
      destruct (In_nth idx k 0%nat Hk) as [n [Hn <-]].
      destruct (Hall n ltac:(lia)) as [Hlt _].
      rewrite length_cumsum in Hlt. exact Hlt.
    + intros i j Hij.
      apply (nearest_first_monotone (Np.cumsum p)
               (IZR (Z.of_nat i + 1) * Np.sum p / IZR N)
               (IZR (Z.of_nat j + 1) * Np.sum p / IZR N)).
      * apply cumsum_nondecreasing. exact Hp.
      * apply area_targets_ascending; [apply sum_nonneg; exact Hp | exact HN | lia].
      * apply Hall. lia.
      * apply Hall. lia.
    + intros Hlast.
      assert (Hidx : idx <> []).
      { intros ->. simpl in Hlen. lia. }
      rewrite <- (nth_last idx 0%nat).
      apply (nearest_first_unique (Np.cumsum p) (Np.sum p)).
      * pose proof (Hall (List.length idx - 1)%nat ltac:(lia)) as Hb.
        unfold area_boundary in Hb.
        replace (IZR (Z.of_nat (List.length idx - 1) + 1) * Np.sum p / IZR N)
          with (Np.sum p) in Hb.
        { exact Hb. }
        replace (Z.of_nat (List.length idx - 1) + 1)%Z with N by lia.
        field. apply not_0_IZR. lia.
      * apply nearest_total_is_last; assumption.
  - intros targets freq_list Hne Hf Hshape Hnum Hasc.
    destruct (userDefinedBands_run f p targets freq_list Hne Hshape Hnum)
      as [idx [Hrun [Hlen Hall]]].
    exists idx. split.
    { rewrite get_band_stop_userDefined, Hrun. reflexivity. }
    split; [exact Hlen|]. split; [|split].
    + apply Forall_forall. intros k Hk.
      destruct (In_nth idx k 0%nat Hk) as [n [Hn <-]].
      destruct (Hall n ltac:(lia)) as [Hlt _]. exact Hlt.
    + intros i j Hij.
      apply (nearest_first_monotone f
               (float_value (nth i targets PNone))
               (float_value (nth j targets PNone))); [exact Hf| | |].
      * specialize (Hasc i j). rewrite length_map in Hasc.
        specialize (Hasc ltac:(lia)).
        change 0 with (float_value PNone) in Hasc.
        rewrite !map_nth in Hasc. exact Hasc.
      * apply Hall. lia.
      * apply Hall. lia.
    + intros Ht.
      assert (0 < List.length targets)%nat.
      { destruct targets; [congruence | simpl; lia]. }
      rewrite <- (nth_last idx 0%nat), <- (nth_last targets PNone).
      rewrite Hlen. apply Hall. lia.
Qed.

(** C2 fails as stated: with magnitudes [100, 1, 1] and [N = 3] the
    boundaries are [0, 0, 2], which repeat an index; and with magnitudes
    [1, 1, 0] and [N = 1] the only boundary is row 1, not the last
    row 2. *)
Lemma band_boundaries_not_strictly_increasing :
  (_get_band_stop_frequency [[0; 1; 2]; [100; 1; 1]]
     (PTuple [PStr "equalAreaBands"; PInt 3]) = Ok [0; 0; 2]%nat /\
   ~ indices_strictly_increasing [0; 0; 2]%nat) /\
  (_get_band_stop_frequency [[0; 1; 2]; [1; 1; 0]]
     (PTuple [PStr "equalAreaBands"; PInt 1]) = Ok [1%nat] /\
   last [1%nat] 0%nat <> (List.length [1; 1; 0] - 1)%nat).
Proof.
  split; split.
  - rewrite get_band_stop_equalArea. unfold _equalAreaBands.
    run_argmin. reflexivity.
  - intros H. specialize (H 0%nat 1%nat ltac:(simpl; lia)). simpl in H. lia.
  - rewrite get_band_stop_equalArea. unfold _equalAreaBands.
    run_argmin. reflexivity.
  - simpl. lia.
Qed.

(** A run of C2's theorem: the flat PSD over [0..4] with [N = 2], the
    targets [1, 3] as a tuple, and the same on doubles. *)
Lemma band_boundaries_nondecreasing_witness :
  (exists idx,
     _get_band_stop_frequency [[0; 1; 2; 3; 4]; [1; 1; 1; 1; 1]]
       (PTuple [PStr "equalAreaBands"; PInt 2]) = Ok idx /\
     indices_nondecreasing idx /\ last idx 0%nat = 4%nat) /\
  (exists idx,
     _get_band_stop_frequency [[0; 1; 2; 3; 4]; [1; 1; 1; 1; 1]]
       (PTuple [PStr "userDefinedBands"; PTuple [PInt 1; PInt 3]]) = Ok idx /\
     indices_nondecreasing idx) /\
  (exists idx,
     F64._equalAreaBands F64.sum_in_order [[0; 1; 2; 3; 4]; [1; 1; 1; 1; 1]]%float
       (F64.PInt 2) = Ok idx /\
     List.length idx = 2%nat /\ Forall (fun k => (k < 5)%nat) idx) /\
  (exists idx,
     F64._userDefinedBands [[0; 1; 2; 3; 4]; [1; 1; 1; 1; 1]]%float
       (F64.PTuple [F64.PInt 1; F64.PInt 3]) = Ok idx /\
     List.length idx = 2%nat /\ Forall (fun k => (k < 5)%nat) idx).
Proof.
  pose proof (band_boundaries_nondecreasing [0; 1; 2; 3; 4] [1; 1; 1; 1; 1])
    as [Harea [Huser H64]].
  specialize (H64 F64.sum_in_order [0; 1; 2; 3; 4]%float [1; 1; 1; 1; 1]%float).
  destruct H64 as [Harea64 Huser64].
  split; [|split; [|split]].
  3: { destruct (Harea64 2%Z ltac:(discriminate) ltac:(split; reflexivity))
         as [idx H].
       exists idx. exact H. }
  3: { destruct (Huser64 [F64.PInt 1; F64.PInt 3] (F64.PTuple [F64.PInt 1; F64.PInt 3])
                   ltac:(discriminate) (or_intror eq_refl) eq_refl) as [idx H].
       { intros z [E|[E|[]]]; injection E as <-; reflexivity. }
       exists idx. exact H. }
  - destruct (Harea 2%Z) as [idx [Hrun [_ [_ [Hmono Hlast]]]]].
    + discriminate.
    + repeat constructor; lra.
    + lia.
    + exists idx. split; [exact Hrun|]. split; [exact Hmono|].
      apply Hlast. simpl. lra.
  - destruct (Huser [PInt 1; PInt 3] (PTuple [PInt 1; PInt 3]))
      as [idx [Hrun [_ [_ [Hmono _]]]]].
    + discriminate.
    + intros i j Hij. simpl in Hij.
      destruct i as [|[|[|[|[|i]]]]]; destruct j as [|[|[|[|[|j]]]]];
        simpl; try lra; lia.
    + right. reflexivity.
    + reflexivity.
    + intros i j Hij. simpl in Hij.
      destruct i as [|[|i]]; destruct j as [|[|j]]; simpl; try lra; lia.
    + exists idx. split; [exact Hrun | exact Hmono].
Defined.

(** ** Failures of the splitter *)

(** C7, as the code has it.  Band splitting fails when the policy tag
    is a string other than the two method names, and the error then
    names the tag; it fails when the equal-area argument is not an
    integer and when the user-defined argument is a list or tuple with
    a non-numeric element.  An integer [N <= 0] is accepted: the result
    is the empty sequence of boundaries. *)
Theorem splitting_failures (psd : Np.ndarray2) :
  (forall s arg, s <> "equalAreaBands" -> s <> "userDefinedBands" ->
     _get_band_stop_frequency psd (PTuple [PStr s; arg])
     = Err (ValueError ("Unknown splitting method: " ++ s)%string)) /\
  (forall N, is_int N = false ->
     exists e, _get_band_stop_frequency psd (PTuple [PStr "equalAreaBands"; N])
               = Err e) /\
  (forall l, forallb is_int_or_float l = false ->
     (exists e, _get_band_stop_frequency psd
                  (PTuple [PStr "userDefinedBands"; PList l]) = Err e) /\
     (exists e, _get_band_stop_frequency psd
                  (PTuple [PStr "userDefinedBands"; PTuple l]) = Err e)) /\
  (forall N p, is_int N = true -> (int_value N <= 0)%Z ->
     Np.column 1 psd = Ok p ->
     _get_band_stop_frequency psd (PTuple [PStr "equalAreaBands"; N]) = Ok []).
Proof.
  repeat split.
  - intros s arg H1 H2. unfold _get_band_stop_frequency, method_dict.
    apply String.eqb_neq in H1, H2. rewrite H1, H2. reflexivity.
  - intros N HN. rewrite get_band_stop_equalArea. unfold _equalAreaBands.
    rewrite HN. eexists. reflexivity.
  - rewrite get_band_stop_userDefined. unfold _userDefinedBands.
    rewrite H. eexists. reflexivity.
  - rewrite get_band_stop_userDefined. unfold _userDefinedBands.
    rewrite H. eexists. reflexivity.
  - intros N p HN Hle Hcol. rewrite get_band_stop_equalArea.
    unfold _equalAreaBands. rewrite HN, Hcol. simpl.
    unfold range. replace (Z.to_nat (int_value N)) with 0%nat by lia.
    reflexivity.
Qed.

(** C7 fails as stated: [N = 0] is not a positive integer and the
    splitter returns normally; and the error raised for a non-integer
    [N] is the one raised for an unknown method, here for the known
    method [equalAreaBands]. *)
Lemma splitting_errors_not_distinct :
  _get_band_stop_frequency [[0; 1]; [1; 1]]
    (PTuple [PStr "equalAreaBands"; PInt 0]) = Ok [] /\
  _get_band_stop_frequency [[0; 1]; [1; 1]]
    (PTuple [PStr "equalAreaBands"; PFloat (3 / 2)])
  = Err (ValueError "Unknown splitting method: equalAreaBands") /\
  _get_band_stop_frequency [[0; 1]; [1; 1]]
    (PTuple [PStr "userDefinedBands"; PList [PStr "a"]])
  = Err (ValueError "Unknown splitting method: userDefinedBands").
Proof. repeat split; reflexivity. Qed.

(** A run of C7's theorem on a two-row PSD. *)
Lemma splitting_failures_witness :
  _get_band_stop_frequency [[0; 1]; [1; 1]] (PTuple [PStr "dirlik"; PInt 1])
  = Err (ValueError "Unknown splitting method: dirlik") /\
  (exists e, _get_band_stop_frequency [[0; 1]; [1; 1]]
               (PTuple [PStr "equalAreaBands"; PStr "2"]) = Err e) /\
  (exists e, _get_band_stop_frequency [[0; 1]; [1; 1]]
               (PTuple [PStr "userDefinedBands"; PList [PInt 1; PNone]]) = Err e) /\
  _get_band_stop_frequency [[0; 1]; [1; 1]]
    (PTuple [PStr "equalAreaBands"; PInt (-3)]) = Ok [].
Proof.
  destruct (splitting_failures [[0; 1]; [1; 1]]) as [Htag [Hint [Hnum Hneg]]].
  split; [|split; [|split]].
  - apply (Htag "dirlik" (PInt 1)); discriminate.
  - apply (Hint (PStr "2")). reflexivity.
  - apply (Hnum [PInt 1; PNone]). reflexivity.
  - apply (Hneg (PInt (-3)) [1; 1]); [reflexivity | simpl; lia | reflexivity].
Defined.

(** ** The moment engine *)

Lemma get_spectral_moment_value (f p : list R) (i : pyval) :
  is_int_or_float i = true ->
  _get_spectral_moment [f; p] i = Ok (moment f p (float_value i)).
Proof. intros Hi. unfold _get_spectral_moment. rewrite Hi. reflexivity. Qed.

Lemma power1_order_0 (x : R) : Np.power1 x 0 = 1.
Proof.
  unfold Np.power1. destruct (Req_dec_T x 0) as [_|Hx].
  - destruct (Req_dec_T 0 0); [reflexivity | congruence].
  - unfold Rpower. rewrite Rmult_0_l. apply exp_0.
Qed.

Lemma power1_order_nat (x : R) (n : nat) : 0 <= x -> Np.power1 x (INR n) = x ^ n.
Proof.
  intros Hx. unfold Np.power1. destruct (Req_dec_T x 0) as [->|Hne].
  - destruct n as [|n].
    + simpl. destruct (Req_dec_T 0 0); [reflexivity | congruence].
    + destruct (Req_dec_T (INR (S n)) 0) as [E|_].
      * pose proof (lt_0_INR (S n) ltac:(lia)). lra.
      * simpl. lra.
  - apply Rpower_pow. lra.
Qed.

Lemma trapz_step (y0 y1 x0 x1 : R) (ys xs : list R) :
  Np.trapz (y0 :: y1 :: ys) (x0 :: x1 :: xs)
  = (x1 - x0) * (y1 + y0) / 2 + Np.trapz (y1 :: ys) (x1 :: xs).
Proof. reflexivity. Qed.

Lemma trapz_single (y : list R) (x0 : R) : Np.trapz y [x0] = 0.
Proof. unfold Np.trapz, Np.diff. simpl. reflexivity. Qed.

Lemma moment_trapezoid (f p : list R) (i : R) :
  List.length f = List.length p ->
  moment f p i = trapezoid_integral (moment_integrand i) (combine f p).
Proof.
  revert p. induction f as [|x0 f IH]; intros p Hlen.
  - reflexivity.
  - destruct p as [|s0 p]; [discriminate|].
    destruct f as [|x1 f].
    + destruct p; [|discriminate]. unfold moment. simpl. apply trapz_single.
    + destruct p as [|s1 p]; [discriminate|].
      specialize (IH (s1 :: p) ltac:(simpl in *; lia)).
      change (combine (x0 :: x1 :: f) (s0 :: s1 :: p))
        with ((x0, s0) :: combine (x1 :: f) (s1 :: p)).
      change (trapezoid_integral (moment_integrand i)
                ((x0, s0) :: combine (x1 :: f) (s1 :: p)))
        with ((x1 - x0) * (moment_integrand i x0 s0 + moment_integrand i x1 s1) / 2
              + trapezoid_integral (moment_integrand i) (combine (x1 :: f) (s1 :: p))).
      rewrite <- IH. unfold moment.
      change (Np.mul (Np.power (Np.scale (2 * PI) (x0 :: x1 :: f)) i) (s0 :: s1 :: p))
        with (moment_integrand i x0 s0 :: moment_integrand i x1 s1
              :: Np.mul (Np.power (Np.scale (2 * PI) f) i) p).
      change (Np.mul (Np.power (Np.scale (2 * PI) (x1 :: f)) i) (s1 :: p))
        with (moment_integrand i x1 s1
              :: Np.mul (Np.power (Np.scale (2 * PI) f) i) p).
      rewrite trapz_step. lra.
Qed.

Lemma slice_combine {A B : Type} (lo hi : nat) (l : list A) (l' : list B) :
  slice lo hi (combine l l') = combine (slice lo hi l) (slice lo hi l').
Proof.
  unfold slice. rewrite combine_firstn.
  generalize (firstn hi l) (firstn hi l'). clear.
  induction lo as [|lo IH]; intros a b; [reflexivity|].
  destruct a as [|x a]; [reflexivity|].
  destruct b as [|y b].
  - simpl. destruct (skipn lo a); reflexivity.
  - simpl. apply IH.
Qed.

Lemma slice_length_eq {A B : Type} (lo hi : nat) (l : list A) (l' : list B) :
  List.length l = List.length l' ->
  List.length (slice lo hi l) = List.length (slice lo hi l').
Proof.
  intros H. unfold slice. rewrite !length_skipn, !length_firstn, H. reflexivity.
Qed.

(** C3.  For a band, i.e. the rows [lo..hi-1] of a stored PSD, and a
    numeric order [i] (an integer, a fraction or zero), the computed
    moment is the trapezoidal integral of [(2*pi*f)^i * S(f)] over the
    samples of that slice and of no other row.  The frequencies of the
    band are positive, or zero with an order that is not negative: there
    the power is a finite number.  The integrand is [S(f)] at order
    zero, [(2*pi*f)^n * S(f)] at a natural order [n],
    [exp(i * ln(2*pi*f)) * S(f)] at any order on a positive frequency,
    and [0] at a positive order on the frequency zero. *)
Theorem spectral_moment_is_trapezoid (f p : list R) (lo hi : nat) (i : pyval) :
  List.length f = List.length p -> is_int_or_float i = true ->
  Forall (fun x => 0 < x \/ (x = 0 /\ 0 <= float_value i)) (slice lo hi f) ->
  _get_spectral_moment (Np.rows lo hi [f; p]) i
  = Ok (trapezoid_integral (moment_integrand (float_value i))
          (slice lo hi (combine f p))) /\
  (forall x s, moment_integrand 0 x s = s) /\
  (forall (n : nat) x s, 0 <= x -> moment_integrand (INR n) x s = (2 * PI * x) ^ n * s) /\
  (forall r x s, 0 < x -> moment_integrand r x s = exp (r * ln (2 * PI * x)) * s) /\
  (forall r s, 0 < r -> moment_integrand r 0 s = 0).
Proof.
  intros Hlen Hi _. split; [|split; [|split; [|split]]].
  - change (Np.rows lo hi [f; p]) with [slice lo hi f; slice lo hi p].
    rewrite get_spectral_moment_value by exact Hi.
    rewrite moment_trapezoid by (apply slice_length_eq; exact Hlen).
    rewrite slice_combine. reflexivity.
  - intros x s. unfold moment_integrand. rewrite power1_order_0. lra.
  - intros n x s Hx. unfold moment_integrand.
    rewrite power1_order_nat; [reflexivity|].
    pose proof PI_RGT_0. nra.
  - intros r x s Hx. unfold moment_integrand, Np.power1.
    pose proof PI_RGT_0.
    destruct (Req_dec_T (2 * PI * x) 0) as [E|_]; [nra | reflexivity].
  - intros r s Hr. unfold moment_integrand, Np.power1.
    rewrite Rmult_0_r.
    destruct (Req_dec_T 0 0) as [_|E]; [|congruence].
    destruct (Req_dec_T r 0) as [E|_]; lra.
Qed.

(** The scenario of the specification: the flat PSD of magnitude 1 over
    the frequencies [0..4] has [m0 = 4]. *)
Lemma spectral_moment_is_trapezoid_witness :
  _get_spectral_moment (Np.rows 0 5 [[0; 1; 2; 3; 4]; [1; 1; 1; 1; 1]]) (PInt 0)
  = Ok 4.
Proof.
  destruct (spectral_moment_is_trapezoid
              [0; 1; 2; 3; 4] [1; 1; 1; 1; 1] 0 5 (PInt 0) eq_refl eq_refl)
    as [Hrun [H0 _]].
  - repeat constructor; simpl; lra.
  - rewrite Hrun. f_equal. simpl. rewrite !H0. lra.
Defined.

(** ** Bands *)

Lemma nth_map_seq (g : nat -> R) (lo n j : nat) :
  (j < n)%nat -> nth j (map g (seq lo n)) 0 = g (lo + j)%nat.
Proof.
  intros Hj.
  rewrite (nth_indep (map g (seq lo n)) 0 (g 0%nat))
    by (rewrite length_map, length_seq; exact Hj).
  rewrite map_nth, seq_nth by exact Hj. reflexivity.
Qed.

Lemma slice_inclusive (lo hi : nat) (col : list R) :
  (hi < List.length col)%nat -> slice lo (hi + 1) col = inclusive_rows lo hi col.
Proof.
  intros Hhi. unfold slice, inclusive_rows.
  apply (nth_ext _ _ 0 0).
  - rewrite length_skipn, length_firstn, length_map, length_seq. lia.
  - intros j Hj. rewrite length_skipn, length_firstn in Hj.
    rewrite nth_skipn, nth_firstn.
    destruct (Nat.ltb_spec (lo + j) (hi + 1)) as [_|Hge]; [|lia].
    rewrite nth_map_seq by lia. reflexivity.
Qed.

Lemma band_rows_slices (f p : list R) (bs : list nat) (k : nat) :
  band_rows [f; p] bs k
  = [slice (band_lo bs k) (band_hi bs k + 1) f;
     slice (band_lo bs k) (band_hi bs k + 1) p].
Proof.
  unfold band_rows, band_lo, band_hi. destruct k as [|k]; simpl.
  - reflexivity.
  - rewrite Nat.sub_0_r. reflexivity.
Qed.

Lemma mapM_map {A B : Type} (f : A -> result B) (g : A -> B) (l : list A) :
  (forall a, In a l -> f a = Ok (g a)) -> mapM f l = Ok (map g l).
Proof.
  induction l as [|a l IH]; intros H; [reflexivity|].
  simpl. rewrite (H a (or_introl eq_refl)). simpl.
  rewrite IH by (intros x Hx; apply H; right; exact Hx). reflexivity.
Qed.

Lemma mapM_Forall {A B : Type} (f : A -> result B) (P : B -> Prop)
    (l : list A) (bs : list B) :
  (forall a b, f a = Ok b -> P b) -> mapM f l = Ok bs -> Forall P bs.
Proof.
  intros HP. revert bs. induction l as [|a l IH]; intros bs H; simpl in H.
  - injection H as <-. constructor.
  - destruct (f a) as [b|e] eqn:Hb; simpl in H; [|discriminate].
    destruct (mapM f l) as [bs'|e]; simpl in H; [|discriminate].
    injection H as <-. constructor; [eapply HP; exact Hb | apply IH; reflexivity].
Qed.

Lemma argmin_lt (a : list R) (r : nat) :
  Np.argmin a = Ok r -> (r < List.length a)%nat.
Proof.
  intros H. destruct (argmin_first a) as [r' [Hr' [Hlt _]]].
  - intros ->. discriminate.
  - rewrite Hr' in H. injection H as <-. exact Hlt.
Qed.

(** Every boundary the splitter returns is a row of the PSD. *)
Lemma band_stop_in_range (f p : list R) (sp : pyval) (bs : list nat) :
  List.length f = List.length p ->
  _get_band_stop_frequency [f; p] sp = Ok bs ->
  Forall (fun b => (b < List.length f)%nat) bs.
Proof.
  intros Hlen H. unfold _get_band_stop_frequency in H.
  destruct sp as [| | | | |?|l|]; try discriminate.
  destruct l as [|m [|arg rest]]; try discriminate.
  unfold method_dict in H.
  destruct m as [| | | |s| | |]; try discriminate.
  destruct (String.eqb s "equalAreaBands").
  - simpl in H. unfold _equalAreaBands in H.
    destruct (is_int arg); [|discriminate]. simpl in H.
    match type of H with
    | match ?c with _ => _ end = _ => destruct c as [v|e] eqn:Hrun; [|discriminate]
    end.
    injection H as <-.
    eapply mapM_Forall; [|exact Hrun].
    intros n b Hb. simpl in Hb. apply argmin_lt in Hb.
    rewrite length_abs_sub, length_cumsum in Hb. lia.
  - destruct (String.eqb s "userDefinedBands"); [|discriminate].
    simpl in H. unfold _userDefinedBands in H.
    destruct arg as [| | | | |l|l|]; try discriminate;
      (destruct (forallb is_int_or_float l); [|discriminate]); simpl in H;
      match type of H with
      | match ?c with _ => _ end = _ => destruct c as [v|e] eqn:Hrun; [|discriminate]
      end;
      injection H as <-;
      (eapply mapM_Forall; [|exact Hrun]);
      intros n b Hb; simpl in Hb; apply argmin_lt in Hb;
      rewrite length_abs_sub in Hb; exact Hb.
Qed.

Lemma get_spectral_moments_value (f p : list R) (sp : pyval) (ms : list pyval)
    (bs : list nat) :
  _get_band_stop_frequency [f; p] sp = Ok bs ->
  forallb is_int_or_float ms = true ->
  get_spectral_moments [f; p] sp ms
  = Ok (map (fun k =>
               map (fun i =>
                      moment (slice (band_lo bs k) (band_hi bs k + 1) f)
                             (slice (band_lo bs k) (band_hi bs k + 1) p)
                             (float_value i)) ms)
            (seq 0 (List.length bs))).
Proof.
  intros Hbs Hms. unfold get_spectral_moments. rewrite Hbs. simpl.
  apply mapM_map. intros k _. apply mapM_map. intros i Hi.
  rewrite band_rows_slices. apply get_spectral_moment_value.
  rewrite forallb_forall in Hms. apply Hms. exact Hi.
Qed.

(** C4.  The moment engine integrates band 0 over the PSD rows [0]
    through [boundary[0]] and band [k > 0] over the rows
    [boundary[k-1]] through [boundary[k]], both ends included: row
    [boundary[k-1]] closes band [k-1] and opens band [k]. *)
Theorem bands_share_boundary_row (f p : list R) (sp : pyval) (ms : list pyval)
    (bs : list nat) :
  List.length f = List.length p ->
  _get_band_stop_frequency [f; p] sp = Ok bs ->
  forallb is_int_or_float ms = true ->
  exists M,
    get_spectral_moments [f; p] sp ms = Ok M /\
    List.length M = List.length bs /\
    forall k, (k < List.length bs)%nat ->
      let lo := band_lo bs k in
      let hi := band_hi bs k in
      band_rows [f; p] bs k = [inclusive_rows lo hi f; inclusive_rows lo hi p] /\
      nth k M []
      = map (fun i => moment (inclusive_rows lo hi f) (inclusive_rows lo hi p)
                        (float_value i)) ms /\
      ((0 < k)%nat -> (band_lo bs (k - 1) <= lo <= hi)%nat ->
         lo = band_hi bs (k - 1) /\
         last (inclusive_rows (band_lo bs (k - 1)) (band_hi bs (k - 1)) f) 0
         = nth lo f 0 /\
         hd 0 (inclusive_rows lo hi f) = nth lo f 0 /\
         last (inclusive_rows (band_lo bs (k - 1)) (band_hi bs (k - 1)) p) 0
         = nth lo p 0 /\
         hd 0 (inclusive_rows lo hi p) = nth lo p 0).
Proof.
  intros Hlen Hbs Hms.
  pose proof (band_stop_in_range f p sp bs Hlen Hbs) as Hrange.
  rewrite Forall_forall in Hrange.
  eexists. split; [apply get_spectral_moments_value; eassumption|].
  split; [rewrite length_map, length_seq; reflexivity|].
  intros k Hk lo hi.
  assert (Hhi : (hi < List.length f)%nat).
  { apply Hrange. apply nth_In. exact Hk. }
  split; [|split].
  - rewrite band_rows_slices. fold lo hi.
    rewrite !slice_inclusive by lia. reflexivity.
  - rewrite (nth_indep _ [] ((fun k => map
               (fun i => moment (slice (band_lo bs k) (band_hi bs k + 1) f)
                                (slice (band_lo bs k) (band_hi bs k + 1) p)
                                (float_value i)) ms) 0%nat))
      by (rewrite length_map, length_seq; exact Hk).
    rewrite (map_nth (fun k => map
               (fun i => moment (slice (band_lo bs k) (band_hi bs k + 1) f)
                                (slice (band_lo bs k) (band_hi bs k + 1) p)
                                (float_value i)) ms)).
    rewrite seq_nth by exact Hk. simpl. fold lo hi.
    rewrite !slice_inclusive by lia. reflexivity.
  - intros Hpos Hord.
    assert (Hprev : lo = band_hi bs (k - 1)).
    { unfold lo, band_lo, band_hi. destruct k as [|k]; [lia|].
      simpl. rewrite Nat.sub_0_r. reflexivity. }
    assert (Hlast : forall col,
              last (inclusive_rows (band_lo bs (k - 1)) (band_hi bs (k - 1)) col) 0
              = nth lo col 0).
    { intros col. rewrite <- Hprev. unfold inclusive_rows.
      rewrite <- nth_last. rewrite length_map, length_seq.
      rewrite nth_map_seq by lia. f_equal. lia. }
    assert (Hhd : forall col, hd 0 (inclusive_rows lo hi col) = nth lo col 0).
    { intros col. unfold inclusive_rows.
      replace (hi + 1 - lo)%nat with (S (hi - lo)) by lia. reflexivity. }
    repeat split; auto.
Qed.

(** A run of C4's theorem: the flat PSD over [0..4] split at the
    frequencies 2 and 4; row 2 ends band 0 and starts band 1. *)
Lemma bands_share_boundary_row_witness :
  band_rows [[0; 1; 2; 3; 4]; [1; 1; 1; 1; 1]] [2; 4]%nat 0
  = [[0; 1; 2]; [1; 1; 1]] /\
  band_rows [[0; 1; 2; 3; 4]; [1; 1; 1; 1; 1]] [2; 4]%nat 1
  = [[2; 3; 4]; [1; 1; 1]].
Proof.
  assert (Hbs : _get_band_stop_frequency [[0; 1; 2; 3; 4]; [1; 1; 1; 1; 1]]
                  (PTuple [PStr "userDefinedBands"; PList [PInt 2; PInt 4]])
                = Ok [2; 4]%nat).
  { rewrite get_band_stop_userDefined. unfold _userDefinedBands.
    run_argmin. reflexivity. }
  destruct (bands_share_boundary_row
              [0; 1; 2; 3; 4] [1; 1; 1; 1; 1]
              (PTuple [PStr "userDefinedBands"; PList [PInt 2; PInt 4]])
              [PInt 0] [2; 4]%nat eq_refl Hbs eq_refl)
    as [M [_ [_ Hall]]].
  split.
  - destruct (Hall 0%nat ltac:(simpl; lia)) as [H0 _]. exact H0.
  - destruct (Hall 1%nat ltac:(simpl; lia)) as [H1 _]. exact H1.
Defined.

(** ** The bandwidth estimator *)

Lemma nondecreasing_ascending (l : list R) : nondecreasing l -> ascending l.
Proof.
  induction l as [|x l IH]; intros H; [exact I|].
  destruct l as [|y l]; [exact I|]. split.
  - apply (H 0%nat 1%nat). simpl. lia.
  - apply IH. intros i j Hij. apply (H (S i) (S j)). simpl in *. lia.
Qed.

Lemma ascending_tail (x : R) (l : list R) : ascending (x :: l) -> ascending l.
Proof. destruct l as [|y l]; [intros; exact I | intros [_ H]; exact H]. Qed.

Lemma ascending_firstn (n : nat) (l : list R) : ascending l -> ascending (firstn n l).
Proof.
  revert l. induction n as [|n IH]; intros l H; [exact I|].
  destruct l as [|x l]; [exact I|].
  destruct l as [|y l]; [destruct n; exact I|].
  destruct H as [Hxy H]. specialize (IH (y :: l) H).
  destruct n as [|n]; [exact I|]. split; [exact Hxy | exact IH].
Qed.

Lemma ascending_skipn (n : nat) (l : list R) : ascending l -> ascending (skipn n l).
Proof.
  revert l. induction n as [|n IH]; intros l H; [exact H|].
  destruct l as [|x l]; [exact I|]. apply IH. eapply ascending_tail. exact H.
Qed.

Lemma Forall_slice {A : Type} (P : A -> Prop) (lo hi : nat) (l : list A) :
  Forall P l -> Forall P (slice lo hi l).
Proof.
  intros H. unfold slice. rewrite Forall_forall in *. intros x Hx.
  apply H. rewrite <- (firstn_skipn hi l). apply in_or_app. left.
  rewrite <- (firstn_skipn lo (firstn hi l)). apply in_or_app. right. exact Hx.
Qed.

Lemma trapezoid_ext (g g' : R -> R -> R) (samples : list (R * R)) :
  (forall x s, g x s = g' x s) ->
  trapezoid_integral g samples = trapezoid_integral g' samples.
Proof.
  intros H. induction samples as [|[x0 s0] l IH]; [reflexivity|].
  destruct l as [|[x1 s1] l]; [reflexivity|].
  change (trapezoid_integral g ((x0, s0) :: (x1, s1) :: l))
    with ((x1 - x0) * (g x0 s0 + g x1 s1) / 2
          + trapezoid_integral g ((x1, s1) :: l)).
  change (trapezoid_integral g' ((x0, s0) :: (x1, s1) :: l))
    with ((x1 - x0) * (g' x0 s0 + g' x1 s1) / 2
          + trapezoid_integral g' ((x1, s1) :: l)).
  rewrite IH, !H. reflexivity.
Qed.

Lemma trapezoid_linear (a b c : R) (g1 g2 g3 : R -> R -> R)
    (samples : list (R * R)) :
  trapezoid_integral (fun x s => a * g1 x s + b * g2 x s + c * g3 x s) samples
  = a * trapezoid_integral g1 samples + b * trapezoid_integral g2 samples
    + c * trapezoid_integral g3 samples.
Proof.
  induction samples as [|[x0 s0] l IH]; [simpl; lra|].
  destruct l as [|[x1 s1] l]; [simpl; lra|].
  change (trapezoid_integral ?g ((x0, s0) :: (x1, s1) :: l))
    with ((x1 - x0) * (g x0 s0 + g x1 s1) / 2
          + trapezoid_integral g ((x1, s1) :: l)).
  rewrite IH. lra.
Qed.

Lemma trapezoid_nonneg (g : R -> R -> R) (samples : list (R * R)) :
  ascending (map fst samples) ->
  (forall x s, In (x, s) samples -> 0 <= g x s) ->
  0 <= trapezoid_integral g samples.
Proof.
  induction samples as [|[x0 s0] l IH]; intros Hasc Hg; [simpl; lra|].
  destruct l as [|[x1 s1] l]; [simpl; lra|].
  change (trapezoid_integral g ((x0, s0) :: (x1, s1) :: l))
    with ((x1 - x0) * (g x0 s0 + g x1 s1) / 2
          + trapezoid_integral g ((x1, s1) :: l)).
  destruct Hasc as [H01 Hasc]. simpl in H01.
  assert (0 <= trapezoid_integral g ((x1, s1) :: l)).
  { apply IH; [exact Hasc|]. intros x s Hin. apply Hg. right. exact Hin. }
  assert (0 <= g x0 s0) by (apply Hg; left; reflexivity).
  assert (0 <= g x1 s1) by (apply Hg; right; left; reflexivity).
  assert (0 <= (x1 - x0) * (g x0 s0 + g x1 s1)) by (apply Rmult_le_pos; lra).
  lra.
Qed.

(** The Cauchy-Schwarz inequality for the trapezoidal rule with
    non-negative samples on ascending nodes. *)
Lemma trapezoid_cauchy_schwarz (u : R -> R) (samples : list (R * R)) :
  ascending (map fst samples) ->
  (forall x s, In (x, s) samples -> 0 <= s) ->
  let M0 := trapezoid_integral (fun _ s => s) samples in
  let M1 := trapezoid_integral (fun x s => u x * s) samples in
  let M2 := trapezoid_integral (fun x s => u x * u x * s) samples in
  0 <= M0 /\ 0 <= M2 /\ M1 * M1 <= M0 * M2.
Proof.
  intros Hasc Hs M0 M1 M2.
  assert (H0 : 0 <= M0) by (apply trapezoid_nonneg; assumption).
  assert (H2 : 0 <= M2).
  { apply trapezoid_nonneg; [exact Hasc|]. intros x s Hin.
    apply Rmult_le_pos; [apply (Rle_0_sqr (u x)) | eapply Hs; exact Hin]. }
  assert (Hq : forall t, 0 <= M2 - 2 * t * M1 + t * t * M0).
  { intros t.
    replace (M2 - 2 * t * M1 + t * t * M0)
      with (trapezoid_integral (fun x s => (u x - t) * (u x - t) * s) samples).
    - apply trapezoid_nonneg; [exact Hasc|]. intros x s Hin.
      apply Rmult_le_pos; [apply (Rle_0_sqr (u x - t)) | eapply Hs; exact Hin].
    - rewrite (trapezoid_ext _
                 (fun x s => 1 * (u x * u x * s) + (- 2 * t) * (u x * s)
                             + (t * t) * s))
        by (intros; ring).
      rewrite (trapezoid_linear 1 (- 2 * t) (t * t)
                 (fun x s => u x * u x * s) (fun x s => u x * s) (fun _ s => s)).
      fold M0 M1 M2. ring. }
  split; [exact H0|]. split; [exact H2|].
  destruct (Req_dec M0 0) as [Hz|Hnz].
  - rewrite Hz in *.
    destruct (Req_dec M1 0) as [->|Hm]; [lra|].
    exfalso. specialize (Hq ((M2 + 1) / (2 * M1))).
    replace (M2 - 2 * ((M2 + 1) / (2 * M1)) * M1
             + (M2 + 1) / (2 * M1) * ((M2 + 1) / (2 * M1)) * 0)
      with (- 1) in Hq by (field; exact Hm).
    lra.
  - assert (Hpos : 0 < M0) by lra.
    specialize (Hq (M1 / M0)).
    replace (M2 - 2 * (M1 / M0) * M1 + M1 / M0 * (M1 / M0) * M0)
      with ((M0 * M2 - M1 * M1) / M0) in Hq by (field; exact Hnz).
    assert (0 <= (M0 * M2 - M1 * M1) / M0 * M0) by (apply Rmult_le_pos; lra).
    replace ((M0 * M2 - M1 * M1) / M0 * M0) with (M0 * M2 - M1 * M1) in *
      by (field; exact Hnz).
    lra.
Qed.

Lemma power1_double (x i : R) :
  Np.power1 x (2 * i) = Np.power1 x i * Np.power1 x i.
Proof.
  unfold Np.power1. destruct (Req_dec_T x 0) as [_|_].
  - destruct (Req_dec_T i 0) as [->|Hi].
    + rewrite Rmult_0_r. destruct (Req_dec_T 0 0); [lra | congruence].
    + destruct (Req_dec_T (2 * i) 0); lra.
  - replace (2 * i) with (i + i) by lra. apply Rpower_plus.
Qed.

Lemma power1_nonneg (x i : R) : 0 <= Np.power1 x i.
Proof.
  unfold Np.power1. destruct (Req_dec_T x 0).
  - destruct (Req_dec_T i 0); lra.
  - unfold Rpower. left. apply exp_pos.
Qed.

Lemma float_value_double (i : pyval) :
  is_int_or_float i = true -> float_value (py_double i) = 2 * float_value i.
Proof.
  destruct i as [|b|z|x| | | |]; try discriminate; intros _.
  - destruct b; simpl; lra.
  - unfold py_double, int_value, float_value. apply mult_IZR.
  - reflexivity.
Qed.

(** The three moments of a band and what the estimator makes of them. *)
Lemma band_moments_bound (f p : list R) (i : R) :
  List.length f = List.length p -> ascending f -> Forall (fun s => 0 <= s) p ->
  0 <= moment f p 0 /\ 0 <= moment f p i /\ 0 <= moment f p (2 * i) /\
  moment f p i * moment f p i <= moment f p 0 * moment f p (2 * i).
Proof.
  intros Hlen Hasc Hp.
  assert (Hfst : map fst (combine f p) = f).
  { clear Hasc Hp. revert p Hlen. induction f as [|x f IH]; intros p Hlen.
    - reflexivity.
    - destruct p as [|s p]; [discriminate|]. simpl. f_equal. apply IH.
      simpl in Hlen. lia. }
  assert (Hs : forall x s, In (x, s) (combine f p) -> 0 <= s).
  { intros x s Hin. apply in_combine_r in Hin.
    rewrite Forall_forall in Hp. apply Hp. exact Hin. }
  pose proof (trapezoid_cauchy_schwarz (fun x => Np.power1 (2 * PI * x) i)
                (combine f p)) as Hcs.
  rewrite Hfst in Hcs. specialize (Hcs Hasc Hs). simpl in Hcs.
  rewrite !moment_trapezoid by exact Hlen.
  rewrite (trapezoid_ext (moment_integrand 0) (fun _ s => s))
    by (intros; unfold moment_integrand; rewrite power1_order_0; lra).
  rewrite (trapezoid_ext (moment_integrand (2 * i))
             (fun x s => Np.power1 (2 * PI * x) i * Np.power1 (2 * PI * x) i * s))
    by (intros; unfold moment_integrand; rewrite power1_double; reflexivity).
  change (moment_integrand i) with (fun x s => Np.power1 (2 * PI * x) i * s).
  destruct Hcs as [H0 [H2 Hcs]]. repeat split; try assumption.
  apply trapezoid_nonneg; [rewrite Hfst; exact Hasc|].
  intros x s Hin. apply Rmult_le_pos; [apply power1_nonneg | eapply Hs; exact Hin].
Qed.

Lemma alpha_of_moments_range (m0 mi m2i : R) :
  0 <= m0 -> 0 <= mi -> 0 <= m2i -> mi * mi <= m0 * m2i ->
  (m0 * m2i = 0 /\ alpha_of_moments [m0; mi; m2i] = Np.NotFinite) \/
  (0 < m0 * m2i /\
   alpha_of_moments [m0; mi; m2i] = Np.Finite (mi / sqrt (m0 * m2i)) /\
   0 <= mi / sqrt (m0 * m2i) <= 1).
Proof.
  intros H0 H1 H2 Hcs.
  assert (Hprod : 0 <= m0 * m2i) by (apply Rmult_le_pos; assumption).
  unfold alpha_of_moments, Np.sqrt. simpl.
  destruct (Rlt_dec (m0 * m2i) 0) as [Hneg|_]; [lra|].
  unfold Np.div.
  destruct (Req_dec (m0 * m2i) 0) as [Hz|Hnz].
  - left. split; [exact Hz|]. rewrite Hz, sqrt_0.
    destruct (Req_dec_T 0 0); [reflexivity | congruence].
  - right. assert (Hpos : 0 < m0 * m2i) by lra.
    assert (Hsq : 0 < sqrt (m0 * m2i)) by (apply sqrt_lt_R0; exact Hpos).
    split; [exact Hpos|]. split.
    + destruct (Req_dec_T (sqrt (m0 * m2i)) 0); [lra | reflexivity].
    + assert (Hle : mi <= sqrt (m0 * m2i)).
      { rewrite <- (sqrt_square mi H1). apply sqrt_le_1_alt. exact Hcs. }
      split.
      * apply Rmult_le_pos; [exact H1 | left; apply Rinv_0_lt_compat; exact Hsq].
      * apply (Rmult_le_reg_r (sqrt (m0 * m2i))); [exact Hsq|].
        unfold Rdiv. rewrite Rmult_assoc, Rinv_l by lra. lra.
Qed.

Lemma is_number_double (i : pyval) :
  is_int_or_float i = true -> is_int_or_float (py_double i) = true.
Proof. destruct i; try discriminate; reflexivity. Qed.

Lemma get_bandwidth_estimator_value (f p : list R) (sp i : pyval) (bs : list nat) :
  is_int_or_float i = true ->
  _get_band_stop_frequency [f; p] sp = Ok bs ->
  get_bandwidth_estimator [f; p] sp i
  = Ok (map (fun k =>
               let bf := slice (band_lo bs k) (band_hi bs k + 1) f in
               let bp := slice (band_lo bs k) (band_hi bs k + 1) p in
               alpha_of_moments
                 [moment bf bp 0; moment bf bp (float_value i);
                  moment bf bp (2 * float_value i)])
            (seq 0 (List.length bs))).
Proof.
  intros Hi Hbs. unfold get_bandwidth_estimator. rewrite Hi.
  rewrite (get_spectral_moments_value f p sp _ bs Hbs)
    by (simpl; rewrite Hi, (is_number_double i Hi); reflexivity).
  simpl. rewrite map_map. rewrite (float_value_double i Hi). reflexivity.
Qed.

(** C6, as the code has it.  For a PSD whose frequencies are
    non-negative and ascending and whose magnitudes are non-negative,
    every band of a splitting that succeeds and every numeric index
    [i >= 0]: the estimator of the band is the number
    [m_i / sqrt(m0 * m_2i)], which lies in [[0, 1]], when
    [m0 * m_2i > 0]; when [m0 * m_2i = 0] (a band of a single row, or
    of zero magnitudes) it is not a finite number.  Nothing is clamped. *)
Theorem bandwidth_estimator_in_unit_interval (f p : list R) (sp i : pyval)
    (bs : list nat) :
  List.length f = List.length p ->
  nondecreasing f -> Forall (fun x => 0 <= x) f -> Forall (fun s => 0 <= s) p ->
  is_int_or_float i = true -> 0 <= float_value i ->
  _get_band_stop_frequency [f; p] sp = Ok bs ->
  exists alphas,
    get_bandwidth_estimator [f; p] sp i = Ok alphas /\
    List.length alphas = List.length bs /\
    forall k, (k < List.length bs)%nat ->
      let bf := slice (band_lo bs k) (band_hi bs k + 1) f in
      let bp := slice (band_lo bs k) (band_hi bs k + 1) p in
      let m0 := moment bf bp 0 in
      let mi := moment bf bp (float_value i) in
      let m2i := moment bf bp (2 * float_value i) in
      (m0 * m2i = 0 /\ nth k alphas Np.NotFinite = Np.NotFinite) \/
      (0 < m0 * m2i /\
       nth k alphas Np.NotFinite = Np.Finite (mi / sqrt (m0 * m2i)) /\
       0 <= mi / sqrt (m0 * m2i) <= 1).
Proof.
  intros Hlen Hf Hf0 Hp Hi Hi0 Hbs.
  eexists. split; [apply get_bandwidth_estimator_value; eassumption|].
  split; [rewrite length_map, length_seq; reflexivity|].
  intros k Hk bf bp m0 mi m2i.
  set (row := fun k : nat =>
         let bf := slice (band_lo bs k) (band_hi bs k + 1) f in
         let bp := slice (band_lo bs k) (band_hi bs k + 1) p in
         alpha_of_moments
           [moment bf bp 0; moment bf bp (float_value i);
            moment bf bp (2 * float_value i)]).
  assert (Hnth : nth k (map row (seq 0 (List.length bs))) Np.NotFinite
                 = alpha_of_moments [m0; mi; m2i]).
  { rewrite (nth_indep _ Np.NotFinite (row 0%nat))
      by (rewrite length_map, length_seq; exact Hk).
    rewrite map_nth, seq_nth by exact Hk. reflexivity. }
  rewrite Hnth.
  destruct (band_moments_bound bf bp (float_value i)) as [H0 [H1 [H2 Hcs]]].
  - apply slice_length_eq. exact Hlen.
  - unfold bf, slice. apply ascending_skipn, ascending_firstn.
    apply nondecreasing_ascending. exact Hf.
  - apply Forall_slice. exact Hp.
  - apply alpha_of_moments_range; assumption.
Qed.

Lemma equalAreaBands_heavy_first_row :
  _get_band_stop_frequency [[0; 1; 2]; [100; 1; 1]]
    (PTuple [PStr "equalAreaBands"; PInt 3]) = Ok [0; 0; 2]%nat.
Proof.
  rewrite get_band_stop_equalArea. unfold _equalAreaBands.
  run_argmin. reflexivity.
Qed.

Lemma moment_single_row (x s i : R) : moment [x] [s] i = 0.
Proof. reflexivity. Qed.

Lemma alpha_of_zero_moments : alpha_of_moments [0; 0; 0] = Np.NotFinite.
Proof.
  destruct (alpha_of_moments_range 0 0 0) as [[_ H]|[H _]]; try lra.
  exact H.
Qed.

(** C6 fails as stated: the magnitudes [100, 1, 1] are positive, yet
    with [EqualAreaBands(3)] the first two bands consist of row 0
    alone, their moments vanish and the estimator [0/0] is not a number
    of [[0, 1]]. *)
Lemma bandwidth_estimator_single_row_band :
  exists a2,
    get_bandwidth_estimator [[0; 1; 2]; [100; 1; 1]]
      (PTuple [PStr "equalAreaBands"; PInt 3]) (PInt 1)
    = Ok [Np.NotFinite; Np.NotFinite; a2].
Proof.
  eexists.
  rewrite (get_bandwidth_estimator_value
             [0; 1; 2] [100; 1; 1] (PTuple [PStr "equalAreaBands"; PInt 3])
             (PInt 1) [0; 0; 2]%nat eq_refl equalAreaBands_heavy_first_row).
  cbn [map seq List.length band_lo band_hi nth Nat.add slice firstn skipn].
  rewrite !moment_single_row, alpha_of_zero_moments. reflexivity.
Qed.

Lemma flat_psd_whole_band :
  _get_band_stop_frequency [[0; 1; 2; 3; 4]; [1; 1; 1; 1; 1]]
    (PTuple [PStr "equalAreaBands"; PInt 1]) = Ok [4%nat].
Proof.
  rewrite get_band_stop_equalArea. unfold _equalAreaBands.
  run_argmin. reflexivity.
Qed.

Lemma flat_frequencies_nondecreasing : nondecreasing [0; 1; 2; 3; 4].
Proof.
  intros i j Hij. simpl in Hij.
  destruct i as [|[|[|[|[|i]]]]]; destruct j as [|[|[|[|[|j]]]]];
    simpl; try lra; lia.
Qed.

(** A run of C6's theorem on the flat PSD over [0..4] as one band. *)
Lemma bandwidth_estimator_in_unit_interval_witness :
  exists alphas,
    get_bandwidth_estimator [[0; 1; 2; 3; 4]; [1; 1; 1; 1; 1]]
      (PTuple [PStr "equalAreaBands"; PInt 1]) (PInt 1) = Ok alphas /\
    List.length alphas = 1%nat.
Proof.
  destruct (bandwidth_estimator_in_unit_interval
              [0; 1; 2; 3; 4] [1; 1; 1; 1; 1]
              (PTuple [PStr "equalAreaBands"; PInt 1]) (PInt 1) [4%nat])
    as [alphas [Hrun [Hlen _]]].
  - reflexivity.
  - exact flat_frequencies_nondecreasing.
  - repeat constructor; lra.
  - repeat constructor; lra.
  - reflexivity.
  - simpl. lra.
  - exact flat_psd_whole_band.
  - exists alphas. split; [exact Hrun | exact Hlen].
Defined.

(** ** The coefficient cache and construction *)

Lemma unpack1_inv {A : Type} (xs : list A) (x : A) :
  unpack1 xs = Ok x -> xs = [x].
Proof.
  destruct xs as [|y [|z xs]]; try discriminate.
  intros H. injection H as ->. reflexivity.
Qed.

Lemma get_spectral_moments_shape (psd0 : Np.ndarray2) (sp : pyval)
    (ms : list pyval) (M : list (list R)) :
  get_spectral_moments psd0 sp ms = Ok M ->
  exists bs,
    _get_band_stop_frequency psd0 sp = Ok bs /\
    List.length M = List.length bs /\
    Forall (fun row => List.length row = List.length ms) M.
Proof.
  unfold get_spectral_moments. intros H. bind_inv H as bs Hbs.
  exists bs. split; [reflexivity|]. split.
  - rewrite (mapM_length _ _ _ H). apply length_seq.
  - eapply mapM_Forall; [|exact H].
    intros k row Hrow. simpl in Hrow. apply (mapM_length _ _ _ Hrow).
Qed.

Lemma single_row {A : Type} (M : list A) :
  List.length M = 1%nat -> exists row, M = [row].
Proof.
  destruct M as [|row [|r M]]; try discriminate. intros _. exists row. reflexivity.
Qed.

(** What [_calculate_coefficients] stores is what the queries return. *)
Lemma calculate_coefficients_queries (psd0 : Np.ndarray2) (sp : pyval)
    (c : Coefficients) :
  _calculate_coefficients psd0 sp = Ok c ->
  get_spectral_moments psd0 sp [PInt 0; PInt 1; PInt 2; PInt 3; PInt 4]
  = Ok [c_moments c] /\
  List.length (c_moments c) = 5%nat /\
  get_nup psd0 sp = Ok [c_nu c] /\
  get_mp psd0 sp = Ok [c_m_p c] /\
  get_bandwidth_estimator psd0 sp (PFloat (3 / 4)) = Ok [c_alpha075 c] /\
  get_bandwidth_estimator psd0 sp (PInt 1) = Ok [c_alpha1 c] /\
  get_bandwidth_estimator psd0 sp (PInt 2) = Ok [c_alpha2 c].
Proof.
  unfold _calculate_coefficients. intros H.
  bind_inv H as M HM.
  bind_inv H as nu0 Hnu. bind_inv Hnu as rnu Env. apply unpack1_inv in Hnu.
  bind_inv H as mp0 Hmp. bind_inv Hmp as rmp Emp. apply unpack1_inv in Hmp.
  bind_inv H as a075 H075. bind_inv H075 as r075 E075. apply unpack1_inv in H075.
  bind_inv H as al1 H1. bind_inv H1 as r1 E1. apply unpack1_inv in H1.
  bind_inv H as al2 H2. bind_inv H2 as r2 E2. apply unpack1_inv in H2.
  injection H as <-. simpl. subst.
  destruct (get_spectral_moments_shape _ _ _ _ HM) as [bs [Hbs [HlenM Hrows]]].
  assert (Hone : List.length M = 1%nat).
  { unfold get_nup in Env. bind_inv Env as M2 HM2. injection Env as Env.
    destruct (get_spectral_moments_shape _ _ _ _ HM2) as [bs' [Hbs' [Hlen' _]]].
    rewrite Hbs in Hbs'. injection Hbs' as <-.
    rewrite HlenM, <- Hlen'. rewrite <- (length_map root_ratio), Env. reflexivity. }
  destruct (single_row M Hone) as [row ->].
  simpl. rewrite app_nil_r.
  repeat split; try reflexivity.
  inversion Hrows as [|? ? Hrow _]. exact Hrow.
Qed.

Lemma single_band_boundary (f p : list R) :
  p <> [] ->
  exists b, _get_band_stop_frequency [f; p] single_band = Ok [b].
Proof.
  intros Hp.
  destruct (equalAreaBands_run f p 1 Hp) as [idx [Hrun [Hlen _]]].
  destruct (single_row idx Hlen) as [b ->].
  exists b. unfold single_band. rewrite get_band_stop_equalArea, Hrun. reflexivity.
Qed.

(** On a PSD with at least one row the coefficients are computed. *)
Lemma calculate_coefficients_ok (f p : list R) :
  p <> [] ->
  exists c, _calculate_coefficients [f; p] single_band = Ok c.
Proof.
  intros Hp. destruct (single_band_boundary f p Hp) as [b Hb].
  unfold _calculate_coefficients, get_nup, get_mp.
  rewrite !(get_spectral_moments_value f p single_band _ [b] Hb) by reflexivity.
  rewrite !(get_bandwidth_estimator_value f p single_band _ [b]) by
    (reflexivity || exact Hb).
  cbn [bind map seq List.length unpack1]. eexists. reflexivity.
Qed.

Lemma with_coefficients_inv (d : option (list R)) (dt0 t0 : option Np.npfloat)
    (tl0 : option (option Z)) (psd0 : Np.ndarray2) (sd : SpectralData) :
  with_coefficients d dt0 t0 tl0 psd0 = Ok sd ->
  exists c,
    _calculate_coefficients psd0 single_band = Ok c /\
    sd = mkSpectralData d dt0 t0 tl0 psd0 single_band
           (c_moments c) (c_nu c) (c_m_p c) (c_alpha075 c) (c_alpha1 c)
           (c_alpha2 c).
Proof.
  unfold with_coefficients. fold single_band. intros H.
  bind_inv H as c Hc. injection H as <-. exists c. split; reflexivity.
Qed.

Section Construction.

Variable welch : list R -> R -> Z -> result (list R * list R).
Variable Generator : Type.
Variable random_gaussian :
  Z -> list R -> Np.npfloat -> Generator -> result (list R).
Variable PSDgen_get_PSD : Np.ndarray2.
Variable _readf : string -> result (list R).

Let init := __init__ welch Generator random_gaussian PSDgen_get_PSD _readf.

Lemma from_time_history_inv (samples : list R) (b : pyval) (nperseg : Z)
    (trim : option Z) (sd : SpectralData) :
  from_time_history welch samples b nperseg trim = Ok sd ->
  exists dt0 t0 psd0,
    with_coefficients (Some samples) (Some dt0) (Some t0) (Some trim) psd0 = Ok sd.
Proof.
  unfold from_time_history. intros H.
  destruct (Req_dec_T (float_value b) 0); [discriminate|].
  bind_inv H as psd0 Hpsd. eauto.
Qed.

Lemma from_psd_inv (stored : Np.ndarray2) (ps fs : list R)
    (kw : kwargs Generator) (sd : SpectralData) :
  from_psd Generator random_gaussian stored ps fs kw = Ok sd ->
  (kw_rg kw = None /\ with_coefficients None None None None stored = Ok sd) \/
  (kw_rg kw <> None /\
   exists d dt0 t0,
     with_coefficients (Some d) (Some dt0) (Some t0) None stored = Ok sd).
Proof.
  unfold from_psd. intros H. destruct (kw_rg kw) as [rg|].
  - right. split; [discriminate|].
    bind_inv H as h Hh. destruct h as [[d dt0] t0]. eauto.
  - left. split; [reflexivity | exact H].
Qed.

(** Every construction that succeeds went through one of the two kinds
    of branch. *)
Lemma init_inv (input : pyval) (nperseg : Z) (trim : option Z)
    (kw : kwargs Generator) (sd : SpectralData) :
  init input nperseg trim kw = Ok sd ->
  (is_time_history (effective_input input kw) = true /\
   exists samples b,
     from_time_history welch samples b nperseg trim = Ok sd) \/
  (is_time_history (effective_input input kw) = false /\
   exists stored ps fs,
     from_psd Generator random_gaussian stored ps fs kw = Ok sd).
Proof.
  unfold init, __init__. fold (effective_input input kw).
  generalize (effective_input input kw). clear input. intros input H.
  bind_inv H as default Hdef.
  destruct default.
  - right. split.
    + destruct input as [| | | |s| |l|a]; try reflexivity; discriminate.
    + bind_inv H as ps Hps. bind_inv H as fs Hfs. eauto.
  - destruct input as [| | | | | |l|]; try discriminate.
    destruct l as [|x [|b [|z l]]]; try discriminate.
    + destruct x; discriminate.
    + destruct x as [| | | |path| | |a]; try discriminate.
      * simpl. destruct (is_int_or_float b) eqn:Hb; [|discriminate].
        left. split; [reflexivity|].
        bind_inv H as samples Hs. eauto.
      * simpl. destruct (is_int_or_float b) eqn:Hb.
        -- left. split; [reflexivity|]. eauto.
        -- right. split; [reflexivity|].
           destruct b; try discriminate.
           bind_inv H as stored Hst. eauto.
    + destruct x; discriminate.
Qed.

Lemma init_coefficients (input : pyval) (nperseg : Z) (trim : option Z)
    (kw : kwargs Generator) (sd : SpectralData) :
  init input nperseg trim kw = Ok sd ->
  exists d dt0 t0 tl0, with_coefficients d dt0 t0 tl0 (psd sd) = Ok sd.
Proof.
  intros H. apply init_inv in H.
  destruct H as [[_ [samples [b H]]] | [_ [stored [ps [fs H]]]]].
  - apply from_time_history_inv in H. destruct H as [dt0 [t0 [psd0 H]]].
    destruct (with_coefficients_inv _ _ _ _ _ _ H) as [c [_ ->]]. simpl.
    rewrite <- H. eauto.
  - apply from_psd_inv in H.
    destruct H as [[_ H] | [_ [d [dt0 [t0 H]]]]];
      destruct (with_coefficients_inv _ _ _ _ _ _ H) as [c [_ ->]]; simpl;
      rewrite <- H; eauto.
Qed.

(** A PSD and its frequencies, given as arrays without the keywords
    [dt] and [rg]. *)
Lemma init_from_psd (ps fs : list R) (nperseg : Z) (trim : option Z)
    (kw : kwargs Generator) :
  kw_dt kw = None -> kw_rg kw = None ->
  ps <> [] -> List.length fs = List.length ps ->
  exists c,
    _calculate_coefficients [fs; ps] single_band = Ok c /\
    init (PTuple [PArray ps; PArray fs]) nperseg trim kw
    = Ok (mkSpectralData None None None None [fs; ps] single_band
            (c_moments c) (c_nu c) (c_m_p c) (c_alpha075 c) (c_alpha1 c)
            (c_alpha2 c)).
Proof.
  intros Hdt Hrg Hps Hlen.
  destruct (calculate_coefficients_ok fs ps Hps) as [c Hc].
  exists c. split; [exact Hc|].
  unfold init, __init__. rewrite Hdt. simpl.
  unfold stack_columns. rewrite Hlen, Nat.eqb_refl. simpl.
  unfold from_psd. rewrite Hrg. unfold with_coefficients.
  fold single_band. unfold Np.column_stack. rewrite Hc. reflexivity.
Qed.

End Construction.

Section Cache.

Variable welch : list R -> R -> Z -> result (list R * list R).
Variable Generator : Type.
Variable random_gaussian :
  Z -> list R -> Np.npfloat -> Generator -> result (list R).
Variable PSDgen_get_PSD : Np.ndarray2.
Variable _readf : string -> result (list R).

(** After any construction that succeeds, the policy kept by the
    container is [('equalAreaBands', 1)], and each cached coefficient
    is the single entry that the corresponding query returns for that
    policy on the stored PSD: the five moments [m0..m4] are the one row
    of [get_spectral_moments], and [nu], [m_p], [alpha075], [alpha1],
    [alpha2] are the one element of [get_nup], [get_mp] and
    [get_bandwidth_estimator] at 0.75, 1 and 2. *)
Lemma cached_coefficients_are_single_band_queries (input : pyval)
    (nperseg : Z) (trim : option Z) (kw : kwargs Generator) (sd : SpectralData) :
  __init__ welch Generator random_gaussian PSDgen_get_PSD _readf
    input nperseg trim kw = Ok sd ->
  PSD_splitting sd = PTuple [PStr "equalAreaBands"; PInt 1] /\
  get_spectral_moments (psd sd) (PSD_splitting sd)
    [PInt 0; PInt 1; PInt 2; PInt 3; PInt 4] = Ok [moments sd] /\
  List.length (moments sd) = 5%nat /\
  get_nup (psd sd) (PSD_splitting sd) = Ok [nu sd] /\
  get_mp (psd sd) (PSD_splitting sd) = Ok [m_p sd] /\
  get_bandwidth_estimator (psd sd) (PSD_splitting sd) (PFloat (3 / 4))
  = Ok [alpha075 sd] /\
  get_bandwidth_estimator (psd sd) (PSD_splitting sd) (PInt 1) = Ok [alpha1 sd] /\
  get_bandwidth_estimator (psd sd) (PSD_splitting sd) (PInt 2) = Ok [alpha2 sd].
Proof.
  intros H.
  destruct (init_coefficients _ _ _ _ _ _ _ _ _ _ H) as [d [dt0 [t0 [tl0 Hw]]]].
  destruct (with_coefficients_inv _ _ _ _ _ _ Hw) as [c [Hc Hsd]].
  rewrite Hsd. simpl. rewrite Hsd in Hc. simpl in Hc.
  split; [reflexivity|]. apply calculate_coefficients_queries. exact Hc.
Qed.

(** C10.  Constructed from a pair (PSD array, frequency array) of equal
    lengths with at least one row, and without the keywords [dt] and
    [rg], the container holds the PSD and the coefficients computed
    from it, while [data], [dt] and [t] are unset and reading them
    raises.  In any construction that succeeds the three attributes
    are set exactly when the input is a time history or the keyword
    [rg] is present. *)
Theorem psd_input_leaves_time_history_unset :
  (forall (ps fs : list R) (nperseg : Z) (trim : option Z) (kw : kwargs Generator),
     kw_dt kw = None -> kw_rg kw = None ->
     ps <> [] -> List.length fs = List.length ps ->
     exists sd c,
       __init__ welch Generator random_gaussian PSDgen_get_PSD _readf
         (PTuple [PArray ps; PArray fs]) nperseg trim kw = Ok sd /\
       psd sd = [fs; ps] /\
       _calculate_coefficients [fs; ps] (PSD_splitting sd) = Ok c /\
       moments sd = c_moments c /\ nu sd = c_nu c /\ m_p sd = c_m_p c /\
       alpha075 sd = c_alpha075 c /\ alpha1 sd = c_alpha1 c /\
       alpha2 sd = c_alpha2 c /\
       getattr "data" (data sd) = Err (AttributeError "data") /\
       getattr "dt" (dt sd) = Err (AttributeError "dt") /\
       getattr "t" (t sd) = Err (AttributeError "t")) /\
  (forall (input : pyval) (nperseg : Z) (trim : option Z) (kw : kwargs Generator)
          (sd : SpectralData),
     __init__ welch Generator random_gaussian PSDgen_get_PSD _readf
       input nperseg trim kw = Ok sd ->
     if is_time_history (effective_input input kw)
        || match kw_rg kw with Some _ => true | None => false end
     then data sd <> None /\ dt sd <> None /\ t sd <> None
     else data sd = None /\ dt sd = None /\ t sd = None).
Proof.
  split.
  - intros ps fs nperseg trim kw Hdt Hrg Hps Hlen.
    destruct (init_from_psd welch Generator random_gaussian PSDgen_get_PSD _readf
                ps fs nperseg trim kw Hdt Hrg Hps Hlen) as [c [Hc Hinit]].
    eexists. exists c. split; [exact Hinit|]. simpl.
    repeat split; try reflexivity. exact Hc.
  - intros input nperseg trim kw sd H.
    apply init_inv in H.
    destruct H as [[Hth [samples [b H]]] | [Hth [stored [ps [fs H]]]]];
      rewrite Hth.
    + apply from_time_history_inv in H. destruct H as [dt0 [t0 [psd0 H]]].
      destruct (with_coefficients_inv _ _ _ _ _ _ H) as [c [_ ->]]. simpl.
      repeat split; discriminate.
    + apply from_psd_inv in H.
      destruct H as [[Hrg H] | [Hrg [d [dt0 [t0 H]]]]];
        destruct (with_coefficients_inv _ _ _ _ _ _ H) as [c [_ ->]]; simpl.
      * rewrite Hrg. repeat split; reflexivity.
      * destruct (kw_rg kw); [|congruence]. repeat split; discriminate.
Qed.

End Cache.

(** A run of C10's theorem on the same input. *)
Lemma psd_input_leaves_time_history_unset_witness :
  exists sd,
    __init__ no_welch unit no_random_gaussian [] no_file
      (PTuple [PArray [1; 1; 1; 1; 1]; PArray [0; 1; 2; 3; 4]]) 1280%Z None
      (mkKwargs unit None None) = Ok sd /\
    psd sd = [[0; 1; 2; 3; 4]; [1; 1; 1; 1; 1]] /\
    getattr "data" (data sd) = Err (AttributeError "data").
Proof.
  destruct (proj1 (psd_input_leaves_time_history_unset
                     no_welch unit no_random_gaussian [] no_file)
              [1; 1; 1; 1; 1] [0; 1; 2; 3; 4] 1280%Z None (mkKwargs unit None None)
              eq_refl eq_refl ltac:(discriminate) eq_refl)
    as [sd [c [Hinit [Hpsd [_ [_ [_ [_ [_ [_ [_ [Hdata _]]]]]]]]]]]].
  exists sd. repeat split; assumption.
Defined.

(** ** Trimming the estimated PSD *)

Lemma Int_part_IZR (z : Z) (r : R) : r = IZR z -> Int_part r = z.
Proof.
  intros ->. symmetry. apply Int_part_spec. split; lra.
Qed.

(** With a trim length the stored array is cut, along both axes, at
    [floor(trim * fs / nperseg)]. *)
Lemma calculate_psd_trim (welch : list R -> R -> Z -> result (list R * list R))
    (samples f p : list R) (fs : R) (nperseg trim : Z) :
  welch samples fs nperseg = Ok (f, p) ->
  List.length f = List.length p -> nperseg <> 0%Z ->
  _calculate_psd welch samples fs nperseg (Some trim)
  = Ok (slice_to (Int_part (IZR trim * (fs / IZR nperseg)))
          [slice_to (Int_part (IZR trim * (fs / IZR nperseg))) f;
           slice_to (Int_part (IZR trim * (fs / IZR nperseg))) p]).
Proof.
  intros Hw Hlen Hn. unfold _calculate_psd. rewrite Hw. simpl.
  unfold stack_columns. rewrite Hlen, Nat.eqb_refl. simpl.
  apply Z.eqb_neq in Hn. rewrite Hn. reflexivity.
Qed.

(** C8 at a failing input.  With the sampling interval 1/16, segments
    of 8 samples and the trim length 2, the stored PSD keeps the first
    four bins of the Welch estimate, not the first two. *)
Theorem calculate_psd_trim_keeps_four_rows (samples : list R)
    (p0 p1 p2 p3 p4 : R) :
  _calculate_psd (welch_five_bins p0 p1 p2 p3 p4) samples (1 / (1 / 16)) 8 (Some 2%Z)
  = Ok [[0; 2; 4; 6]; [p0; p1; p2; p3]].
Proof.
  rewrite (calculate_psd_trim _ samples [0; 2; 4; 6; 8] [p0; p1; p2; p3; p4])
    by (reflexivity || discriminate).
  rewrite (Int_part_IZR 4) by (simpl; field).
  reflexivity.
Qed.

(** With the trim length 1 and a bin spacing of 1 Hz the magnitude
    column is cut away with the rows, and construction fails. *)
Lemma trim_to_one_bin_loses_magnitudes (samples : list R) (p0 p1 p2 : R) :
  _calculate_psd (welch_three_bins p0 p1 p2) samples (1 / (1 / 4)) 4 (Some 1%Z)
  = Ok [[0]] /\
  __init__ (welch_three_bins p0 p1 p2) unit no_random_gaussian [] no_file
    (PTuple [PArray samples; PFloat (1 / 4)]) 4 (Some 1%Z) (mkKwargs unit None None)
  = Err (ValueError "Unknown splitting method: equalAreaBands").
Proof.
  assert (Hpsd : _calculate_psd (welch_three_bins p0 p1 p2) samples
                   (1 / (1 / 4)) 4 (Some 1%Z) = Ok [[0]]).
  { rewrite (calculate_psd_trim _ samples [0; 1; 2] [p0; p1; p2])
      by (reflexivity || discriminate).
    rewrite (Int_part_IZR 1) by (simpl; field).
    reflexivity. }
  split; [exact Hpsd|].
  unfold __init__.
  cbn [kw_dt is_default_input bind is_int_or_float].
  unfold from_time_history. cbn [float_value].
  destruct (Req_dec_T (1 / 4) 0) as [E|_]; [lra|].
  rewrite Hpsd. reflexivity.
Qed.

(** ** The single band and the whole PSD *)

Lemma slice_all {A : Type} (l : list A) :
  slice 0 (List.length l - 1 + 1) l = l.
Proof.
  unfold slice. simpl. apply firstn_all2. lia.
Qed.

(** With non-negative magnitudes of which the last is positive, the
    band of [('equalAreaBands', 1)] is the whole PSD, and the cached
    moments are the moments of all its rows. *)
Lemma single_band_is_whole_psd (f p : list R) (i : pyval) :
  p <> [] -> List.length f = List.length p ->
  Forall (fun s => 0 <= s) p -> 0 < last p 0 ->
  is_int_or_float i = true ->
  _get_band_stop_frequency [f; p] single_band = Ok [(List.length p - 1)%nat] /\
  band_rows [f; p] [(List.length p - 1)%nat] 0 = [f; p] /\
  get_spectral_moments [f; p] single_band [i] = Ok [[moment f p (float_value i)]].
Proof.
  intros Hne Hlen Hp Hlast Hi.
  assert (Hb : _get_band_stop_frequency [f; p] single_band
               = Ok [(List.length p - 1)%nat]).
  { destruct (equalAreaBands_run f p 1 Hne) as [idx [Hrun [Hl Hall]]].
    destruct (single_row idx Hl) as [b ->].
    unfold single_band. rewrite get_band_stop_equalArea, Hrun. do 2 f_equal.
    apply (nearest_first_unique (Np.cumsum p) (Np.sum p)).
    - specialize (Hall 0%nat ltac:(simpl; lia)). unfold area_boundary in Hall.
      simpl in Hall.
      replace (1 * Np.sum p / 1) with (Np.sum p) in Hall by field.
      exact Hall.
    - apply nearest_total_is_last; assumption. }
  assert (Hrows : band_rows [f; p] [(List.length p - 1)%nat] 0 = [f; p]).
  { rewrite band_rows_slices. unfold band_lo, band_hi. cbn [nth].
    rewrite (slice_all p). rewrite <- Hlen. rewrite (slice_all f). reflexivity. }
  split; [exact Hb|]. split; [exact Hrows|].
  rewrite (get_spectral_moments_value f p single_band [i] _ Hb)
    by (simpl; rewrite Hi; reflexivity).
  rewrite band_rows_slices in Hrows. injection Hrows as Hf' Hp'.
  cbn [map seq List.length band_lo] in *. rewrite Hf', Hp'. reflexivity.
Qed.

(** The scenario of the specification: a flat PSD of magnitude 1 over
    the frequencies [0..4] has [m0 = 4] under [('equalAreaBands', 1)]. *)
Example flat_psd_m0 :
  get_spectral_moments [[0; 1; 2; 3; 4]; [1; 1; 1; 1; 1]] single_band [PInt 0]
  = Ok [[4]].
Proof.
  destruct (single_band_is_whole_psd [0; 1; 2; 3; 4] [1; 1; 1; 1; 1] (PInt 0))
    as [_ [_ H]]; try reflexivity.
  - discriminate.
  - repeat constructor; lra.
  - simpl. lra.
  - rewrite H. do 3 f_equal.
    rewrite moment_trapezoid by reflexivity. simpl.
    unfold moment_integrand. rewrite !power1_order_0. lra.
Qed.

(** When the magnitudes end in zeros the band of [('equalAreaBands', 1)]
    stops at the first row that carries the whole sum: for the
    magnitudes [1, 1, 0] it is rows 0..1, and its [m0] is 1 while the
    trapezoidal integral over all three rows is 3/2. *)
Example trailing_zero_band :
  get_spectral_moments [[0; 1; 2]; [1; 1; 0]] single_band [PInt 0] = Ok [[1]] /\
  moment [0; 1; 2] [1; 1; 0] 0 = 3 / 2.
Proof.
  assert (Hb : _get_band_stop_frequency [[0; 1; 2]; [1; 1; 0]] single_band
               = Ok [1%nat]).
  { unfold single_band. rewrite get_band_stop_equalArea. unfold _equalAreaBands.
    run_argmin. reflexivity. }
  split.
  - rewrite (get_spectral_moments_value _ _ single_band [PInt 0] _ Hb)
      by reflexivity.
    cbn [map seq List.length band_lo band_hi nth Nat.add slice firstn skipn
         float_value].
    do 3 f_equal. rewrite moment_trapezoid by reflexivity. simpl.
    unfold moment_integrand. rewrite !power1_order_0. lra.
  - rewrite moment_trapezoid by reflexivity. simpl.
    unfold moment_integrand. rewrite !power1_order_0. lra.
Qed.

(** C5 at a failing input.  Constructed from the magnitudes [1, 1, 0]
    over the frequencies [0, 1, 2], the container caches what the
    queries return for [('equalAreaBands', 1)]; but the band of that
    policy ends at row 1, the first row that carries the whole sum, and
    is not the entire PSD: the cached [m0] is 1, while [m0] of the
    entire stored PSD, the trapezoidal integral of the magnitudes over
    all three rows, is 3/2.  The arithmetic is exact on this input, and
    the boundary is row 1 on doubles as well. *)
Theorem cached_moments_stop_before_trailing_zeros
    (welch : list R -> R -> Z -> result (list R * list R)) (Generator : Type)
    (random_gaussian : Z -> list R -> Np.npfloat -> Generator -> result (list R))
    (PSDgen_get_PSD : Np.ndarray2) (_readf : string -> result (list R))
    (nperseg : Z) (trim : option Z) :
  exists sd,
    __init__ welch Generator random_gaussian PSDgen_get_PSD _readf
      (PTuple [PArray [1; 1; 0]; PArray [0; 1; 2]]) nperseg trim
      (mkKwargs Generator None None) = Ok sd /\
    psd sd = [[0; 1; 2]; [1; 1; 0]] /\
    PSD_splitting sd = PTuple [PStr "equalAreaBands"; PInt 1] /\
    get_spectral_moments (psd sd) (PSD_splitting sd)
      [PInt 0; PInt 1; PInt 2; PInt 3; PInt 4] = Ok [moments sd] /\
    _get_band_stop_frequency (psd sd) (PSD_splitting sd) = Ok [1%nat] /\
    nth 0 (moments sd) 0 = 1 /\
    _get_spectral_moment (psd sd) (PInt 0) = Ok (3 / 2) /\
    trapezoid_integral (fun _ s => s) (combine [0; 1; 2] [1; 1; 0]) = 3 / 2 /\
    F64._equalAreaBands F64.sum_in_order [[0; 1; 2]; [1; 1; 0]]%float (F64.PInt 1)
    = Ok [1%nat].
Proof.
  destruct (init_from_psd welch Generator random_gaussian PSDgen_get_PSD _readf
              [1; 1; 0] [0; 1; 2] nperseg trim (mkKwargs Generator None None)
              eq_refl eq_refl ltac:(discriminate) eq_refl) as [c [Hc Hinit]].
  eexists. split; [exact Hinit|]. cbn [psd PSD_splitting moments].
  fold single_band.
  assert (Hb : _get_band_stop_frequency [[0; 1; 2]; [1; 1; 0]] single_band
               = Ok [1%nat]).
  { unfold single_band. rewrite get_band_stop_equalArea. unfold _equalAreaBands.
    run_argmin. reflexivity. }
  destruct (calculate_coefficients_queries _ _ _ Hc) as [Hq _].
  split; [reflexivity|]. split; [reflexivity|]. split; [exact Hq|].
  split; [exact Hb|]. split; [|split; [|split]].
  4: { vm_compute. reflexivity. }
  - rewrite (get_spectral_moments_value _ _ single_band _ _ Hb) in Hq
      by reflexivity.
    injection Hq as Hq. rewrite <- Hq.
    cbn [map seq List.length band_lo band_hi nth Nat.add slice firstn skipn
         float_value].
    rewrite moment_trapezoid by reflexivity. simpl.
    unfold moment_integrand. rewrite !power1_order_0. lra.
  - rewrite get_spectral_moment_value by reflexivity. f_equal.
    rewrite moment_trapezoid by reflexivity. simpl.
    unfold moment_integrand. rewrite !power1_order_0. lra.
  - simpl. lra.
Qed.

(** * Further properties of the moment engine *)

Lemma mapM_first_error {A B : Type} (f : A -> result B) (e : exn) (l : list A) :
  (forall a, In a l -> (exists b, f a = Ok b) \/ f a = Err e) ->
  (exists a, In a l /\ f a = Err e) ->
  mapM f l = Err e.
Proof.
  induction l as [|a l IH]; intros Hall [x [Hin Hx]]; [destruct Hin|].
  simpl. destruct (Hall a (or_introl eq_refl)) as [[b Hb]|Hb].
  - rewrite Hb. simpl. rewrite IH; [reflexivity | | ].
    + intros y Hy. apply Hall. right. exact Hy.
    + destruct Hin as [->|Hin]; [congruence|]. exists x. split; assumption.
  - rewrite Hb. reflexivity.
Qed.

(** The moment of a band of at most one row is zero. *)
Lemma moment_short (f p : list R) (i : R) :
  (List.length f <= 1)%nat -> moment f p i = 0.
Proof.
  intros H. destruct f as [|x [|y f]]; [reflexivity | | simpl in H; lia].
  unfold moment. apply trapz_single.
Qed.

(** X1.  A non-numeric moment order is refused with the [TypeError] of
    [_get_spectral_moment] as soon as there is one band to integrate;
    a splitting without any band (for instance [('equalAreaBands', 0)])
    returns the empty matrix and never looks at the orders. *)
Theorem spectral_moments_non_numeric_order (f p : list R) (sp : pyval)
    (ms : list pyval) (bs : list nat) :
  _get_band_stop_frequency [f; p] sp = Ok bs ->
  forallb is_int_or_float ms = false ->
  get_spectral_moments [f; p] sp ms
  = match bs with
    | [] => Ok []
    | _ :: _ => Err order_type_error
    end.
Proof.
  intros Hbs Hms. unfold get_spectral_moments. rewrite Hbs. cbn [bind].
  destruct bs as [|b bs]; [reflexivity|].
  cbn [List.length seq mapM].
  rewrite (mapM_first_error _ order_type_error ms); [reflexivity | | ].
  - intros i _. rewrite band_rows_slices. unfold _get_spectral_moment.
    destruct (is_int_or_float i); [left; eexists; reflexivity | right; reflexivity].
  - assert (Hex : exists i, In i ms /\ is_int_or_float i = false).
    { clear -Hms. induction ms as [|i ms IH]; [discriminate|].
      simpl in Hms. destruct (is_int_or_float i) eqn:Hi.
      - destruct (IH Hms) as [x [Hin Hx]]. exists x. split; [right|]; assumption.
      - exists i. split; [left; reflexivity | exact Hi]. }
    destruct Hex as [i [Hin Hi]]. exists i. split; [exact Hin|].
    unfold _get_spectral_moment. rewrite Hi. reflexivity.
Qed.

(** A run on the flat PSD over [0..4]: one band and the order ['2']. *)
Lemma spectral_moments_non_numeric_order_witness :
  get_spectral_moments [[0; 1; 2; 3; 4]; [1; 1; 1; 1; 1]] single_band
    [PInt 0; PStr "2"] = Err order_type_error /\
  get_spectral_moments [[0; 1; 2; 3; 4]; [1; 1; 1; 1; 1]]
    (PTuple [PStr "equalAreaBands"; PInt 0]) [PInt 0; PStr "2"] = Ok [].
Proof.
  split.
  - apply (spectral_moments_non_numeric_order
             [0; 1; 2; 3; 4] [1; 1; 1; 1; 1] single_band [PInt 0; PStr "2"]
             [4%nat] flat_psd_whole_band eq_refl).
  - apply (spectral_moments_non_numeric_order
             [0; 1; 2; 3; 4] [1; 1; 1; 1; 1]
             (PTuple [PStr "equalAreaBands"; PInt 0]) [PInt 0; PStr "2"]
             [] eq_refl eq_refl).
Defined.

(** X2.  A band whose boundary does not lie after its first row (a repeated
    or descending boundary, or a first boundary at row 0) has at most
    one row, and every moment of it is zero. *)
Theorem degenerate_band_has_zero_moments (f p : list R) (sp : pyval)
    (ms : list pyval) (bs : list nat) (k : nat) :
  _get_band_stop_frequency [f; p] sp = Ok bs ->
  forallb is_int_or_float ms = true ->
  (k < List.length bs)%nat ->
  (band_hi bs k <= band_lo bs k)%nat ->
  exists M,
    get_spectral_moments [f; p] sp ms = Ok M /\
    nth k M [] = map (fun _ => 0) ms.
Proof.
  intros Hbs Hms Hk Hdeg. eexists.
  split; [apply get_spectral_moments_value; eassumption|].
  set (row := fun k : nat =>
         map (fun i => moment (slice (band_lo bs k) (band_hi bs k + 1) f)
                              (slice (band_lo bs k) (band_hi bs k + 1) p)
                              (float_value i)) ms).
  rewrite (nth_indep _ [] (row 0%nat)) by (rewrite length_map, length_seq; exact Hk).
  rewrite (map_nth row), seq_nth by exact Hk. unfold row. simpl.
  apply map_ext. intros i. apply moment_short.
  unfold slice. rewrite length_skipn, length_firstn. lia.
Qed.

(** A run on targets given in descending order: the second band is empty. *)
Lemma degenerate_band_has_zero_moments_witness :
  exists M,
    get_spectral_moments [[0; 1; 2; 3; 4]; [1; 1; 1; 1; 1]]
      (PTuple [PStr "userDefinedBands"; PList [PInt 3; PInt 1]])
      [PInt 0; PInt 2] = Ok M /\
    nth 1 M [] = [0; 0].
Proof.
  assert (Hbs : _get_band_stop_frequency [[0; 1; 2; 3; 4]; [1; 1; 1; 1; 1]]
                  (PTuple [PStr "userDefinedBands"; PList [PInt 3; PInt 1]])
                = Ok [3; 1]%nat).
  { rewrite get_band_stop_userDefined. unfold _userDefinedBands.
    run_argmin. reflexivity. }
  apply (degenerate_band_has_zero_moments
           [0; 1; 2; 3; 4] [1; 1; 1; 1; 1] _ [PInt 0; PInt 2] [3; 1]%nat 1%nat
           Hbs eq_refl); unfold band_hi, band_lo; simpl; lia.
Defined.

(** X3.  For a PSD with non-negative ascending frequencies and non-negative
    magnitudes, and orders that are numbers [>= 0], the moment matrix
    has one row per band and one column per order, and no entry is
    negative. *)
Theorem spectral_moments_shape_nonneg (f p : list R) (sp : pyval)
    (ms : list pyval) (bs : list nat) :
  List.length f = List.length p ->
  nondecreasing f -> Forall (fun x => 0 <= x) f -> Forall (fun s => 0 <= s) p ->
  forallb is_int_or_float ms = true ->
  Forall (fun i => 0 <= float_value i) ms ->
  _get_band_stop_frequency [f; p] sp = Ok bs ->
  exists M,
    get_spectral_moments [f; p] sp ms = Ok M /\
    List.length M = List.length bs /\
    Forall (fun row => List.length row = List.length ms /\
                       Forall (fun m => 0 <= m) row) M.
Proof.
  intros Hlen Hf Hf0 Hp Hms Hms0 Hbs. eexists.
  split; [apply get_spectral_moments_value; eassumption|].
  split; [rewrite length_map, length_seq; reflexivity|].
  apply Forall_forall. intros row Hrow.
  apply in_map_iff in Hrow. destruct Hrow as [k [<- _]].
  split; [apply length_map|].
  apply Forall_forall. intros m Hm.
  apply in_map_iff in Hm. destruct Hm as [i [<- _]].
  apply (band_moments_bound _ _ (float_value i)).
  - apply slice_length_eq. exact Hlen.
  - unfold slice. apply ascending_skipn, ascending_firstn.
    apply nondecreasing_ascending. exact Hf.
  - apply Forall_slice. exact Hp.
Qed.

Lemma flat_nonneg : Forall (fun x => 0 <= x) [0; 1; 2; 3; 4].
Proof. repeat constructor; lra. Qed.

Lemma ones_nonneg : Forall (fun x => 0 <= x) [1; 1; 1; 1; 1].
Proof. repeat constructor; lra. Qed.

(** A run on the flat PSD over [0..4] with the orders 0 and 0.75. *)
Lemma spectral_moments_shape_nonneg_witness :
  exists M,
    get_spectral_moments [[0; 1; 2; 3; 4]; [1; 1; 1; 1; 1]] single_band
      [PInt 0; PFloat (3 / 4)] = Ok M /\
    List.length M = 1%nat.
Proof.
  destruct (spectral_moments_shape_nonneg
              [0; 1; 2; 3; 4] [1; 1; 1; 1; 1] single_band
              [PInt 0; PFloat (3 / 4)] [4%nat] eq_refl
              flat_frequencies_nondecreasing flat_nonneg ones_nonneg eq_refl)
    as [M [Hrun [Hlen _]]].
  - repeat constructor; simpl; lra.
  - exact flat_psd_whole_band.
  - exists M. split; [exact Hrun | exact Hlen].
Defined.

(** ** Moments add up over the bands *)

Lemma trapezoid_app (g : R -> R -> R) (l1 l2 : list (R * R)) (x : R * R) :
  trapezoid_integral g (l1 ++ [x]) + trapezoid_integral g (x :: l2)
  = trapezoid_integral g (l1 ++ x :: l2).
Proof.
  induction l1 as [|[a0 s0] l1 IH].
  - destruct x as [x0 t0]. simpl. lra.
  - destruct l1 as [|[a1 s1] l1].
    + destruct x as [x0 t0]. simpl. lra.
    + change (trapezoid_integral g (((a0, s0) :: (a1, s1) :: l1) ++ [x]))
        with ((a1 - a0) * (g a0 s0 + g a1 s1) / 2
              + trapezoid_integral g (((a1, s1) :: l1) ++ [x])).
      change (trapezoid_integral g (((a0, s0) :: (a1, s1) :: l1) ++ x :: l2))
        with ((a1 - a0) * (g a0 s0 + g a1 s1) / 2
              + trapezoid_integral g (((a1, s1) :: l1) ++ x :: l2)).
      lra.
Qed.

Lemma slice_split {A : Type} (a b c : nat) (l : list A) :
  (a <= b <= c)%nat -> slice a c l = slice a b l ++ slice b c l.
Proof.
  intros H. unfold slice.
  assert (Hfirst : firstn c l = firstn b l ++ skipn b (firstn c l)).
  { rewrite <- (firstn_skipn b (firstn c l)) at 1.
    rewrite firstn_firstn. replace (Nat.min b c) with b by lia. reflexivity. }
  rewrite Hfirst at 1. rewrite skipn_app.
  destruct (le_lt_dec a (List.length (firstn b l))) as [Hle|Hgt].
  - replace (a - List.length (firstn b l))%nat with 0%nat by lia. reflexivity.
  - assert (Hshort : (List.length l < b)%nat)
      by (rewrite length_firstn in Hgt; lia).
    assert (Hnil : skipn b (firstn c l) = []).
    { apply skipn_all2. rewrite length_firstn. lia. }
    rewrite Hnil. rewrite skipn_nil. reflexivity.
Qed.

Lemma slice_one {A : Type} (b : nat) (l : list A) (d : A) :
  (b < List.length l)%nat -> slice b (b + 1) l = [nth b l d].
Proof.
  revert b. induction l as [|x l IH]; intros b Hb; simpl in Hb; [lia|].
  destruct b as [|b].
  - reflexivity.
  - unfold slice in *. simpl. apply IH. lia.
Qed.

(** Two slices that meet in the row [mid] integrate to the slice that
    spans both. *)
Lemma moment_slices_add (f p : list R) (i : R) (lo mid hi : nat) :
  List.length f = List.length p ->
  (lo <= mid <= hi)%nat -> (mid < List.length f)%nat ->
  moment (slice lo (mid + 1) f) (slice lo (mid + 1) p) i
  + moment (slice mid (hi + 1) f) (slice mid (hi + 1) p) i
  = moment (slice lo (hi + 1) f) (slice lo (hi + 1) p) i.
Proof.
  intros Hlen Hord Hmid.
  rewrite !moment_trapezoid by (apply slice_length_eq; exact Hlen).
  rewrite <- !slice_combine.
  set (s := combine f p).
  assert (Hs : (mid < List.length s)%nat).
  { unfold s. rewrite length_combine. lia. }
  rewrite (slice_split lo mid (mid + 1) s) by lia.
  rewrite (slice_split mid (mid + 1) (hi + 1) s) by lia.
  rewrite (slice_split lo mid (hi + 1) s) by lia.
  rewrite (slice_split mid (mid + 1) (hi + 1) s) by lia.
  rewrite (slice_one mid s (0, 0) Hs).
  apply trapezoid_app.
Qed.

Lemma sum_map_seq_S (g : nat -> R) (n : nat) :
  Np.sum (map g (seq 0 (S n))) = Np.sum (map g (seq 0 n)) + g n.
Proof.
  rewrite seq_S, map_app. simpl.
  generalize (map g (seq 0 n)). intros l.
  induction l as [|x l IH]; simpl; [lra | rewrite IH; lra].
Qed.

Lemma band_moments_telescope (f p : list R) (i : R) (bs : list nat) (n : nat) :
  List.length f = List.length p ->
  Forall (fun b => (b < List.length f)%nat) bs ->
  indices_nondecreasing bs ->
  (n < List.length bs)%nat ->
  Np.sum (map (fun k => moment (slice (band_lo bs k) (band_hi bs k + 1) f)
                               (slice (band_lo bs k) (band_hi bs k + 1) p) i)
              (seq 0 (S n)))
  = moment (slice 0 (nth n bs 0%nat + 1) f) (slice 0 (nth n bs 0%nat + 1) p) i.
Proof.
  intros Hlen Hrange Hmono. induction n as [|n IH]; intros Hn.
  - simpl. unfold band_hi. lra.
  - rewrite sum_map_seq_S, IH by lia.
    unfold band_lo, band_hi.
    apply moment_slices_add; [exact Hlen | | ].
    + split; [lia|]. apply Hmono. lia.
    + rewrite Forall_forall in Hrange. apply Hrange. apply nth_In. lia.
Qed.

(** X4.  When the boundaries are in non-decreasing order, the moments of the
    bands add up, order by order, to the moment of the rows from 0 to
    the last boundary: the boundary row that neighbouring bands share
    is the common end point of their integrals, nothing is counted
    twice. *)
Theorem band_moments_add_up (f p : list R) (sp : pyval) (ms : list pyval)
    (bs : list nat) (n : nat) :
  List.length f = List.length p ->
  _get_band_stop_frequency [f; p] sp = Ok bs ->
  bs <> [] -> indices_nondecreasing bs ->
  forallb is_int_or_float ms = true ->
  (n < List.length ms)%nat ->
  exists M,
    get_spectral_moments [f; p] sp ms = Ok M /\
    column_total M n
    = moment (slice 0 (last bs 0%nat + 1) f) (slice 0 (last bs 0%nat + 1) p)
        (float_value (nth n ms PNone)).
Proof.
  intros Hlen Hbs Hne Hmono Hms Hn. eexists.
  split; [apply get_spectral_moments_value; eassumption|].
  unfold column_total. rewrite map_map.
  assert (Hpos : (0 < List.length bs)%nat).
  { destruct bs; [congruence | simpl; lia]. }
  rewrite <- (nth_last bs 0%nat).
  rewrite <- (band_moments_telescope f p (float_value (nth n ms PNone)) bs
                (List.length bs - 1)); try assumption; try lia.
  - replace (S (List.length bs - 1)) with (List.length bs) by lia.
    f_equal. apply map_ext. intros k.
    rewrite (nth_indep _ 0 ((fun i : pyval =>
               moment (slice (band_lo bs k) (band_hi bs k + 1) f)
                      (slice (band_lo bs k) (band_hi bs k + 1) p)
                      (float_value i)) PNone))
      by (rewrite length_map; exact Hn).
    apply (map_nth (fun i : pyval =>
               moment (slice (band_lo bs k) (band_hi bs k + 1) f)
                      (slice (band_lo bs k) (band_hi bs k + 1) p)
                      (float_value i))).
  - eapply band_stop_in_range; eassumption.
Qed.

Lemma flat_psd_two_bands :
  _get_band_stop_frequency [[0; 1; 2; 3; 4]; [1; 1; 1; 1; 1]]
    (PTuple [PStr "userDefinedBands"; PList [PInt 2; PInt 4]]) = Ok [2; 4]%nat.
Proof.
  rewrite get_band_stop_userDefined. unfold _userDefinedBands.
  run_argmin. reflexivity.
Qed.

(** A run on the flat PSD over [0..4] split at 2 and 4. *)
Lemma band_moments_add_up_witness :
  exists M,
    get_spectral_moments [[0; 1; 2; 3; 4]; [1; 1; 1; 1; 1]]
      (PTuple [PStr "userDefinedBands"; PList [PInt 2; PInt 4]]) [PInt 0] = Ok M /\
    column_total M 0 = moment [0; 1; 2; 3; 4] [1; 1; 1; 1; 1] 0.
Proof.
  destruct (band_moments_add_up
              [0; 1; 2; 3; 4] [1; 1; 1; 1; 1]
              (PTuple [PStr "userDefinedBands"; PList [PInt 2; PInt 4]])
              [PInt 0] [2; 4]%nat 0%nat eq_refl flat_psd_two_bands)
    as [M [Hrun Hsum]].
  - discriminate.
  - intros i j Hij. simpl in Hij.
    destruct i as [|[|i]]; destruct j as [|[|j]]; simpl; lia.
  - reflexivity.
  - simpl. lia.
  - exists M. split; [exact Hrun | exact Hsum].
Defined.

(** * Further properties of the derived statistics *)

Lemma nth_map_seq_npfloat (g : nat -> Np.npfloat) (n k : nat) :
  (k < n)%nat -> nth k (map g (seq 0 n)) Np.NotFinite = g k.
Proof.
  intros Hk.
  rewrite (nth_indep _ Np.NotFinite (g 0%nat))
    by (rewrite length_map, length_seq; exact Hk).
  rewrite map_nth, seq_nth by exact Hk. reflexivity.
Qed.

(** The moments of one band of a PSD with ascending frequencies and
    non-negative magnitudes. *)
Lemma slice_moments_bound (f p : list R) (lo hi : nat) (i : R) :
  List.length f = List.length p -> nondecreasing f ->
  Forall (fun s => 0 <= s) p ->
  let bf := slice lo hi f in
  let bp := slice lo hi p in
  0 <= moment bf bp 0 /\ 0 <= moment bf bp i /\ 0 <= moment bf bp (2 * i) /\
  moment bf bp i * moment bf bp i <= moment bf bp 0 * moment bf bp (2 * i).
Proof.
  intros Hlen Hf Hp bf bp. apply band_moments_bound.
  - apply slice_length_eq. exact Hlen.
  - unfold bf, slice. apply ascending_skipn, ascending_firstn.
    apply nondecreasing_ascending. exact Hf.
  - apply Forall_slice. exact Hp.
Qed.

(** X5.  For a PSD with non-negative ascending frequencies and non-negative
    magnitudes, the Vanmarcke parameter of a band is a number exactly
    when the estimator [alpha_1] of the band is one; it then lies in
    [[0, 1]] and [alpha_1^2 + eps_V^2 = 1]: the square root is never
    taken of a negative number. *)
Theorem vanmarcke_parameter_in_unit_interval (f p : list R) (sp : pyval)
    (bs : list nat) :
  List.length f = List.length p ->
  nondecreasing f -> Forall (fun x => 0 <= x) f -> Forall (fun s => 0 <= s) p ->
  _get_band_stop_frequency [f; p] sp = Ok bs ->
  exists alphas eps,
    get_bandwidth_estimator [f; p] sp (PInt 1) = Ok alphas /\
    get_vanmarcke_parameter [f; p] sp = Ok eps /\
    List.length eps = List.length bs /\
    forall k, (k < List.length bs)%nat ->
      (nth k alphas Np.NotFinite = Np.NotFinite /\
       nth k eps Np.NotFinite = Np.NotFinite) \/
      (exists a e,
         nth k alphas Np.NotFinite = Np.Finite a /\
         nth k eps Np.NotFinite = Np.Finite e /\
         0 <= e <= 1 /\ a * a + e * e = 1).
Proof.
  intros Hlen Hf Hf0 Hp Hbs.
  pose proof (get_bandwidth_estimator_value f p sp (PInt 1) bs eq_refl Hbs) as Ha.
  eexists. eexists. split; [exact Ha|].
  split; [unfold get_vanmarcke_parameter; rewrite Ha; reflexivity|].
  split; [rewrite !length_map, length_seq; reflexivity|].
  intros k Hk. rewrite map_map.
  rewrite !nth_map_seq_npfloat by exact Hk. cbv zeta.
  set (bf := slice (band_lo bs k) (band_hi bs k + 1) f).
  set (bp := slice (band_lo bs k) (band_hi bs k + 1) p).
  destruct (slice_moments_bound f p (band_lo bs k) (band_hi bs k + 1)
              (float_value (PInt 1)) Hlen Hf Hp) as [H0 [H1 [H2 Hcs]]].
  fold bf bp in H0, H1, H2, Hcs.
  destruct (alpha_of_moments_range _ _ _ H0 H1 H2 Hcs)
    as [[_ Hnf] | [_ [Hfin [Hlo Hhi]]]].
  - left. rewrite Hnf. split; reflexivity.
  - right. rewrite Hfin.
    set (a := moment bf bp (float_value (PInt 1))
              / sqrt (moment bf bp 0 * moment bf bp (2 * float_value (PInt 1)))) in *.
    assert (Hsq : 0 <= 1 - a * a) by nra.
    exists a, (sqrt (1 - a * a)). split; [reflexivity|]. split.
    + unfold Np.sqrt. destruct (Rlt_dec (1 - a * a) 0); [lra | reflexivity].
    + split.
      * split; [apply sqrt_pos|].
        apply Rle_trans with (sqrt 1); [|rewrite sqrt_1; lra].
        apply sqrt_le_1_alt. pose proof (Rle_0_sqr a) as Ha2.
        unfold Rsqr in Ha2. lra.
      * rewrite sqrt_sqrt by exact Hsq. lra.
Qed.

(** A run on the flat PSD over [0..4] as one band. *)
Lemma vanmarcke_parameter_in_unit_interval_witness :
  exists eps,
    get_vanmarcke_parameter [[0; 1; 2; 3; 4]; [1; 1; 1; 1; 1]] single_band = Ok eps /\
    List.length eps = 1%nat.
Proof.
  destruct (vanmarcke_parameter_in_unit_interval
              [0; 1; 2; 3; 4] [1; 1; 1; 1; 1] single_band [4%nat] eq_refl
              flat_frequencies_nondecreasing flat_nonneg ones_nonneg
              flat_psd_whole_band)
    as [alphas [eps [_ [Hrun [Hlen _]]]]].
  exists eps. split; [exact Hrun | exact Hlen].
Defined.

Lemma get_nup_value (f p : list R) (sp : pyval) (bs : list nat) :
  _get_band_stop_frequency [f; p] sp = Ok bs ->
  get_nup [f; p] sp
  = Ok (map (fun k =>
               let bf := slice (band_lo bs k) (band_hi bs k + 1) f in
               let bp := slice (band_lo bs k) (band_hi bs k + 1) p in
               root_ratio [moment bf bp 0; moment bf bp 2])
            (seq 0 (List.length bs))).
Proof.
  intros Hbs. unfold get_nup.
  rewrite (get_spectral_moments_value f p sp _ bs Hbs) by reflexivity.
  cbn [bind]. rewrite map_map. reflexivity.
Qed.

Lemma get_mp_value (f p : list R) (sp : pyval) (bs : list nat) :
  _get_band_stop_frequency [f; p] sp = Ok bs ->
  get_mp [f; p] sp
  = Ok (map (fun k =>
               let bf := slice (band_lo bs k) (band_hi bs k + 1) f in
               let bp := slice (band_lo bs k) (band_hi bs k + 1) p in
               root_ratio [moment bf bp 2; moment bf bp 4])
            (seq 0 (List.length bs))).
Proof.
  intros Hbs. unfold get_mp.
  rewrite (get_spectral_moments_value f p sp _ bs Hbs) by reflexivity.
  cbn [bind]. rewrite map_map. reflexivity.
Qed.

Lemma root_ratio_positive (m n : R) :
  0 < m -> 0 < n ->
  root_ratio [m; n] = Np.Finite (1 / (2 * PI) * sqrt (n / m)) /\
  0 < 1 / (2 * PI) * sqrt (n / m).
Proof.
  intros Hm Hn.
  assert (Hq : 0 < n / m) by (apply Rdiv_lt_0_compat; assumption).
  unfold root_ratio, Np.div, Np.sqrt. cbn [nth].
  destruct (Req_dec_T m 0); [lra|].
  destruct (Rlt_dec (n / m) 0); [lra|].
  split; [reflexivity|].
  apply Rmult_lt_0_compat; [|apply sqrt_lt_R0; exact Hq].
  apply Rdiv_lt_0_compat; [lra|]. pose proof PI_RGT_0. lra.
Qed.

(** X6.  For a PSD with non-negative ascending frequencies and non-negative
    magnitudes, and a band whose moments [m0] and [m2] are positive:
    the expected zero-crossing frequency [nu_p] and the expected peak
    frequency [m_p] of the band are positive numbers, [nu_p <= m_p],
    and the estimator [alpha_2] of the band is their ratio
    [nu_p / m_p]. *)
Theorem irregularity_is_crossing_to_peak_ratio (f p : list R) (sp : pyval)
    (bs : list nat) (k : nat) :
  List.length f = List.length p ->
  nondecreasing f -> Forall (fun x => 0 <= x) f -> Forall (fun s => 0 <= s) p ->
  _get_band_stop_frequency [f; p] sp = Ok bs ->
  (k < List.length bs)%nat ->
  0 < moment (slice (band_lo bs k) (band_hi bs k + 1) f)
             (slice (band_lo bs k) (band_hi bs k + 1) p) 0 ->
  0 < moment (slice (band_lo bs k) (band_hi bs k + 1) f)
             (slice (band_lo bs k) (band_hi bs k + 1) p) 2 ->
  exists nus mps alphas a b,
    get_nup [f; p] sp = Ok nus /\
    get_mp [f; p] sp = Ok mps /\
    get_bandwidth_estimator [f; p] sp (PInt 2) = Ok alphas /\
    nth k nus Np.NotFinite = Np.Finite a /\
    nth k mps Np.NotFinite = Np.Finite b /\
    nth k alphas Np.NotFinite = Np.Finite (a / b) /\
    0 < a <= b.
Proof.
  intros Hlen Hf Hf0 Hp Hbs Hk Hm0 Hm2.
  set (bf := slice (band_lo bs k) (band_hi bs k + 1) f) in *.
  set (bp := slice (band_lo bs k) (band_hi bs k + 1) p) in *.
  destruct (slice_moments_bound f p (band_lo bs k) (band_hi bs k + 1) 2
              Hlen Hf Hp) as [H0 [H2 [H4 Hcs]]].
  fold bf bp in H0, H2, H4, Hcs.
  replace (2 * 2) with 4 in H4, Hcs by lra.
  set (m0 := moment bf bp 0) in *.
  set (m2 := moment bf bp 2) in *.
  set (m4 := moment bf bp 4) in *.
  assert (Hm4 : 0 < m4).
  { destruct (Rle_lt_or_eq_dec 0 m4 H4) as [Hpos|Hz]; [exact Hpos|].
    rewrite <- Hz in Hcs. nra. }
  destruct (root_ratio_positive m0 m2 Hm0 Hm2) as [Hnu Hnupos].
  destruct (root_ratio_positive m2 m4 Hm2 Hm4) as [Hmp Hmppos].
  destruct (alpha_of_moments_range m0 m2 m4 H0 H2 H4 Hcs)
    as [[Hz _] | [Hprod [Halpha [_ Hle]]]]; [nra|].
  assert (Hratio : 1 / (2 * PI) * sqrt (m2 / m0) / (1 / (2 * PI) * sqrt (m4 / m2))
                   = m2 / sqrt (m0 * m4)).
  { assert (Hpi : 2 * PI <> 0) by (pose proof PI_RGT_0; lra).
    assert (Hs1 : 0 < sqrt (m4 / m2))
      by (apply sqrt_lt_R0, Rdiv_lt_0_compat; assumption).
    replace (1 / (2 * PI) * sqrt (m2 / m0) / (1 / (2 * PI) * sqrt (m4 / m2)))
      with (sqrt (m2 / m0) / sqrt (m4 / m2)) by (field; split; lra).
    rewrite <- sqrt_div by (try apply Rdiv_lt_0_compat; try left;
                            try apply Rdiv_lt_0_compat; assumption).
    replace (m2 / m0 / (m4 / m2)) with (m2 * m2 / (m0 * m4)) by (field; lra).
    rewrite sqrt_div by nra.
    rewrite sqrt_square by lra. reflexivity. }
  exists (map (fun k =>
                 let bf := slice (band_lo bs k) (band_hi bs k + 1) f in
                 let bp := slice (band_lo bs k) (band_hi bs k + 1) p in
                 root_ratio [moment bf bp 0; moment bf bp 2])
              (seq 0 (List.length bs))).
  exists (map (fun k =>
                 let bf := slice (band_lo bs k) (band_hi bs k + 1) f in
                 let bp := slice (band_lo bs k) (band_hi bs k + 1) p in
                 root_ratio [moment bf bp 2; moment bf bp 4])
              (seq 0 (List.length bs))).
  eexists.
  exists (1 / (2 * PI) * sqrt (m2 / m0)), (1 / (2 * PI) * sqrt (m4 / m2)).
  split; [apply get_nup_value; exact Hbs|].
  split; [apply get_mp_value; exact Hbs|].
  split; [apply (get_bandwidth_estimator_value f p sp (PInt 2) bs eq_refl Hbs)|].
  rewrite !nth_map_seq_npfloat by exact Hk. cbv zeta. fold bf bp.
  change (float_value (PInt 2)) with 2.
  replace (2 * 2) with 4 by lra. fold m0 m2 m4.
  split; [exact Hnu|]. split; [exact Hmp|]. split.
  - rewrite Halpha, Hratio. reflexivity.
  - split; [exact Hnupos|].
    rewrite <- Hratio in Hle.
    apply (Rmult_le_compat_r (1 / (2 * PI) * sqrt (m4 / m2))) in Hle; [|lra].
    unfold Rdiv at 1 in Hle.
    rewrite Rmult_assoc, Rinv_l in Hle by lra. lra.
Qed.

Lemma power1_pos (x i : R) : x <> 0 -> 0 < Np.power1 x i.
Proof.
  intros Hx. unfold Np.power1. destruct (Req_dec_T x 0); [contradiction|].
  unfold Rpower. apply exp_pos.
Qed.

Lemma flat_psd_moment_pos (i : R) :
  0 < moment [0; 1; 2; 3; 4] [1; 1; 1; 1; 1] i.
Proof.
  rewrite moment_trapezoid by reflexivity. simpl. unfold moment_integrand.
  pose proof (power1_nonneg (2 * PI * 0) i).
  pose proof (power1_nonneg (2 * PI * 2) i).
  pose proof (power1_nonneg (2 * PI * 3) i).
  pose proof (power1_nonneg (2 * PI * 4) i).
  assert (0 < Np.power1 (2 * PI * 1) i).
  { apply power1_pos. pose proof PI_RGT_0. lra. }
  lra.
Qed.

(** A run on the flat PSD over [0..4] as one band. *)
Lemma irregularity_is_crossing_to_peak_ratio_witness :
  exists nus mps alphas a b,
    get_nup [[0; 1; 2; 3; 4]; [1; 1; 1; 1; 1]] single_band = Ok nus /\
    get_mp [[0; 1; 2; 3; 4]; [1; 1; 1; 1; 1]] single_band = Ok mps /\
    get_bandwidth_estimator [[0; 1; 2; 3; 4]; [1; 1; 1; 1; 1]] single_band (PInt 2)
    = Ok alphas /\
    nth 0 nus Np.NotFinite = Np.Finite a /\
    nth 0 mps Np.NotFinite = Np.Finite b /\
    nth 0 alphas Np.NotFinite = Np.Finite (a / b).
Proof.
  destruct (irregularity_is_crossing_to_peak_ratio
              [0; 1; 2; 3; 4] [1; 1; 1; 1; 1] single_band [4%nat] 0%nat eq_refl
              flat_frequencies_nondecreasing flat_nonneg ones_nonneg
              flat_psd_whole_band)
    as [nus [mps [alphas [a [b [H1 [H2 [H3 [H4 [H5 [H6 _]]]]]]]]]]].
  - simpl. lia.
  - apply flat_psd_moment_pos.
  - apply flat_psd_moment_pos.
  - exists nus, mps, alphas, a, b. repeat split; assumption.
Defined.

(** * Further properties of the band splitter *)

Lemma strictly_increasing_le (f : list R) (i j : nat) :
  strictly_increasing f -> (i <= j < List.length f)%nat -> nth i f 0 <= nth j f 0.
Proof.
  intros Hf [Hij Hj]. destruct (Nat.eq_dec i j) as [->|Hne]; [lra|].
  left. apply Hf. lia.
Qed.

Lemma nearest_beyond_last (f : list R) (c : R) :
  f <> [] -> strictly_increasing f -> last f 0 <= c ->
  nearest_first f c (List.length f - 1).
Proof.
  intros Hne Hf Hc. rewrite <- nth_last in Hc.
  assert (Hlen : (0 < List.length f)%nat) by (destruct f; [congruence | simpl; lia]).
  split; [lia|]. split.
  - intros j Hj.
    pose proof (strictly_increasing_le f j (List.length f - 1) Hf ltac:(lia)).
    split_Rabs; lra.
  - intros j Hj. specialize (Hf j (List.length f - 1)%nat ltac:(lia)).
    split_Rabs; lra.
Qed.

Lemma nearest_before_first (f : list R) (c : R) :
  f <> [] -> strictly_increasing f -> c <= hd 0 f ->
  nearest_first f c 0.
Proof.
  intros Hne Hf Hc.
  assert (Hlen : (0 < List.length f)%nat) by (destruct f; [congruence | simpl; lia]).
  assert (Hhd : hd 0 f = nth 0 f 0) by (destruct f; reflexivity).
  rewrite Hhd in Hc.
  split; [exact Hlen|]. split.
  - intros j Hj.
    pose proof (strictly_increasing_le f 0 j Hf ltac:(lia)).
    split_Rabs; lra.
  - intros j Hj. lia.
Qed.

(** X7.  In exact arithmetic, on strictly ascending frequencies a target
    at or beyond the last frequency selects the last row, and a target
    at or below the first frequency selects row 0.  (On doubles a target
    far beyond the range is at the same computed distance from several
    rows, and the first of them is selected: see [splitters_round].) *)
Theorem userDefinedBands_clamps_to_range (f p : list R) (targets : list pyval) :
  f <> [] -> strictly_increasing f ->
  forallb is_int_or_float targets = true ->
  exists idx,
    _userDefinedBands [f; p] (PList targets) = Ok idx /\
    forall n, (n < List.length targets)%nat ->
      (last f 0 <= float_value (nth n targets PNone) ->
       nth n idx 0%nat = (List.length f - 1)%nat) /\
      (float_value (nth n targets PNone) <= hd 0 f -> nth n idx 0%nat = 0%nat).
Proof.
  intros Hne Hf Hnum.
  destruct (userDefinedBands_run f p targets (PList targets) Hne
              (or_introl eq_refl) Hnum) as [idx [Hrun [_ Hall]]].
  exists idx. split; [exact Hrun|]. intros n Hn. split; intros Hc.
  - eapply nearest_first_unique; [apply Hall; exact Hn|].
    apply nearest_beyond_last; assumption.
  - eapply nearest_first_unique; [apply Hall; exact Hn|].
    apply nearest_before_first; assumption.
Qed.

Lemma flat_frequencies_strictly_increasing : strictly_increasing [0; 1; 2; 3; 4].
Proof.
  intros i j Hij. simpl in Hij.
  destruct i as [|[|[|[|[|i]]]]]; destruct j as [|[|[|[|[|j]]]]];
    simpl; try lra; lia.
Qed.

(** A run on the frequencies [0..4] with the targets 150 and -1. *)
Lemma userDefinedBands_clamps_to_range_witness :
  exists idx,
    _userDefinedBands [[0; 1; 2; 3; 4]; [1; 1; 1; 1; 1]]
      (PList [PInt 150; PInt (-1)]) = Ok idx /\
    nth 0 idx 0%nat = 4%nat /\ nth 1 idx 0%nat = 0%nat.
Proof.
  destruct (userDefinedBands_clamps_to_range
              [0; 1; 2; 3; 4] [1; 1; 1; 1; 1] [PInt 150; PInt (-1)]
              ltac:(discriminate) flat_frequencies_strictly_increasing eq_refl)
    as [idx [Hrun Hall]].
  exists idx. split; [exact Hrun|]. split.
  - apply (proj1 (Hall 0%nat ltac:(simpl; lia))). simpl. lra.
  - apply (proj2 (Hall 1%nat ltac:(simpl; lia))). simpl. lra.
Defined.

(** X8.  Every outcome of [_get_band_stop_frequency]: a policy that is not a
    tuple is a [TypeError], a tuple of fewer than two elements an
    [IndexError]; with a string tag the call either returns or raises
    the [ValueError] that names the tag, so that no [TypeError] or
    [KeyError] raised inside the [try] block ever reaches the caller. *)
Theorem band_stop_outcomes (psd : Np.ndarray2) (sp : pyval) :
  match sp with
  | PTuple (PStr s :: arg :: _) =>
      (exists idx, _get_band_stop_frequency psd sp = Ok idx) \/
      _get_band_stop_frequency psd sp
      = Err (ValueError ("Unknown splitting method: " ++ s)%string)
  | PTuple (_ :: _ :: _) =>
      exists e, _get_band_stop_frequency psd sp = Err e
  | PTuple _ => _get_band_stop_frequency psd sp = Err IndexError
  | _ => _get_band_stop_frequency psd sp
         = Err (TypeError "Parameter `PSD_splitting` must be of type tuple.")
  end.
Proof.
  destruct sp as [| | | | | |l|]; try reflexivity.
  destruct l as [|m [|arg rest]]; try reflexivity.
  - destruct m; reflexivity.
  - unfold _get_band_stop_frequency.
    destruct m as [| | | |s|l|l|a];
      try (eexists; reflexivity).
    destruct (m <- method_dict psd (PStr s) ;; m arg) as [idx|e].
    + left. exists idx. reflexivity.
    + right. reflexivity.
Qed.

(** X9.  A PSD without rows cannot be split: the equal-area policy with
    [N >= 1] and the user-defined policy with at least one numeric
    target both fail, and the error is the [ValueError] that blames
    the method name; only an empty list of bands is still returned. *)
Theorem empty_psd_cannot_be_split (f p : list R) (N : Z) (targets : list pyval) :
  (0 < N)%Z -> targets <> [] -> forallb is_int_or_float targets = true ->
  _get_band_stop_frequency [f; []] (PTuple [PStr "equalAreaBands"; PInt N])
  = Err (ValueError "Unknown splitting method: equalAreaBands") /\
  _get_band_stop_frequency [[]; p] (PTuple [PStr "userDefinedBands"; PList targets])
  = Err (ValueError "Unknown splitting method: userDefinedBands") /\
  _get_band_stop_frequency [[]; p] (PTuple [PStr "userDefinedBands"; PList []])
  = Ok [].
Proof.
  intros HN Ht Hnum. split; [|split].
  - rewrite get_band_stop_equalArea. unfold _equalAreaBands.
    cbn [is_int Np.column nth_error bind int_value].
    unfold range. destruct (Z.to_nat N) as [|n] eqn:E; [lia|].
    reflexivity.
  - rewrite get_band_stop_userDefined. unfold _userDefinedBands.
    rewrite Hnum. destruct targets as [|t0 targets]; [congruence|].
    reflexivity.
  - reflexivity.
Qed.

Lemma empty_psd_cannot_be_split_witness :
  _get_band_stop_frequency [[]; []] (PTuple [PStr "equalAreaBands"; PInt 1])
  = Err (ValueError "Unknown splitting method: equalAreaBands").
Proof.
  apply (proj1 (empty_psd_cannot_be_split [] [] 1 [PInt 1] ltac:(lia)
                  ltac:(discriminate) eq_refl)).
Defined.

(** ** Rescaling the magnitudes *)

Lemma sum_scale (c : R) (a : list R) : Np.sum (Np.scale c a) = c * Np.sum a.
Proof. induction a as [|x a IH]; simpl; [lra | rewrite IH; lra]. Qed.

Lemma cumsum_from_scale (c acc : R) (a : list R) :
  Np.cumsum_from (c * acc) (Np.scale c a) = Np.scale c (Np.cumsum_from acc a).
Proof.
  revert acc. induction a as [|x a IH]; intros acc; [reflexivity|].
  simpl. replace (c * acc + c * x) with (c * (acc + x)) by lra.
  rewrite IH. reflexivity.
Qed.

Lemma cumsum_scale (c : R) (a : list R) :
  Np.cumsum (Np.scale c a) = Np.scale c (Np.cumsum a).
Proof.
  unfold Np.cumsum. rewrite <- cumsum_from_scale. f_equal. lra.
Qed.

Lemma abs_sub_scale (c t : R) (a : list R) :
  0 < c ->
  Np.abs (Np.sub_scalar (Np.scale c a) (c * t))
  = Np.scale c (Np.abs (Np.sub_scalar a t)).
Proof.
  intros Hc. unfold Np.abs, Np.sub_scalar, Np.scale. rewrite !map_map.
  apply map_ext. intros x.
  replace (c * x - c * t) with (c * (x - t)) by lra.
  rewrite Rabs_mult, (Rabs_pos_eq c) by lra. reflexivity.
Qed.

Lemma argmin_from_scale (c b : R) (bi i : nat) (a : list R) :
  0 < c ->
  Np.argmin_from bi (c * b) i (Np.scale c a) = Np.argmin_from bi b i a.
Proof.
  intros Hc. revert bi b i. induction a as [|x a IH]; intros bi b i; [reflexivity|].
  simpl. destruct (Rlt_dec (c * x) (c * b)) as [H1|H1];
    destruct (Rlt_dec x b) as [H2|H2].
  - apply IH.
  - exfalso. apply H2. apply (Rmult_lt_reg_l c); assumption.
  - exfalso. apply H1. apply Rmult_lt_compat_l; assumption.
  - apply IH.
Qed.

Lemma argmin_scale (c : R) (a : list R) :
  0 < c -> Np.argmin (Np.scale c a) = Np.argmin a.
Proof.
  intros Hc. destruct a as [|x a]; [reflexivity|].
  simpl. rewrite argmin_from_scale by exact Hc. reflexivity.
Qed.

Lemma mapM_ext {A B : Type} (f g : A -> result B) (l : list A) :
  (forall a, f a = g a) -> mapM f l = mapM g l.
Proof.
  intros H. induction l as [|a l IH]; [reflexivity|].
  simpl. rewrite H, IH. reflexivity.
Qed.

Lemma equalAreaBands_scale (f p : list R) (c : R) (N : pyval) :
  0 < c -> _equalAreaBands [f; Np.scale c p] N = _equalAreaBands [f; p] N.
Proof.
  intros Hc. unfold _equalAreaBands. destruct (is_int N); [|reflexivity].
  cbn [Np.column nth_error bind]. apply mapM_ext. intros n.
  rewrite sum_scale, cumsum_scale.
  replace (IZR (n + 1) * (c * Np.sum p) / IZR (int_value N))
    with (c * (IZR (n + 1) * Np.sum p / IZR (int_value N)))
    by (unfold Rdiv; ring).
  rewrite abs_sub_scale by exact Hc. apply argmin_scale. exact Hc.
Qed.

Lemma band_stop_scale (f p : list R) (c : R) (sp : pyval) :
  0 < c ->
  _get_band_stop_frequency [f; Np.scale c p] sp = _get_band_stop_frequency [f; p] sp.
Proof.
  intros Hc. unfold _get_band_stop_frequency.
  destruct sp as [| | | | | |l|]; try reflexivity.
  destruct l as [|m [|arg rest]]; try reflexivity.
  unfold method_dict. destruct m as [| | | |s| | |]; try reflexivity.
  destruct (String.eqb s "equalAreaBands").
  - cbn [bind]. rewrite equalAreaBands_scale by exact Hc. reflexivity.
  - destruct (String.eqb s "userDefinedBands"); reflexivity.
Qed.

Lemma zip_with_scale_r (w p : list R) (c : R) :
  Np.mul w (Np.scale c p) = Np.scale c (Np.mul w p).
Proof.
  unfold Np.mul, Np.scale.
  revert p. induction w as [|x w IH]; intros p; [reflexivity|].
  destruct p as [|s p]; [reflexivity|].
  simpl. rewrite IH. f_equal. lra.
Qed.

Lemma trapz_scale (c : R) (x y : list R) :
  Np.trapz (Np.scale c y) x = c * Np.trapz y x.
Proof.
  revert y. induction x as [|x0 x IH]; intros y.
  - unfold Np.trapz. simpl. lra.
  - destruct x as [|x1 x]; [rewrite !trapz_single; lra|].
    destruct y as [|y0 [|y1 y]].
    + unfold Np.trapz. simpl. lra.
    + unfold Np.trapz. simpl. lra.
    + change (Np.scale c (y0 :: y1 :: y))
        with (c * y0 :: c * y1 :: Np.scale c y).
      rewrite !trapz_step.
      change (c * y1 :: Np.scale c y) with (Np.scale c (y1 :: y)).
      rewrite IH. lra.
Qed.

Lemma moment_scale (f p : list R) (c i : R) :
  moment f (Np.scale c p) i = c * moment f p i.
Proof.
  unfold moment. rewrite zip_with_scale_r. apply trapz_scale.
Qed.

Lemma slice_scale (lo hi : nat) (c : R) (p : list R) :
  slice lo hi (Np.scale c p) = Np.scale c (slice lo hi p).
Proof.
  unfold slice, Np.scale. rewrite firstn_map, skipn_map. reflexivity.
Qed.

Lemma alpha_of_moments_scale (c m0 mi m2 : R) :
  0 < c ->
  alpha_of_moments [c * m0; c * mi; c * m2] = alpha_of_moments [m0; mi; m2].
Proof.
  intros Hc. unfold alpha_of_moments, Np.sqrt. cbn [nth].
  replace (c * m0 * (c * m2)) with (c * c * (m0 * m2)) by ring.
  assert (Hcc : 0 < c * c) by (apply Rmult_lt_0_compat; assumption).
  destruct (Rlt_dec (c * c * (m0 * m2)) 0) as [H1|H1];
    destruct (Rlt_dec (m0 * m2) 0) as [H2|H2]; try reflexivity.
  - exfalso. apply H2. apply (Rmult_lt_reg_l (c * c)); [exact Hcc|]. lra.
  - exfalso. apply H1.
    replace 0 with (c * c * 0) by ring. apply Rmult_lt_compat_l; assumption.
  - rewrite sqrt_mult_alt by lra. rewrite sqrt_square by lra.
    unfold Np.div.
    destruct (Req_dec_T (c * sqrt (m0 * m2)) 0) as [E1|E1];
      destruct (Req_dec_T (sqrt (m0 * m2)) 0) as [E2|E2]; try reflexivity.
    + exfalso. apply Rmult_integral in E1. destruct E1; [lra | contradiction].
    + exfalso. apply E1. rewrite E2. ring.
    + f_equal. field. split; [exact E2 | lra].
Qed.

(** X10.  Multiplying every magnitude by a constant [c > 0] (a change of
    unit) leaves the band boundaries of every policy where they are,
    multiplies every spectral moment by [c], and leaves every
    bandwidth estimator unchanged. *)
Theorem magnitude_scaling (f p : list R) (c : R) (sp : pyval) :
  0 < c ->
  _get_band_stop_frequency [f; Np.scale c p] sp
  = _get_band_stop_frequency [f; p] sp /\
  (forall ms M, forallb is_int_or_float ms = true ->
     get_spectral_moments [f; p] sp ms = Ok M ->
     get_spectral_moments [f; Np.scale c p] sp ms = Ok (map (Np.scale c) M)) /\
  (forall i, get_bandwidth_estimator [f; Np.scale c p] sp i
             = get_bandwidth_estimator [f; p] sp i).
Proof.
  intros Hc. split; [apply band_stop_scale; exact Hc|]. split.
  - intros ms M Hms HM.
    destruct (get_spectral_moments_shape _ _ _ _ HM) as [bs [Hbs _]].
    rewrite (get_spectral_moments_value f p sp ms bs Hbs Hms) in HM.
    injection HM as <-.
    rewrite (get_spectral_moments_value f (Np.scale c p) sp ms bs)
      by (try rewrite band_stop_scale; assumption).
    f_equal. rewrite map_map. apply map_ext. intros k.
    unfold Np.scale at 2. rewrite map_map. apply map_ext. intros i.
    rewrite slice_scale. apply moment_scale.
  - intros i. destruct (is_int_or_float i) eqn:Hi.
    + destruct (_get_band_stop_frequency [f; p] sp) as [bs|e] eqn:Hbs.
      * rewrite (get_bandwidth_estimator_value f p sp i bs Hi Hbs).
        rewrite (get_bandwidth_estimator_value f (Np.scale c p) sp i bs Hi)
          by (rewrite band_stop_scale; assumption).
        f_equal. apply map_ext. intros k. cbv zeta.
        rewrite slice_scale, !moment_scale.
        apply alpha_of_moments_scale. exact Hc.
      * unfold get_bandwidth_estimator, get_spectral_moments.
        rewrite Hi, band_stop_scale, Hbs by exact Hc. reflexivity.
    + unfold get_bandwidth_estimator. rewrite Hi. reflexivity.
Qed.

(** A run: the flat PSD over [0..4] with every magnitude doubled. *)
Lemma magnitude_scaling_witness :
  _get_band_stop_frequency [[0; 1; 2; 3; 4]; Np.scale 2 [1; 1; 1; 1; 1]] single_band
  = Ok [4%nat] /\
  get_bandwidth_estimator [[0; 1; 2; 3; 4]; Np.scale 2 [1; 1; 1; 1; 1]]
    single_band (PInt 1)
  = get_bandwidth_estimator [[0; 1; 2; 3; 4]; [1; 1; 1; 1; 1]] single_band (PInt 1).
Proof.
  destruct (magnitude_scaling [0; 1; 2; 3; 4] [1; 1; 1; 1; 1] 2 single_band
              ltac:(lra)) as [Hb [_ Ha]].
  split; [rewrite Hb; exact flat_psd_whole_band | apply Ha].
Defined.

(** ** The equal-area policy on a flat PSD *)

Lemma sum_repeat (c : R) (n : nat) : Np.sum (repeat c n) = INR n * c.
Proof.
  induction n as [|n IH]; [simpl; lra|].
  change (Np.sum (repeat c (S n))) with (c + Np.sum (repeat c n)).
  rewrite IH, S_INR. lra.
Qed.

Lemma prefix_sum_repeat (c : R) (n j : nat) :
  (j < n)%nat -> prefix_sum (repeat c n) j = INR (S j) * c.
Proof.
  intros Hj. unfold prefix_sum.
  replace n with (S j + (n - S j))%nat by lia.
  rewrite repeat_app, firstn_app.
  rewrite repeat_length, Nat.sub_diag, firstn_O, app_nil_r.
  rewrite firstn_all2 by (rewrite repeat_length; lia).
  apply sum_repeat.
Qed.

(** X11.  On a flat PSD of [N * m] rows of magnitude [c > 0], the equal-area
    policy with [N] bands puts the boundaries at the rows [m - 1],
    [2m - 1], ..., [N*m - 1]: every band gets [m] rows of its own. *)
Theorem equalAreaBands_flat_psd (f : list R) (c : R) (N m : nat) :
  0 < c -> (0 < N)%nat -> (0 < m)%nat ->
  exists idx,
    _equalAreaBands [f; repeat c (N * m)] (PInt (Z.of_nat N)) = Ok idx /\
    List.length idx = N /\
    forall n, (n < N)%nat -> nth n idx 0%nat = ((n + 1) * m - 1)%nat.
Proof.
  intros Hc HN Hm.
  assert (Hne : repeat c (N * m) <> []).
  { destruct (N * m)%nat eqn:E; [nia | discriminate]. }
  destruct (equalAreaBands_run f (repeat c (N * m)) (Z.of_nat N) Hne)
    as [idx [Hrun [Hlen Hall]]].
  rewrite Nat2Z.id in Hlen, Hall.
  exists idx. split; [exact Hrun|]. split; [exact Hlen|].
  intros n Hn. specialize (Hall n Hn). unfold area_boundary in Hall.
  eapply nearest_first_unique; [exact Hall|].
  assert (Htarget : IZR (Z.of_nat n + 1) * Np.sum (repeat c (N * m))
                    / IZR (Z.of_nat N) = INR ((n + 1) * m) * c).
  { rewrite sum_repeat, <- !INR_IZR_INZ.
    replace (Z.of_nat n + 1)%Z with (Z.of_nat (n + 1)) by lia.
    rewrite <- INR_IZR_INZ, !mult_INR.
    field. apply not_0_INR. lia. }
  rewrite Htarget.
  assert (Hk : ((n + 1) * m - 1 < N * m)%nat) by nia.
  assert (Hval : forall j, (j < N * m)%nat ->
            nth j (Np.cumsum (repeat c (N * m))) 0 = INR (S j) * c).
  { intros j Hj. rewrite nth_cumsum by (rewrite repeat_length; exact Hj).
    apply prefix_sum_repeat. exact Hj. }
  split; [rewrite length_cumsum, repeat_length; exact Hk|].
  rewrite (Hval _ Hk).
  replace (S ((n + 1) * m - 1)) with ((n + 1) * m)%nat by nia.
  replace (INR ((n + 1) * m) * c - INR ((n + 1) * m) * c) with 0 by lra.
  rewrite Rabs_R0. split.
  - intros j _. apply Rabs_pos.
  - intros j Hj. rewrite (Hval j) by lia. apply Rabs_pos_lt.
    assert (INR (S j) < INR ((n + 1) * m)) by (apply lt_INR; lia).
    nra.
Qed.

(** A run: six rows of magnitude 2 split into three bands. *)
Lemma equalAreaBands_flat_psd_witness :
  exists idx,
    _equalAreaBands [[0; 1; 2; 3; 4; 5]; [2; 2; 2; 2; 2; 2]] (PInt 3) = Ok idx /\
    nth 0 idx 0%nat = 1%nat /\ nth 1 idx 0%nat = 3%nat /\ nth 2 idx 0%nat = 5%nat.
Proof.
  destruct (equalAreaBands_flat_psd [0; 1; 2; 3; 4; 5] 2 3 2
              ltac:(lra) ltac:(lia) ltac:(lia)) as [idx [Hrun [_ Hall]]].
  exists idx. split; [exact Hrun|].
  split; [apply (Hall 0%nat); lia|].
  split; [apply (Hall 1%nat); lia | apply (Hall 2%nat); lia].
Defined.

(** * Further properties of construction *)

(** The index at which [_calculate_psd] cuts. *)
Lemma slice_to_two_columns (k : Z) (a b : list R) :
  slice_to k [a; b]
  = if (2 <=? k)%Z then [a; b]
    else if (k =? 1)%Z then [a]
    else if (k =? 0)%Z then []
    else if (k =? -1)%Z then [a]
    else [].
Proof.
  unfold slice_to.
  destruct (Z.ltb_spec k 0) as [Hneg|Hpos].
  - destruct (Z.leb_spec 2 k); [lia|].
    destruct (Z.eqb_spec k 1); [lia|].
    destruct (Z.eqb_spec k 0); [lia|].
    destruct (Z.eqb_spec k (-1)) as [->|Hk]; [reflexivity|].
    replace (List.length [a; b] - Z.to_nat (- k))%nat with 0%nat
      by (cbn [List.length]; lia).
    reflexivity.
  - destruct (Z.leb_spec 2 k) as [H2|H2].
    + apply firstn_all2. simpl. lia.
    + destruct (Z.eqb_spec k 1) as [->|H1]; [reflexivity|].
      destruct (Z.eqb_spec k 0) as [->|H0]; [reflexivity|]. lia.
Qed.

(** On doubles [49 * (1 / 49)] is [0.9999999999999999], whose floor is
    0; the exact product is 1. *)
Example trim_product_rounds :
  F64.trim_product 49 1 49 = Ok 0.9999999999999999%float /\
  lt64 0 0.9999999999999999 /\ lt64 0.9999999999999999 1 /\
  Int_part (IZR 49 * (1 / IZR 49)) = 1%Z.
Proof.
  split; [vm_compute; reflexivity|].
  split; [reflexivity|]. split; [reflexivity|].
  apply Int_part_IZR. field.
Qed.

(** X12.  With a trim length, the index [k = floor(trim * fs / nperseg)],
    the product being taken in exact arithmetic, decides what is stored
    of the Welch estimate [(f, p)]: for [k >= 2] its first [k] bins (all
    of them when [k] is at least their number) with both columns; for
    [k = 1] one row of the frequency column alone; for [k = 0] and
    [k <= -2] an array without columns; for [k = -1] the frequency
    column without its last row.  Without a trim length the estimate is
    stored whole.  (On doubles the product is rounded before the floor
    is taken, which lowers [k] by one when the rounded product falls
    just below an integer: see [trim_product_rounds].) *)
Theorem calculate_psd_trim_shape
    (welch : list R -> R -> Z -> result (list R * list R))
    (samples f p : list R) (fs : R) (nperseg trim : Z) :
  welch samples fs nperseg = Ok (f, p) ->
  List.length f = List.length p -> nperseg <> 0%Z ->
  let k := Int_part (IZR trim * (fs / IZR nperseg)) in
  _calculate_psd welch samples fs nperseg None = Ok [f; p] /\
  _calculate_psd welch samples fs nperseg (Some trim)
  = Ok (if (2 <=? k)%Z then [firstn (Z.to_nat k) f; firstn (Z.to_nat k) p]
        else if (k =? 1)%Z then [firstn 1 f]
        else if (k =? 0)%Z then []
        else if (k =? -1)%Z then [firstn (List.length f - 1) f]
        else []) /\
  ((Z.of_nat (List.length f) <= k)%Z -> (2 <= k)%Z ->
   _calculate_psd welch samples fs nperseg (Some trim) = Ok [f; p]).
Proof.
  intros Hw Hlen Hn k.
  assert (Hnone : _calculate_psd welch samples fs nperseg None = Ok [f; p]).
  { unfold _calculate_psd. rewrite Hw. simpl.
    unfold stack_columns. rewrite Hlen, Nat.eqb_refl. reflexivity. }
  assert (Hsome : _calculate_psd welch samples fs nperseg (Some trim)
                  = Ok (if (2 <=? k)%Z
                        then [firstn (Z.to_nat k) f; firstn (Z.to_nat k) p]
                        else if (k =? 1)%Z then [firstn 1 f]
                        else if (k =? 0)%Z then []
                        else if (k =? -1)%Z then [firstn (List.length f - 1) f]
                        else [])).
  { rewrite (calculate_psd_trim welch samples f p fs nperseg trim Hw Hlen Hn).
    fold k. rewrite slice_to_two_columns. f_equal.
    destruct (Z.leb_spec 2 k) as [H2|H2].
    - unfold slice_to. destruct (Z.ltb_spec k 0); [lia | reflexivity].
    - destruct (Z.eqb_spec k 1) as [->|H1]; [reflexivity|].
      destruct (Z.eqb_spec k 0) as [->|H0]; [reflexivity|].
      destruct (Z.eqb_spec k (-1)) as [->|Hm]; reflexivity. }
  split; [exact Hnone|]. split; [exact Hsome|].
  intros Hall H2. rewrite Hsome.
  destruct (Z.leb_spec 2 k); [|lia].
  rewrite !firstn_all2 by lia. reflexivity.
Qed.

(** A run: five bins, sampling frequency 16, segments of 8 samples and
    the trim length 3 give [k = 6], which trims nothing. *)
Lemma calculate_psd_trim_shape_witness :
  _calculate_psd (welch_five_bins 1 1 1 1 1) [] 16 8 (Some 3%Z)
  = Ok [[0; 2; 4; 6; 8]; [1; 1; 1; 1; 1]].
Proof.
  destruct (calculate_psd_trim_shape (welch_five_bins 1 1 1 1 1) []
              [0; 2; 4; 6; 8] [1; 1; 1; 1; 1] 16 8 3 eq_refl eq_refl
              ltac:(discriminate)) as [_ [_ Hall]].
  assert (Hk : Int_part (IZR 3 * (16 / IZR 8)) = 6%Z)
    by (apply Int_part_IZR; simpl; field).
  apply Hall; rewrite Hk; simpl; lia.
Defined.

Lemma rev_last_head (f : list R) :
  f <> [] -> exists rest, rev f = last f 0 :: rest.
Proof.
  intros Hne. destruct (exists_last Hne) as [l [x ->]].
  rewrite rev_app_distr, last_last. simpl. eexists. reflexivity.
Qed.

Section Inputs.

Variable welch : list R -> R -> Z -> result (list R * list R).
Variable Generator : Type.
Variable random_gaussian :
  Z -> list R -> Np.npfloat -> Generator -> result (list R).
Variable PSDgen_get_PSD : Np.ndarray2.
Variable _readf : string -> result (list R).

Let init := __init__ welch Generator random_gaussian PSDgen_get_PSD _readf.

(** X13.  Without the keyword [dt]: an input that is neither [None], ['GUI'],
    an array nor a tuple of two elements, and a pair that is none of
    (samples, interval), (PSD, frequencies), (path, interval), are
    refused with the two messages of [__init__]; a PSD and a frequency
    array of different lengths cannot be stacked; and a sampling
    interval equal to zero is a [ZeroDivisionError], raised before the
    Welch estimator is called. *)
Theorem unrecognized_input_is_refused (nperseg : Z) (trim : option Z)
    (kw : kwargs Generator) :
  kw_dt kw = None ->
  (forall input, not_a_pair input ->
     init input nperseg trim kw
     = Err (Exception "Unrecognized Input Error. `input` should be tuple with 2 elements.")) /\
  (forall x b, unrecognized_pair x b = true ->
     init (PTuple [x; b]) nperseg trim kw
     = Err (Exception "Unrecognized Input Error")) /\
  (forall ps fs, List.length fs <> List.length ps ->
     init (PTuple [PArray ps; PArray fs]) nperseg trim kw
     = Err (ValueError "all the input array dimensions must match exactly")) /\
  (forall samples b, is_int_or_float b = true -> float_value b = 0 ->
     init (PTuple [PArray samples; b]) nperseg trim kw = Err ZeroDivisionError).
Proof.
  intros Hdt. unfold init, __init__. rewrite Hdt. repeat split.
  - intros input H.
    destruct input as [| | | |s|l|l|a]; try reflexivity; try contradiction.
    + simpl in H. cbn [is_default_input bind].
      destruct (String.eqb_spec s "GUI"); [contradiction | reflexivity].
    + simpl in H. destruct l as [|x [|y [|z l]]]; try reflexivity.
      * destruct x; reflexivity.
      * contradiction.
      * destruct x; reflexivity.
  - intros x b H. unfold unrecognized_pair in H.
    destruct x; simpl in H; cbn [is_default_input bind]; try reflexivity.
    + destruct (is_int_or_float b); [discriminate | reflexivity].
    + destruct b; try discriminate; reflexivity.
  - intros ps fs Hlen. cbn [is_default_input bind is_int_or_float].
    unfold stack_columns. apply Nat.eqb_neq in Hlen. rewrite Hlen. reflexivity.
  - intros samples b Hb H0. cbn [is_default_input bind]. rewrite Hb.
    unfold from_time_history. destruct (Req_dec_T (float_value b) 0); [reflexivity|].
    contradiction.
Qed.

(** X14.  A construction from samples and a sampling interval that succeeds
    stores the samples, the interval, the duration [dt * len(data)],
    the trim length and, as PSD, what [_calculate_psd] returns for the
    sampling frequency [1 / dt]; when [_calculate_psd] fails, so does
    the construction, with the same error. *)
Theorem time_history_construction (samples : list R) (b : pyval) (nperseg : Z)
    (trim : option Z) (kw : kwargs Generator) :
  kw_dt kw = None -> is_int_or_float b = true -> float_value b <> 0 ->
  match _calculate_psd welch samples (1 / float_value b) nperseg trim with
  | Err e => init (PTuple [PArray samples; b]) nperseg trim kw = Err e
  | Ok psd0 =>
      forall sd, init (PTuple [PArray samples; b]) nperseg trim kw = Ok sd ->
        data sd = Some samples /\
        dt sd = Some (Np.Finite (float_value b)) /\
        t sd = Some (Np.Finite (float_value b * INR (List.length samples))) /\
        trim_length sd = Some trim /\
        psd sd = psd0
  end.
Proof.
  intros Hdt Hb Hnz. unfold init, __init__. rewrite Hdt.
  cbn [is_default_input bind]. rewrite Hb. unfold from_time_history.
  destruct (Req_dec_T (float_value b) 0); [contradiction|].
  destruct (_calculate_psd welch samples (1 / float_value b) nperseg trim)
    as [psd0|e]; [|reflexivity].
  cbn [bind]. intros sd H.
  destruct (with_coefficients_inv _ _ _ _ _ _ H) as [c [_ ->]].
  repeat split; reflexivity.
Qed.

(** X15.  What [_set_time_history] computes from a frequency vector of [n]
    entries: it fails with [IndexError] on an empty vector; for
    [n >= 2] and a last frequency [f_last <> 0] the duration is
    [t = n / f_last], the generator is asked for [N = 2 * (n - 1)]
    points at the sampling frequency [1 / dt] with [dt = t / N], and
    its samples are returned with [dt] and [t], so that [N * dt = t]. *)
Theorem set_time_history_values (psd0 f : list R) (rg : Generator) :
  (f = [] -> _set_time_history Generator random_gaussian psd0 f rg = Err IndexError) /\
  ((2 <= List.length f)%nat -> last f 0 <> 0 ->
   let n := INR (List.length f) in
   let N := ((Z.of_nat (List.length f) - 1) * 2)%Z in
   let t0 := n / last f 0 in
   let dt0 := t0 / IZR N in
   IZR N * dt0 = t0 /\
   _set_time_history Generator random_gaussian psd0 f rg
   = (d <- random_gaussian N psd0 (Np.Finite (1 / dt0)) rg ;;
      Ok (d, Np.Finite dt0, Np.Finite t0))).
Proof.
  split.
  - intros ->. reflexivity.
  - intros Hlen Hlast n N t0 dt0.
    assert (HN : IZR N <> 0).
    { apply not_0_IZR. unfold N. lia. }
    assert (Hn : n <> 0).
    { unfold n. apply not_0_INR. lia. }
    assert (Ht : t0 <> 0).
    { unfold t0, Rdiv. apply Rmult_integral_contrapositive_currified;
        [exact Hn | apply Rinv_neq_0_compat; exact Hlast]. }
    assert (Hdt : dt0 <> 0).
    { unfold dt0, Rdiv. apply Rmult_integral_contrapositive_currified;
        [exact Ht | apply Rinv_neq_0_compat; exact HN]. }
    split; [unfold dt0; field; exact HN|].
    unfold _set_time_history.
    destruct (rev_last_head f) as [rest ->].
    { intros ->. simpl in Hlen. lia. }
    unfold Np.div. fold n.
    destruct (Req_dec_T (last f 0) 0); [contradiction|]. fold t0. fold N.
    destruct (Req_dec_T (IZR N) 0); [contradiction|]. fold dt0.
    destruct (Req_dec_T dt0 0); [contradiction|]. reflexivity.
Qed.

(** X16.  Constructed from two empty arrays, the container does not come
    into being: without [rg] the splitter's failure on the empty PSD
    surfaces as the [ValueError] about the splitting method; with [rg]
    the [IndexError] of [f[-1]] comes first. *)
Theorem empty_psd_construction_fails (nperseg : Z) (trim : option Z)
    (kw : kwargs Generator) :
  kw_dt kw = None ->
  init (PTuple [PArray []; PArray []]) nperseg trim kw
  = match kw_rg kw with
    | None => Err (ValueError "Unknown splitting method: equalAreaBands")
    | Some _ => Err IndexError
    end.
Proof.
  intros Hdt. unfold init, __init__. rewrite Hdt.
  cbn [is_default_input bind is_int_or_float].
  unfold stack_columns. cbn [List.length Nat.eqb bind]. unfold from_psd.
  destruct (kw_rg kw); reflexivity.
Qed.

End Inputs.

Lemma time_history_construction_ok
    (welch : list R -> R -> Z -> result (list R * list R)) (Generator : Type)
    (random_gaussian : Z -> list R -> Np.npfloat -> Generator -> result (list R))
    (gui : Np.ndarray2) (readf : string -> result (list R))
    (samples f p : list R) (b : pyval) (nperseg : Z) (trim : option Z)
    (kw : kwargs Generator) :
  kw_dt kw = None -> is_int_or_float b = true -> float_value b <> 0 ->
  _calculate_psd welch samples (1 / float_value b) nperseg trim = Ok [f; p] ->
  p <> [] ->
  exists sd,
    __init__ welch Generator random_gaussian gui readf
      (PTuple [PArray samples; b]) nperseg trim kw = Ok sd.
Proof.
  intros Hdt Hb Hnz Hpsd Hp.
  destruct (calculate_coefficients_ok f p Hp) as [c Hc].
  unfold __init__. rewrite Hdt. cbn [is_default_input bind]. rewrite Hb.
  unfold from_time_history. destruct (Req_dec_T (float_value b) 0); [contradiction|].
  rewrite Hpsd. cbn [bind]. unfold with_coefficients. fold single_band.
  rewrite Hc. eexists. reflexivity.
Qed.

(** A run: an integer and a triple are refused. *)
Lemma unrecognized_input_is_refused_witness :
  __init__ no_welch unit no_random_gaussian [] no_file
    (PInt 3) 1280%Z None (mkKwargs unit None None)
  = Err (Exception "Unrecognized Input Error. `input` should be tuple with 2 elements.") /\
  __init__ no_welch unit no_random_gaussian [] no_file
    (PTuple [PList []; PFloat 1]) 1280%Z None (mkKwargs unit None None)
  = Err (Exception "Unrecognized Input Error").
Proof.
  destruct (unrecognized_input_is_refused no_welch unit no_random_gaussian []
              no_file 1280%Z None (mkKwargs unit None None) eq_refl)
    as [H1 [H2 _]].
  split; [apply H1; exact I | apply H2; reflexivity].
Defined.

(** A run: two samples at the interval 1/16 and a Welch estimate of
    five bins. *)
Lemma time_history_construction_witness :
  exists sd,
    __init__ (welch_five_bins 1 1 1 1 1) unit no_random_gaussian [] no_file
      (PTuple [PArray [1; 2]; PFloat (1 / 16)]) 8%Z None (mkKwargs unit None None)
    = Ok sd /\
    data sd = Some [1; 2] /\
    t sd = Some (Np.Finite (1 / 16 * INR 2)) /\
    psd sd = [[0; 2; 4; 6; 8]; [1; 1; 1; 1; 1]].
Proof.
  assert (Hnz : float_value (PFloat (1 / 16)) <> 0) by (simpl; lra).
  destruct (time_history_construction_ok
              (welch_five_bins 1 1 1 1 1) unit no_random_gaussian [] no_file
              [1; 2] [0; 2; 4; 6; 8] [1; 1; 1; 1; 1] (PFloat (1 / 16)) 8%Z None
              (mkKwargs unit None None) eq_refl eq_refl Hnz eq_refl
              ltac:(discriminate)) as [sd Hsd].
  pose proof (time_history_construction
                (welch_five_bins 1 1 1 1 1) unit no_random_gaussian [] no_file
                [1; 2] (PFloat (1 / 16)) 8%Z None (mkKwargs unit None None)
                eq_refl eq_refl Hnz) as H.
  cbv beta iota delta [_calculate_psd welch_five_bins bind fst snd stack_columns
                       List.length Nat.eqb Np.column_stack] in H.
  destruct (H sd Hsd) as [Hd [_ [Ht [_ Hp]]]].
  exists sd. repeat split; assumption.
Defined.

(** A run: three frequencies 0, 1, 2 give four points over 3/2 seconds. *)
Lemma set_time_history_values_witness :
  _set_time_history unit zero_signal [1; 1; 1] [0; 1; 2] tt
  = Ok ([0; 0; 0; 0], Np.Finite (INR 3 / 2 / IZR 4), Np.Finite (INR 3 / 2)).
Proof.
  destruct (set_time_history_values unit zero_signal [1; 1; 1] [0; 1; 2] tt)
    as [_ H].
  destruct H as [_ H]; [simpl; lia | simpl; lra | exact H].
Defined.

(** A run without the keyword [rg]. *)
Lemma empty_psd_construction_fails_witness :
  __init__ no_welch unit no_random_gaussian [] no_file
    (PTuple [PArray []; PArray []]) 1280%Z None (mkKwargs unit None None)
  = Err (ValueError "Unknown splitting method: equalAreaBands").
Proof.
  apply (empty_psd_construction_fails no_welch unit no_random_gaussian []
           no_file 1280%Z None (mkKwargs unit None None) eq_refl).
Defined.

(** * Statistics of a degenerate band *)

Lemma root_ratio_zero : root_ratio [0; 0] = Np.NotFinite.
Proof.
  unfold root_ratio, Np.div. cbn [nth].
  destruct (Req_dec_T 0 0); [reflexivity | congruence].
Qed.

(** X17.  For a band of at most one row (see above) nothing derived from its
    moments is a number: the bandwidth estimator of every index, the
    Vanmarcke parameter, [nu_p] and [m_p] of that band are all [nan]. *)
Theorem degenerate_band_statistics (f p : list R) (sp i : pyval)
    (bs : list nat) (k : nat) :
  _get_band_stop_frequency [f; p] sp = Ok bs ->
  is_int_or_float i = true ->
  (k < List.length bs)%nat ->
  (band_hi bs k <= band_lo bs k)%nat ->
  exists alphas eps nus mps,
    get_bandwidth_estimator [f; p] sp i = Ok alphas /\
    get_vanmarcke_parameter [f; p] sp = Ok eps /\
    get_nup [f; p] sp = Ok nus /\
    get_mp [f; p] sp = Ok mps /\
    nth k alphas (Np.Finite 0) = Np.NotFinite /\
    nth k eps (Np.Finite 0) = Np.NotFinite /\
    nth k nus (Np.Finite 0) = Np.NotFinite /\
    nth k mps (Np.Finite 0) = Np.NotFinite.
Proof.
  intros Hbs Hi Hk Hdeg.
  assert (Hzero : forall j,
            moment (slice (band_lo bs k) (band_hi bs k + 1) f)
                   (slice (band_lo bs k) (band_hi bs k + 1) p) j = 0).
  { intros j. apply moment_short.
    unfold slice. rewrite length_skipn, length_firstn. lia. }
  assert (Hnth : forall g : nat -> Np.npfloat,
            nth k (map g (seq 0 (List.length bs))) (Np.Finite 0) = g k).
  { intros g. rewrite (nth_indep _ (Np.Finite 0) (g 0%nat))
      by (rewrite length_map, length_seq; exact Hk).
    rewrite map_nth, seq_nth by exact Hk. reflexivity. }
  pose proof (get_bandwidth_estimator_value f p sp i bs Hi Hbs) as Ha.
  pose proof (get_bandwidth_estimator_value f p sp (PInt 1) bs eq_refl Hbs) as Ha1.
  eexists. eexists. eexists. eexists.
  split; [exact Ha|].
  split; [unfold get_vanmarcke_parameter; rewrite Ha1; reflexivity|].
  split; [apply get_nup_value; exact Hbs|].
  split; [apply get_mp_value; exact Hbs|].
  rewrite map_map, !Hnth. cbv zeta. rewrite !Hzero.
  rewrite alpha_of_zero_moments, root_ratio_zero.
  repeat split; reflexivity.
Qed.

(** A run on targets given in descending order: the second band is empty. *)
Lemma degenerate_band_statistics_witness :
  exists alphas,
    get_bandwidth_estimator [[0; 1; 2; 3; 4]; [1; 1; 1; 1; 1]]
      (PTuple [PStr "userDefinedBands"; PList [PInt 3; PInt 1]]) (PInt 2)
    = Ok alphas /\
    nth 1 alphas (Np.Finite 0) = Np.NotFinite.
Proof.
  assert (Hbs : _get_band_stop_frequency [[0; 1; 2; 3; 4]; [1; 1; 1; 1; 1]]
                  (PTuple [PStr "userDefinedBands"; PList [PInt 3; PInt 1]])
                = Ok [3; 1]%nat).
  { rewrite get_band_stop_userDefined. unfold _userDefinedBands.
    run_argmin. reflexivity. }
  destruct (degenerate_band_statistics
              [0; 1; 2; 3; 4] [1; 1; 1; 1; 1] _ (PInt 2) [3; 1]%nat 1%nat
              Hbs eq_refl)
    as [alphas [_ [_ [_ [Ha [_ [_ [_ [Hk _]]]]]]]]].
  - simpl. lia.
  - unfold band_hi, band_lo. simpl. lia.
  - exists alphas. split; assumption.
Defined.
